(** * chainsaw: splitting a file into shards and joining them back

    A shallow embedding of [split.cc], [join.cc], [shard_hdr.h] and the file
    primitives of [file.cc], and the properties of the shard format that
    follow from the code.

    Conventions of the embedding:
    - [uint16_t], [uint32_t], [uint64_t] and [size_t] values are [Z], with
      the wrap-around of the unsigned arithmetic written out ([u16], [u64]);
      [size_t] is 64 bits wide;
    - a file is its byte content and its mode bits, the file system a finite
      map from path names to files, and an open descriptor ([file_t]) a path
      together with an offset;
    - an exception is an [Err] outcome that carries the chain of nested
      messages; the world keeps every effect that happened before the throw;
    - the loops whose termination depends on what the read calls return are
      driven by a fuel counter, and running out of it is the outcome
      [OutOfFuel];
    - every creation and every write is appended to a log, so that the order
      of the writes can be stated;
    - the file system is an ideal one: [open_ro] fails for a path that names
      no file, [open_rw] for the empty path, and nothing else fails; a read
      returns all the bytes asked for that the file still has; the mode bits
      are stored as they are passed, without a umask;
    - the integers of a header are stored least significant byte first, and
      the name of a header read from a file ends at the first NUL or at the
      end of the field;
    - [update_crc] is not among the sources: it is a parameter of the
      development ([Crc]), and the CRC-32 stands in for it where the code is
      run.

    The definitions come first: the code, then the vocabulary of the
    statements and the files of the examples.  The lemmas and theorems
    follow. *)

From Stdlib Require Import ZArith Lia Ascii Permutation.
From Stdlib Require Strings.Byte Strings.String.
From stdpp Require Import base gmap strings list pretty sorting.

Import Stdlib.Init.Byte.

Local Open Scope Z_scope.

(** ** Machine integers and bytes *)

Definition u16 (z : Z) : Z := z mod 2 ^ 16.
Definition u64 (z : Z) : Z := z mod 2 ^ 64.

#[global] Instance byte_eq_dec : EqDecision byte := Byte.byte_eq_dec.

Definition Z_of_byte (b : byte) : Z := Z.of_N (Byte.to_N b).

Definition byte_of_Z (z : Z) : byte :=
  match Byte.of_N (Z.to_N (z mod 256)) with
  | Some b => b
  | None => x00
  end.

(** The object representation of an unsigned integer of [n] bytes, least
    significant byte first. *)
Fixpoint le_encode (n : nat) (z : Z) : list byte :=
  match n with
  | O => []
  | S n' => byte_of_Z z :: le_encode n' (z / 256)
  end.

Fixpoint le_decode (bs : list byte) : Z :=
  match bs with
  | [] => 0
  | b :: bs' => Z_of_byte b + 256 * le_decode bs'
  end.

Definition slice (off len : nat) (bs : list byte) : list byte :=
  take len (drop off bs).

(** ** C strings *)

(** [std::string::c_str] as the system calls see it: the characters before
    the first NUL. *)
Fixpoint c_str (s : string) : string :=
  match s with
  | "" => ""
  | String c s' => if Ascii.eqb c "000" then "" else String c (c_str s')
  end.

(** [strrchr(name, '/')], returning the text that follows the last slash. *)
Fixpoint strrchr_slash (s : string) : option string :=
  match s with
  | "" => None
  | String c s' =>
      match strrchr_slash s' with
      | Some t => Some t
      | None => if Ascii.eqb c "/" then Some s' else None
      end
  end.

(** The bytes of a [char] array up to its terminator. *)
Fixpoint c_bytes (bs : list byte) : list byte :=
  match bs with
  | [] => []
  | b :: bs' => if decide (b = x00) then [] else b :: c_bytes bs'
  end.

(** ** The shard header, [shard_hdr.h] *)

Record shard_hdr_t := mk_shard_hdr {
  magic : Z;
  shard_idx : Z;
  shard_count : Z;
  original_size : Z;
  original_crc : Z;
  shard_size : Z;
  shard_crc : Z;
  original_name : list byte
}.

Definition expected_magic : Z := 0xB007C8AD.

Definition set_shard_idx (h : shard_hdr_t) (v : Z) : shard_hdr_t :=
  mk_shard_hdr (magic h) v (shard_count h) (original_size h) (original_crc h)
    (shard_size h) (shard_crc h) (original_name h).

Definition set_shard_size (h : shard_hdr_t) (v : Z) : shard_hdr_t :=
  mk_shard_hdr (magic h) (shard_idx h) (shard_count h) (original_size h)
    (original_crc h) v (shard_crc h) (original_name h).

Definition set_shard_crc (h : shard_hdr_t) (v : Z) : shard_hdr_t :=
  mk_shard_hdr (magic h) (shard_idx h) (shard_count h) (original_size h)
    (original_crc h) (shard_size h) v (original_name h).

(** [shard_hdr_t] carries no packing directive, so [sizeof(shard_hdr_t)] and
    the offsets of its fields are the compiler's.  The two places where a
    compiler may pad the record are parameters: after [original_crc], so that
    [shard_size] is aligned, and after [original_name], so that the size is a
    multiple of the alignment. *)
Class Layout := {
  pad_after_crc : nat;
  pad_tail : nat
}.

(** Eight-byte integers aligned on eight bytes. *)
Definition natural_layout : Layout := {| pad_after_crc := 4; pad_tail := 4 |}.
(** Eight-byte integers aligned on four bytes, or a packed record. *)
Definition packed_layout : Layout := {| pad_after_crc := 0; pad_tail := 0 |}.

Definition name_capacity : nat := 256.

Section Header.
Context `{Layout}.

(** [sizeof(shard_hdr_t)] *)
Definition header_len : nat :=
  (4 + 2 + 2 + 8 + 4 + pad_after_crc + 8 + 4 + name_capacity + pad_tail)%nat.
Definition header_size : Z := Z.of_nat header_len.

(** What [reinterpret_cast<const char *>(&shard_hdr)] points to.  The
    padding is zero: the record is cleared by [memset] before it is filled. *)
Definition encode_hdr (h : shard_hdr_t) : list byte :=
  le_encode 4 (magic h) ++ le_encode 2 (shard_idx h)
  ++ le_encode 2 (shard_count h) ++ le_encode 8 (original_size h)
  ++ le_encode 4 (original_crc h) ++ replicate pad_after_crc x00
  ++ le_encode 8 (shard_size h) ++ le_encode 4 (shard_crc h)
  ++ take name_capacity (original_name h ++ replicate name_capacity x00)
  ++ replicate pad_tail x00.

(** The record that [sizeof(shard_hdr_t)] bytes read into [&shard_hdr] give. *)
Definition decode_hdr (bs : list byte) : shard_hdr_t :=
  {| magic := le_decode (slice 0 4 bs);
     shard_idx := le_decode (slice 4 2 bs);
     shard_count := le_decode (slice 6 2 bs);
     original_size := le_decode (slice 8 8 bs);
     original_crc := le_decode (slice 16 4 bs);
     shard_size := le_decode (slice (20 + pad_after_crc) 8 bs);
     shard_crc := le_decode (slice (28 + pad_after_crc) 4 bs);
     original_name := slice (32 + pad_after_crc) name_capacity bs |}.
End Header.

(** The name held by a header, as the C string functions read it. *)
Definition name_of (h : shard_hdr_t) : string :=
  String.string_of_list_byte (c_bytes (original_name h)).

(** ** The checksum, [crc.h] *)

(** Modelled from the spec: [update_crc] is declared in [crc.h] and defined
    in a file that is not part of the sources.  It is an incremental CRC-32
    accumulator: updating with no bytes changes nothing, and updating with
    two consecutive spans equals updating once with their concatenation. *)
Class Crc := {
  update_crc : Z → list byte → Z;
  update_crc_nil : ∀ c, update_crc c [] = c;
  update_crc_app : ∀ c a b, update_crc (update_crc c a) b = update_crc c (a ++ b)
}.

(** ** Files, descriptors and the world, [file.h] *)

Record file := mk_file {
  content : list byte;
  mode : Z
}.

Inductive event :=
| EvCreate (path : string) (m : Z)
| EvWrite (path : string) (off : nat) (data : list byte).

Record world := mk_world {
  files : gmap string file;
  log : list event
}.

(** An open descriptor: the file it refers to and the current offset. *)
Record file_t := mk_fd {
  fd_path : string;
  fd_pos : nat
}.

(** The messages of the exceptions, with the exception nested in them. *)
Inductive error :=
| Enoent
| Ebadf
| UnexpectedEof
| CouldNotOpenReading (path : string) (cause : error)
| CouldNotOpenWriting (path : string) (cause : error)
| FileTooSmall
| NotAShard
| CouldNotOpenShard (path : string) (cause : error)
| BigFile
| NameTooLong
| NoShards
| WrongCount (got expected : Z)
| DoesntMatch (path : string)
| Duplicate (path : string)
| Damaged (path : string)
| BadReconstruction
| DivideByZero.

(** The taxonomy of the failures. *)
Inductive error_class := FormatError | ConsistencyError | CorruptionError | IOError | Trap.

Fixpoint classify (e : error) : error_class :=
  match e with
  | Enoent | Ebadf | UnexpectedEof => IOError
  | CouldNotOpenReading _ _ | CouldNotOpenWriting _ _ => IOError
  | FileTooSmall | NotAShard => FormatError
  | CouldNotOpenShard _ cause => classify cause
  | BigFile | NameTooLong => FormatError
  | NoShards | WrongCount _ _ | DoesntMatch _ | Duplicate _ => ConsistencyError
  | Damaged _ | BadReconstruction => CorruptionError
  | DivideByZero => Trap
  end.

Inductive outcome (A : Type) :=
| Ok (a : A)
| Err (e : error)
| OutOfFuel.
Arguments Ok {A} a.
Arguments Err {A} e.
Arguments OutOfFuel {A}.

Definition io (A : Type) : Type := world → outcome A * world.

Definition ret {A} (a : A) : io A := λ w, (Ok a, w).
Definition throw {A} (e : error) : io A := λ w, (Err e, w).
Definition timeout {A} : io A := λ w, (OutOfFuel, w).

Definition bind {A B} (m : io A) (k : A → io B) : io B :=
  λ w, match m w with
       | (Ok a, w') => k a w'
       | (Err e, w') => (Err e, w')
       | (OutOfFuel, w') => (OutOfFuel, w')
       end.

(** [try { m } catch (...) { std::throw_with_nested(ctx) }] *)
Definition nested {A} (ctx : error → error) (m : io A) : io A :=
  λ w, match m w with
       | (Err e, w') => (Err (ctx e), w')
       | r => r
       end.

Notation "'let*' x ':=' m 'in' k" := (bind m (λ x, k))
  (at level 10, x pattern, m at level 100, k at level 200).

Definition overwrite (pos : nat) (data old : list byte) : list byte :=
  take pos old ++ replicate (pos - length old) x00 ++ data
  ++ drop (pos + length data) old.

Definition open_ro (path : string) : io file_t :=
  λ w, match files w !! c_str path with
       | Some _ => (Ok (mk_fd (c_str path) 0), w)
       | None => (Err (CouldNotOpenReading path Enoent), w)
       end.

(** [open(path, O_RDWR | O_CREAT | O_TRUNC, mode)]: a file that exists is
    emptied and keeps its mode bits.  The empty path names no file. *)
Definition open_rw (path : string) (m : Z) : io file_t :=
  λ w, let p := c_str path in
       if decide (p = "") then (Err (CouldNotOpenWriting path Enoent), w)
       else
         let f := match files w !! p with
                  | Some f => mk_file [] (mode f)
                  | None => mk_file [] m
                  end in
         (Ok (mk_fd p 0),
          mk_world (<[p := f]> (files w)) (log w ++ [EvCreate p m])).

Definition get_size_and_mode (fd : file_t) : io (Z * Z) :=
  λ w, match files w !! fd_path fd with
       | Some f => (Ok (Z.of_nat (length (content f)), mode f), w)
       | None => (Err Ebadf, w)
       end.

Definition read_at_most (fd : file_t) (max_size : Z) : io (list byte * file_t) :=
  λ w, match files w !! fd_path fd with
       | Some f =>
           let piece := take (Z.to_nat max_size) (drop (fd_pos fd) (content f)) in
           (Ok (piece, mk_fd (fd_path fd) (fd_pos fd + length piece)), w)
       | None => (Err Ebadf, w)
       end.

Definition read_exactly (fd : file_t) (size : Z) : io (list byte * file_t) :=
  λ w, match files w !! fd_path fd with
       | Some f =>
           let piece := take (Z.to_nat size) (drop (fd_pos fd) (content f)) in
           if decide (length piece = Z.to_nat size)
           then (Ok (piece, mk_fd (fd_path fd) (fd_pos fd + length piece)), w)
           else (Err UnexpectedEof, w)
       | None => (Err Ebadf, w)
       end.

(** [seek(offset, SEEK_SET)] *)
Definition seek (fd : file_t) (offset : Z) : io file_t :=
  ret (mk_fd (fd_path fd) (Z.to_nat offset)).

(** [seek(0, SEEK_CUR)] *)
Definition tell (fd : file_t) : io Z :=
  ret (Z.of_nat (fd_pos fd)).

Definition write_exactly (fd : file_t) (data : list byte) : io file_t :=
  λ w, match data with
       | [] => (Ok fd, w)
       | _ =>
           match files w !! fd_path fd with
           | Some f =>
               (Ok (mk_fd (fd_path fd) (fd_pos fd + length data)),
                mk_world
                  (<[fd_path fd := mk_file (overwrite (fd_pos fd) data (content f)) (mode f)]>
                     (files w))
                  (log w ++ [EvWrite (fd_path fd) (fd_pos fd) data]))
           | None => (Err Ebadf, w)
           end
       end.

(** ** Splitting, [split.cc] *)

Definition buffer_size : Z := 0x10000.

Definition make_shard_name (path : string) (idx count : Z) : string :=
  path +:+ "@" +:+ pretty (Z.to_N idx) +:+ "." +:+ pretty (Z.to_N count).

(** The name that goes into the header: the source path without its
    directories. *)
Definition base_name (file_name : string) : string :=
  let name := c_str file_name in
  match strrchr_slash name with
  | Some t => t
  | None => name
  end.

(** [strcpy] into the cleared [original_name]. *)
Definition name_field (name : string) : list byte :=
  let bs := String.list_byte_of_string name in
  bs ++ replicate (name_capacity - length bs) x00.

Section Split.
Context `{Layout} `{Crc}.

(** The first pass over the source, for the checksum of the whole file. *)
Fixpoint crc_pass (fuel : nat) (inp : file_t) (crc : Z) : io (file_t * Z) :=
  match fuel with
  | O => timeout
  | S fuel' =>
      let* (piece, inp) := read_at_most inp buffer_size in
      match piece with
      | [] => ret (inp, crc)
      | _ => crc_pass fuel' inp (update_crc crc piece)
      end
  end.

(** [while (shard_size) { ... }]: copy [shard_size] bytes of the source to
    the shard, a buffer at a time. *)
Fixpoint copy_payload (fuel : nat) (inp out : file_t) (crc shard_size : Z)
  : io (file_t * file_t * Z) :=
  match fuel with
  | O => timeout
  | S fuel' =>
      if decide (shard_size = 0) then ret (inp, out, crc)
      else
        let* (piece, inp) := read_at_most inp (Z.min buffer_size shard_size) in
        let crc := update_crc crc piece in
        let* out := write_exactly out piece in
        copy_payload fuel' inp out crc (u64 (shard_size - Z.of_nat (length piece)))
  end.

(** One shard: the body of the [for] loop over [shard_idx].  Returns the
    descriptor of the source, the header as the iteration leaves it and the
    number of source bytes still to be written. *)
Definition write_shard (fuel : nat) (file_name : string) (m max_shard_size : Z)
    (inp : file_t) (shard_hdr : shard_hdr_t) (in_size shard_idx : Z)
  : io (file_t * shard_hdr_t * Z) :=
  let* out := open_rw (make_shard_name file_name shard_idx (shard_count shard_hdr)) m in
  let shard_size := Z.min (u64 (max_shard_size - header_size)) in_size in
  let shard_hdr := set_shard_idx shard_hdr shard_idx in
  let shard_hdr := set_shard_size shard_hdr (u64 (shard_size + header_size)) in
  let* out := write_exactly out (encode_hdr shard_hdr) in
  let in_size := u64 (in_size - shard_size) in
  let* (inp, out, crc) := copy_payload fuel inp out 0 shard_size in
  let shard_hdr := set_shard_crc shard_hdr crc in
  let* out := seek out 0 in
  let* out := write_exactly out (encode_hdr shard_hdr) in
  ret (inp, shard_hdr, in_size).

(** [for (uint16_t shard_idx = 1; shard_idx <= shard_count; ++shard_idx)] *)
Fixpoint shard_loop (fuel : nat) (file_name : string) (m max_shard_size : Z)
    (inp : file_t) (shard_hdr : shard_hdr_t) (in_size shard_idx : Z) : io unit :=
  match fuel with
  | O => timeout
  | S fuel' =>
      if decide (shard_idx ≤ shard_count shard_hdr) then
        let* (inp, shard_hdr, in_size) :=
          write_shard fuel' file_name m max_shard_size inp shard_hdr in_size shard_idx in
        shard_loop fuel' file_name m max_shard_size inp shard_hdr in_size
          (u16 (shard_idx + 1))
      else ret tt
  end.

Definition split (fuel : nat) (file_name : string) (max_shard_size : Z) : io unit :=
  let* inp := open_ro file_name in
  let* (in_size, m) := get_size_and_mode inp in
  let* (inp, crc) := crc_pass fuel inp 0 in
  let* inp := seek inp 0 in
  if decide (max_shard_size = 0) then throw DivideByZero
  else
    let big_shard_count := u64 (in_size + max_shard_size - 1) / max_shard_size in
    if decide (big_shard_count > 65535) then throw BigFile
    else
      let shard_count := big_shard_count in
      let name := base_name file_name in
      if decide (Z.of_nat name_capacity ≤ Z.of_nat (String.length name))
      then throw NameTooLong
      else
        let shard_hdr := mk_shard_hdr expected_magic 0 shard_count in_size crc 0 0
                           (name_field name) in
        shard_loop fuel file_name m max_shard_size inp shard_hdr in_size 1.
End Split.

(** ** Joining, [join.cc] *)

(** The default [mode] argument of [open_rw], octal 0777. *)
Definition default_mode : Z := 511.

(** [std::map<uint16_t, std::string>]: the entries in ascending key order. *)
Definition shard_map_t : Type := list (Z * string).

(** [std::map::emplace]: the entry is added unless the key is taken; the
    flag tells whether it was added. *)
Fixpoint emplace (k : Z) (v : string) (m : shard_map_t) : shard_map_t * bool :=
  match m with
  | [] => ([(k, v)], true)
  | (k', v') :: m' =>
      if decide (k < k') then ((k, v) :: m, true)
      else if decide (k = k') then (m, false)
      else let (r, added) := emplace k v m' in ((k', v') :: r, added)
  end.

Section Join.
Context `{Layout} `{Crc}.

(** Open a file as a shard and read its header. *)
Definition open_shard (path : string) : io (file_t * shard_hdr_t) :=
  nested (CouldNotOpenShard path)
    (let* inp := open_ro path in
     let* (in_size, _) := get_size_and_mode inp in
     if decide (in_size < header_size) then throw FileTooSmall
     else
       let* (raw, inp) := read_exactly inp header_size in
       let shard_hdr := decode_hdr raw in
       if decide (magic shard_hdr ≠ expected_magic ∨ shard_size shard_hdr ≠ in_size)
       then throw NotAShard
       else ret (inp, shard_hdr)).

(** What [open_shard] returns for a path, read off the file it names. *)
Definition probe (path : string) (o : option file) : outcome (file_t * shard_hdr_t) :=
match o with
| None => Err (CouldNotOpenShard path (CouldNotOpenReading path Enoent))
| Some f =>
    if decide (Z.of_nat (length (content f)) < header_size)
    then Err (CouldNotOpenShard path FileTooSmall)
    else
      let shard_hdr := decode_hdr (take header_len (content f)) in
      if decide (magic shard_hdr ≠ expected_magic
                 ∨ shard_size shard_hdr ≠ Z.of_nat (length (content f)))
      then Err (CouldNotOpenShard path NotAShard)
      else Ok (mk_fd (c_str path) header_len, shard_hdr)
end.

(** The comparison of a shard's header with the master's. *)
Definition mismatch (shard_hdr master_shard_hdr : shard_hdr_t) : Prop :=
  shard_count shard_hdr ≠ shard_count master_shard_hdr
  ∨ original_size shard_hdr ≠ original_size master_shard_hdr
  ∨ original_crc shard_hdr ≠ original_crc master_shard_hdr
  ∨ c_bytes (original_name shard_hdr) ≠ c_bytes (original_name master_shard_hdr).

#[global] Instance mismatch_dec a b : Decision (mismatch a b).
Proof. unfold mismatch. apply _. Defined.

(** [for (size_t i = 1; i < file_names.size(); ++i)]: check the other
    shards against the first one and order them by index. *)
Fixpoint collect_shards (rest : list string) (master_shard_hdr : shard_hdr_t)
    (shard_map : shard_map_t) : io shard_map_t :=
  match rest with
  | [] => ret shard_map
  | file_name :: rest' =>
      let* (_, shard_hdr) := open_shard file_name in
      if decide (mismatch shard_hdr master_shard_hdr)
      then throw (DoesntMatch file_name)
      else
        let (shard_map', added) := emplace (shard_idx shard_hdr) file_name shard_map in
        if added then collect_shards rest' master_shard_hdr shard_map'
        else throw (Duplicate file_name)
  end.

(** [for (;;)]: append what is left of the shard to the output. *)
Fixpoint append_payload (fuel : nat) (inp out : file_t) (total_crc shard_crc : Z)
  : io (file_t * Z * Z) :=
  match fuel with
  | O => timeout
  | S fuel' =>
      let* (piece, inp) := read_at_most inp buffer_size in
      match piece with
      | [] => ret (out, total_crc, shard_crc)
      | _ =>
          let total_crc := update_crc total_crc piece in
          let shard_crc := update_crc shard_crc piece in
          let* out := write_exactly out piece in
          append_payload fuel' inp out total_crc shard_crc
      end
  end.

(** [for (const auto &pair: shard_map)] *)
Fixpoint append_shards (fuel : nat) (shard_map : shard_map_t) (out : file_t)
    (total_crc : Z) : io (file_t * Z) :=
  match shard_map with
  | [] => ret (out, total_crc)
  | (_, path) :: shard_map' =>
      let* (inp, shard_hdr) := open_shard path in
      let* (out, total_crc, crc) := append_payload fuel inp out total_crc 0 in
      if decide (shard_crc shard_hdr ≠ crc) then throw (Damaged path)
      else append_shards fuel shard_map' out total_crc
  end.

(** The second half of [join]: create the output, append the shards in the
    order of the map and check the result against the first header. *)
Definition reassemble (fuel : nat) (master_shard_hdr : shard_hdr_t)
    (shard_map : shard_map_t) : io unit :=
let* out := open_rw (name_of master_shard_hdr) default_mode in
let* (out, total_crc) := append_shards fuel shard_map out 0 in
let* out_size := tell out in
if decide (out_size ≠ original_size master_shard_hdr
           ∨ total_crc ≠ original_crc master_shard_hdr)
then throw BadReconstruction
else ret tt.

Definition join (fuel : nat) (file_names : list string) : io unit :=
match file_names with
| [] => throw NoShards
| first :: rest =>
    let* (_, master_shard_hdr) := open_shard first in
    if decide (Z.of_nat (length file_names) ≠ shard_count master_shard_hdr)
    then throw (WrongCount (Z.of_nat (length file_names)) (shard_count master_shard_hdr))
    else
      let shard_map := [(shard_idx master_shard_hdr, first)] in
      let* shard_map := collect_shards rest master_shard_hdr shard_map in
      reassemble fuel master_shard_hdr shard_map
end.
End Join.

(** ** A checksum to run the code with *)

(** Modelled from the spec: the CRC-32 of zlib and Ethernet (reflected
    polynomial 0xEDB88320, register inverted on entry and on exit), computed
    bit by bit.  It stands for the [update_crc] of the missing [crc.cc]
    wherever the code is run on concrete files. *)
Module Crc32.
Definition poly : Z := 0xEDB88320.
Definition ones : Z := 0xFFFFFFFF.

Definition crc_bit (c : Z) : Z :=
  if Z.testbit c 0 then Z.lxor (Z.shiftr c 1) poly else Z.shiftr c 1.

Definition crc_byte (c : Z) (b : byte) : Z :=
  Nat.iter 8 crc_bit (Z.lxor c (Z_of_byte b)).

Definition update (c : Z) (bs : list byte) : Z :=
  Z.lxor (fold_left crc_byte bs (Z.lxor c ones)) ones.

(** The values of a [uint32_t]. *)
Definition r32 (c : Z) : Prop := 0 ≤ c < 2 ^ 32.

Lemma update_nil c : update c [] = c.
Proof.
  unfold update. simpl.
  rewrite Z.lxor_assoc, Z.lxor_nilpotent. apply Z.lxor_0_r.
Qed.

Lemma update_app c a b : update (update c a) b = update c (a ++ b).
Proof.
  unfold update. rewrite fold_left_app. do 2 f_equal.
  rewrite Z.lxor_assoc, Z.lxor_nilpotent. apply Z.lxor_0_r.
Qed.

Definition crc : Crc :=
  {| update_crc := update; update_crc_nil := update_nil; update_crc_app := update_app |}.
End Crc32.

(** ** What the runs leave behind: definitions for the statements *)

(** The path that an event is about. *)
Definition event_path (e : event) : string :=
  match e with
  | EvCreate p _ => p
  | EvWrite p _ _ => p
  end.

(** The paths created, in the order of their creation. *)
Definition created (l : list event) : list string :=
omap (λ e, match e with EvCreate p _ => Some p | _ => None end) l.

(** The data of the writes to [path] that start at offset [off], in the
    order of the writes. *)
Definition writes_at (path : string) (off : nat) (l : list event) : list (list byte) :=
omap (λ e, match e with
           | EvWrite p o data =>
               if decide (p = path ∧ o = off) then Some data else None
           | _ => None
           end) l.

(** The payload of a shard file: what follows the header. *)
Definition payload `{Layout} (f : file) : list byte := drop header_len (content f).

(** The writes that copy [data] to [path] from offset [pos] on, a buffer at a
    time; [n] bounds their number. *)
Fixpoint piece_writes (n : nat) (path : string) (pos : nat) (data : list byte) : list event :=
match n with
| O => []
| S n' =>
    match data with
    | [] => []
    | _ =>
        let piece := take (Z.to_nat buffer_size) data in
        EvWrite path pos piece
          :: piece_writes n' path (pos + length piece) (drop (Z.to_nat buffer_size) data)
    end
end.

Definition payload_writes (path : string) (pos : nat) (data : list byte) : list event :=
piece_writes (length data) path pos data.

(** The source cut into [k] payloads of at most [cap] bytes. *)
Fixpoint payloads (k cap : nat) (data : list byte) : list (list byte) :=
match k with
| O => []
| S k' => take cap data :: payloads k' cap (drop cap data)
end.

Section Written.
Context `{Layout} `{Crc}.

Definition shard_path (file_name : string) (idx count : Z) : string :=
c_str (make_shard_name file_name idx count).

(** The header of shard [idx] as it is first written: the fields of this
    shard are set, [shard_crc] is what the record [hdr] held. *)
Definition first_hdr (hdr : shard_hdr_t) (idx : Z) (p : list byte) : shard_hdr_t :=
set_shard_size (set_shard_idx hdr idx) (u64 (Z.of_nat (length p) + header_size)).

(** The header of shard [idx] as it is written last. *)
Definition final_hdr (hdr : shard_hdr_t) (idx : Z) (p : list byte) : shard_hdr_t :=
set_shard_crc (first_hdr hdr idx p) (update_crc 0 p).

(** What writing shard [idx] with payload [p] appends to the log. *)
Definition shard_events (file_name : string) (m : Z) (hdr : shard_hdr_t) (idx : Z)
    (p : list byte) : list event :=
let path := shard_path file_name idx (shard_count hdr) in
[EvCreate path m; EvWrite path 0 (encode_hdr (first_hdr hdr idx p))]
++ payload_writes path header_len p
++ [EvWrite path 0 (encode_hdr (final_hdr hdr idx p))].

(** The world after shard [idx] has been written with payload [p]. *)
Definition shard_written (file_name : string) (m : Z) (hdr : shard_hdr_t) (idx : Z)
    (p : list byte) (w : world) : world :=
let path := shard_path file_name idx (shard_count hdr) in
let md := match files w !! path with Some g => mode g | None => m end in
mk_world
  (<[path := mk_file (encode_hdr (final_hdr hdr idx p) ++ p) md]> (files w))
  (log w ++ shard_events file_name m hdr idx p).

(** The same for the shards with the payloads [ps], the first of them with
    index [idx]. *)
Fixpoint shards_events (file_name : string) (m : Z) (hdr : shard_hdr_t) (idx : Z)
    (ps : list (list byte)) : list event :=
match ps with
| [] => []
| p :: ps' =>
    shard_events file_name m hdr idx p
    ++ shards_events file_name m (final_hdr hdr idx p) (idx + 1) ps'
end.

Fixpoint shards_written (file_name : string) (m : Z) (hdr : shard_hdr_t) (idx : Z)
    (ps : list (list byte)) (w : world) : world :=
match ps with
| [] => w
| p :: ps' =>
    shards_written file_name m (final_hdr hdr idx p) (idx + 1) ps'
      (shard_written file_name m hdr idx p w)
end.

(** The checksum that the header of the [j]-th shard written carries when it
    is written for the first time: what the header record held before. *)
Definition stale_crc (hdr : shard_hdr_t) (ps : list (list byte)) (j : nat) : Z :=
  match j with
  | O => shard_crc hdr
  | S j' => update_crc 0 (default [] (ps !! j'))
  end.

(** The number of shards that [split] computes ([big_shard_count]). *)
Definition shard_total (in_size max_shard_size : Z) : Z :=
u64 (in_size + max_shard_size - 1) / max_shard_size.

(** The number of payload bytes that [split] gives a shard at most. *)
Definition payload_cap (max_shard_size : Z) : nat :=
Z.to_nat (u64 (max_shard_size - header_size)).

(** The header record as [split] fills it in before the loop. *)
Definition initial_hdr (file_name : string) (max_shard_size : Z) (data : list byte)
  : shard_hdr_t :=
mk_shard_hdr expected_magic 0 (shard_total (Z.of_nat (length data)) max_shard_size)
  (Z.of_nat (length data)) (update_crc 0 data) 0 0 (name_field (base_name file_name)).

(** The bytes of the source that go into shard [i], counted from 1. *)
Definition shard_payload (max_shard_size : Z) (data : list byte) (i : Z) : list byte :=
take (payload_cap max_shard_size)
  (drop (Z.to_nat (i - 1) * payload_cap max_shard_size) data).

(** The header that shard [i] is left with. *)
Definition shard_hdr_of (file_name : string) (max_shard_size : Z) (data : list byte)
    (i : Z) : shard_hdr_t :=
final_hdr (initial_hdr file_name max_shard_size data) i (shard_payload max_shard_size data i).
End Written.

(** A path without a NUL: [c_str] leaves it as it is. *)
Definition nul_free (s : string) : Prop := c_str s = s.

(** Decimal numerals hold neither a NUL nor a dot. *)
Fixpoint plain (s : string) : Prop :=
  match s with
  | "" => True
  | String c s' => c ≠ "000"%char ∧ c ≠ "."%char ∧ plain s'
  end.

(** The headers whose fields fit their types. *)
Record fits (h : shard_hdr_t) : Prop := {
  fits_magic : 0 ≤ magic h < 2 ^ 32;
  fits_idx : 0 ≤ shard_idx h < 2 ^ 16;
  fits_count : 0 ≤ shard_count h < 2 ^ 16;
  fits_osize : 0 ≤ original_size h < 2 ^ 64;
  fits_ocrc : 0 ≤ original_crc h < 2 ^ 32;
  fits_ssize : 0 ≤ shard_size h < 2 ^ 64;
  fits_scrc : 0 ≤ shard_crc h < 2 ^ 32;
  fits_name : length (original_name h) = name_capacity
}.

(** The order of [std::map<uint16_t, _>]: ascending keys. *)
Definition key_lt (a b : Z * string) : Prop := a.1 < b.1.

(** [emplace] for every entry of a list in turn, up to the first key that
    is taken. *)
Fixpoint emplace_all (kvs : list (Z * string)) (m : shard_map_t) : option shard_map_t :=
  match kvs with
  | [] => Some m
  | (k, v) :: kvs' =>
      let (m', added) := emplace k v m in
      if added then emplace_all kvs' m' else None
  end.

(** Two headers that [join] takes to belong to one set. *)
Definition agree (h1 h2 : shard_hdr_t) : Prop := ¬ mismatch h1 h2.

Section Probed.
Context `{Layout}.

(** The header that [open_shard] reads at a path, when it accepts the file. *)
Definition hdr_at (w : world) (path : string) : option shard_hdr_t :=
  match probe path (files w !! c_str path) with
  | Ok (_, h) => Some h
  | _ => None
  end.

(** The entry of the shard map that a path gives rise to. *)
Definition entry_of (w : world) (path : string) : Z * string :=
  (match hdr_at w path with Some h => shard_idx h | None => 0 end, path).

(** The path of the file that [join] creates for a list of shards. *)
Definition destination (w : world) (file_names : list string) : string :=
  match file_names with
  | first :: _ =>
      match hdr_at w first with
      | Some master_shard_hdr => c_str (name_of master_shard_hdr)
      | None => ""
      end
  | [] => ""
  end.

End Probed.

Section Sets.
Context `{Layout} `{Crc}.

(** A path that names an intact shard of the set of [master]: [open_shard]
    accepts the file, the header agrees with [master] in what [join]
    compares, and the checksum in the header is that of the payload. *)
Definition intact (w : world) (master : shard_hdr_t) (p : string) : Prop :=
  match hdr_at w p, files w !! c_str p with
  | Some h, Some f => agree h master ∧ shard_crc h = update_crc 0 (payload f)
  | _, _ => False
  end.

#[global] Instance intact_dec w master p : Decision (intact w master p).
Proof.
  unfold intact, agree.
  destruct (hdr_at w p); [|apply _]. destruct (files w !! c_str p); apply _.
Defined.


End Sets.

(** The fuel that reading [n] bytes to the end of a file takes: one turn of
    the loop for every buffer, and one more to see the end. *)
Definition enough (fuel n : nat) : Prop :=
  (n + Z.to_nat buffer_size ≤ fuel * Z.to_nat buffer_size)%nat.

#[local] Instance enough_dec fuel n : Decision (enough fuel n).
Proof. unfold enough. apply _. Defined.

(** The world in which byte [off] of the file at [path] has been replaced
    by [b]. *)
Definition damage (w : world) (path : string) (off : nat) (b : byte) : world :=
  mk_world
    (alter (λ f, mk_file (<[off := b]> (content f)) (mode f)) path (files w))
    (log w).

(** Every file of [w] is still a file of [w']. *)
Definition kept (w w' : world) : Prop :=
  ∀ q, is_Some (files w !! q) → is_Some (files w' !! q).

(** ** The command line, [chainsaw.cc] *)

Module App.

(** [atoi]: white space, an optional sign, then decimal digits up to the
    first character that is none; zero when there is no digit.  The value
    is an [int]; for a number that does not fit, the behaviour of [atoi] is
    undefined, which is the result [None]. *)
Definition isspace (c : ascii) : bool :=
  let n := nat_of_ascii c in (n =? 32)%nat || ((9 <=? n)%nat && (n <=? 13)%nat).

Definition isdigit (c : ascii) : bool :=
  let n := nat_of_ascii c in (48 <=? n)%nat && (n <=? 57)%nat.

Fixpoint skip_space (s : string) : string :=
  match s with
  | String c s' => if isspace c then skip_space s' else s
  | "" => ""
  end.

Fixpoint digits (s : string) (acc : Z) : Z :=
  match s with
  | String c s' =>
      if isdigit c then digits s' (10 * acc + (Z.of_nat (nat_of_ascii c) - 48)) else acc
  | "" => acc
  end.

Definition atoi (s : string) : option Z :=
  let n := match skip_space (c_str s) with
           | String "-" s' => - digits s' 0
           | String "+" s' => digits s' 0
           | s' => digits s' 0
           end in
  if decide (- 2 ^ 31 ≤ n < 2 ^ 31) then Some n else None.

(** The members of [app_t] that the constructor fills in. *)
Record app_t := mk_app {
  app_params : list string;
  user_files : list string;
  shard_prefix : string;
  make_directory : bool;
  max_shard_size : Z
}.

(** The two exceptions of the argument loop. *)
Inductive arg_error := ShardsTooSmall | PrefixTooShort.

(** What the constructor comes to: the object, the exception that nests
    one of the two above, or undefined behaviour (an index past the end of
    [app_params], a number that [atoi] cannot represent). *)
Inductive parsed :=
| Parsed (a : app_t)
| BadArgument (cause : arg_error)
| ParseUndefined.

(** [for (int i = 0; i < app_params.size(); i++)], over the parameters that
    are left. *)
Fixpoint parse_args (rest : list string) (a : app_t) : parsed :=
  match rest with
  | [] => Parsed a
  | p :: rest' =>
      if decide (p = "-s") then
        match rest' with
        | [] => ParseUndefined
        | v :: rest'' =>
            match atoi v with
            | None => ParseUndefined
            | Some n =>
                let size := u64 n in
                if decide (size < 1) then BadArgument ShardsTooSmall
                else
                  parse_args rest''
                    (mk_app (app_params a) (user_files a) (shard_prefix a)
                       (make_directory a) (u64 (u64 (size * 1024) * 1024)))
            end
        end
      else if decide (p = "-d") then
        parse_args rest'
          (mk_app (app_params a) (user_files a) (shard_prefix a) true (max_shard_size a))
      else if decide (p = "-n") then
        match rest' with
        | [] => ParseUndefined
        | v :: rest'' =>
            if decide (String.length v < 3)%nat then BadArgument PrefixTooShort
            else
              parse_args rest''
                (mk_app (app_params a) (user_files a) v (make_directory a)
                   (max_shard_size a))
        end
      else
        parse_args rest'
          (mk_app (app_params a) (user_files a ++ [p]) (shard_prefix a)
             (make_directory a) (max_shard_size a))
  end.

(** The constructor [app_t(argc, argv)], for the parameters after
    [argv[0]]. *)
Definition parse (params : list string) : parsed :=
  parse_args params (mk_app params [] "shard" false 0).

(** The lines of the list of files: the comma is left out from the first
    file on that equals the last one. *)
Fixpoint file_lines (files : list string) (last : string) (is_last : bool) : list string :=
  match files with
  | [] => []
  | file :: files' =>
      let is_last := is_last || bool_decide (file = last) in
      ("  " +:+ file +:+ (if is_last then "" else ",")) :: file_lines files' last is_last
  end.

(** The lines written before the work starts. *)
Definition report (a : app_t) : list string :=
  ["Supplied Parameters: { size => " +:+ pretty (Z.to_N (max_shard_size a))
   +:+ ", mkdir => " +:+ (if make_directory a then "1" else "0")
   +:+ ", prefix => '" +:+ shard_prefix a +:+ "' }";
   "The following were 'files': {"]
  ++ file_lines (user_files a) (default "" (last (user_files a))) false
  ++ ["}"].

(** How the process ends: [main] returns a code, the behaviour is
    undefined (a division by zero in [split], or the constructor above), or
    the run is out of fuel. *)
Inductive status :=
| Exited (code : Z)
| Undefined
| Unfinished.

(** The exception that [main] catches and hands to [print_exception]. *)
Inductive failure :=
| BadArguments (cause : arg_error)
| Failed (e : error).

Record result := mk_result {
  ended : status;
  stdout : list string;
  caught : option failure;
  final : world
}.

(** The lines that [print_banner] and [print_usage] write, [help.cc]. *)
Definition print_banner : list string :=
[ "                              -ohmmy-                                       ";
  "                   .:.      :hmmmm+       -+shdddhs-                        ";
  "                `+dmo     .ymmmmmm.   `:smmmmmmmh:`                         ";
  "               .dmmm-    -dmmmmmmmh..ommmmmmmmmy                            ";
  "              `dmmmmh:  :mmmmmmmmmmmmmmmmmmmmmmy  `.:/+oooo+:.              ";
  "       `.     smmmmmmmmhmmmmmmmmmmmmmmmmmmmmmmmmhmmmmmmmmmmmmmd+`           ";
  "      +d/    `mmmmmmmmmmmmmmmmmmmmmmmmmmmmmmmmmmmmmmmmmmmmmd+:--.           ";
  "     ommy    :mmmmmmmmmmmmmmmmmmmmmmmmmmmmmmmmmmmmmmmmmmmmd`                ";
  "    `mmmmd+:-ommmmmmmmmmmmmmmhyo+//:///+oyhmmmmmmmmmmmmmmmy--.`             ";
  "    `mmmmmmmmmmmmmmmmmmmdo/..:/osyyyyyyso/-../odmmmmmmmmmmmmmmmmdys/.       ";
  "    `mmmmmmmmmmmmmmmmd+../ydmdyo+/::::/+oydmdy/..+dmmmmmmmmmmmmmmmmmmdo`    ";
  "     ymmmmmmmmmmmmmh:`/hmdo:`              `-ohmh+`-ymmmmmmmmmmmmmmmmmmm-   ";
  ".s`    :mmmmmmmmmmmd:`ommo-                      .ommo`-hmmmmmmmmmmmmo:-:+o " ].

Definition print_usage : list string :=
[ "--------------------------------------------------------------------------------";
  "| Chainsaw 0.43 | Split files into shards for easy transport.                  |";
  "--------------------------------------------------------------------------------";
  "--------------------------------------------------------------------------------";
  "| Chainsaw is meant to be easy to use, but there are several options you can   |";
  "| opt to use. By default, running chainsaw on an ordinary file will break it   |";
  "| into eight shards of nearly equal size.                                      |";
  "--------------------------------------------------------------------------------";
  "---- OPT ------------------------------------------ USE CASE -------------------";
  "|    -d         |  Store shards in a new directory while splitting.            |";
  "|               |                                                              |";
  "|    -i         |  Display information about a single shard.                   |";
  "|               |                                                              |";
  "|    -n         |  Named prefix to use while creating folders and shards.      |";
  "|               |                                                              |";
  "|    -s         |  Specify the maximum size of each shard in MB.               |";
  "|               |                                                              |";
  "|    -v         |  Enable verbose mode to see what's happening under the hood. |";
  "--------------------------------------------------------------------------------";
  "----------------------------------  EXAMPLES  ----------------------------------";
  "| $ chainsaw <file>                    |  Splits the file into eight shards.   |";
  "|                                      |                                       |";
  "| $ chainsaw <shards>                  |  Join shards back info a file.        |";
  "|                                      |                                       |";
  "| $ chainsaw -s 100MB -n loves <file>  |  Make 100MB shards named 'loves7.10'  |";
  "|                                      |                         (7 out of 10) |";
  "| $ chainsaw -d <file>                 |  Store in a default-named directory.  |";
  "--------------------------------------------------------------------------------" ].

Section Main.
Context `{Layout} `{Crc}.

(** [app_t::operator()], with the [catch] of [main] around it. *)
Definition run (fuel : nat) (a : app_t) (w : world) : result :=
  match app_params a with
  | [] => mk_result (Exited 0) (print_banner ++ print_usage) None w
  | first :: _ =>
      let r := if decide (length (user_files a) = 1%nat)
               then split fuel first (max_shard_size a) w
               else join fuel (app_params a) w in
      match r with
      | (Ok _, w') => mk_result (Exited 0) (report a) None w'
      | (Err DivideByZero, w') => mk_result Undefined (report a) None w'
      | (Err e, w') => mk_result (Exited 1) (report a) (Some (Failed e)) w'
      | (OutOfFuel, w') => mk_result Unfinished (report a) None w'
      end
  end.

(** [main]; [argv] holds the name of the program and the parameters. *)
Definition main (fuel : nat) (argv : list string) (w : world) : result :=
  match argv with
  | [] => mk_result Undefined [] None w
  | _ :: params =>
      match parse params with
      | Parsed a => run fuel a w
      | BadArgument cause => mk_result (Exited 1) [] (Some (BadArguments cause)) w
      | ParseUndefined => mk_result Undefined [] None w
      end
  end.
End Main.

End App.

(** ** Files to run the code on *)

(** A source of 605 bytes; with a limit of 600 bytes it is split in two. *)
Definition sample_data : list byte := (λ i, byte_of_Z (Z.of_nat i)) <$> seq 0 605.

Definition sample_world : world :=
mk_world {[ "report.bin" := mk_file sample_data 420 ]} [].

(** The world after [report.bin] has been split with a limit of 600 bytes,
    under the natural layout and with the CRC-32. *)
Definition split_world : world :=
(@split natural_layout Crc32.crc 700 "report.bin" 600 sample_world).2.

Definition empty_world : world :=
mk_world {[ "empty.bin" := mk_file [] 420 ]} [].



Definition big_world : world :=
mk_world {[ "big.bin" := mk_file (replicate (Z.to_nat 20000000) x00) 420 ]} [].

Definition wide_world : world :=
mk_world {[ "wide.bin" := mk_file (replicate (Z.to_nat 65536) x00) 420 ]} [].

(** A source of 65,535 bytes: with a limit of one byte, 65,535 shards. *)
Definition edge_world : world :=
mk_world {[ "edge.bin" := mk_file (replicate (Z.to_nat 65535) x00) 420 ]} [].



(** [report.bin] in a directory, and the world after it has been split with
    a limit of 600 bytes: the shards are in the directory, and the name in
    their headers, [report.bin], is the name of no file. *)
Definition folder_world : world :=
mk_world {[ "in/report.bin" := mk_file sample_data 420 ]} [].

Definition folder_split_world : world :=
(@split natural_layout Crc32.crc 700 "in/report.bin" 600 folder_world).2.

(** ** The monad and the file primitives *)

Lemma bind_ok {A B} (m : io A) (k : A → io B) w a w' :
  m w = (Ok a, w') → bind m k w = k a w'.
Proof. intros E. unfold bind. now rewrite E. Qed.

Lemma bind_err {A B} (m : io A) (k : A → io B) w e w' :
  m w = (Err e, w') → bind m k w = (Err e, w').
Proof. intros E. unfold bind. now rewrite E. Qed.

Lemma bind_out_of_fuel {A B} (m : io A) (k : A → io B) w w' :
  m w = (OutOfFuel, w') → bind m k w = (OutOfFuel, w').
Proof. intros E. unfold bind. now rewrite E. Qed.

Lemma open_ro_ok path w f :
  files w !! c_str path = Some f → open_ro path w = (Ok (mk_fd (c_str path) 0), w).
Proof. intros E. unfold open_ro. now rewrite E. Qed.

Lemma get_size_and_mode_ok fd w f :
  files w !! fd_path fd = Some f →
  get_size_and_mode fd w = (Ok (Z.of_nat (length (content f)), mode f), w).
Proof. intros E. unfold get_size_and_mode. now rewrite E. Qed.

Lemma read_at_most_ok fd n w f :
  files w !! fd_path fd = Some f →
  read_at_most fd n w =
    (Ok (take (Z.to_nat n) (drop (fd_pos fd) (content f)),
         mk_fd (fd_path fd)
           (fd_pos fd + length (take (Z.to_nat n) (drop (fd_pos fd) (content f))))), w).
Proof. intros E. unfold read_at_most. now rewrite E. Qed.

Section Facts.
Context `{Layout} `{Crc}.

Lemma buffer_size_pos : (0 < Z.to_nat buffer_size)%nat.
Proof. unfold buffer_size. lia. Qed.

(** The first pass reads the source to its end and leaves the checksum of
    what it read. *)
Lemma crc_pass_ok fuel : ∀ path pos crc w f,
  files w !! path = Some f →
  (length (drop pos (content f)) < fuel)%nat →
  ∃ pos', crc_pass fuel (mk_fd path pos) crc w =
    (Ok (mk_fd path pos', update_crc crc (drop pos (content f))), w).
Proof.
  induction fuel as [|fuel IH]; intros path pos crc w f Hf Hfuel; [lia|].
  cbn [crc_pass].
  erewrite bind_ok by (apply read_at_most_ok; exact Hf).
  cbn [fd_path fd_pos]. pose proof buffer_size_pos as HB.
  set (B := Z.to_nat buffer_size) in *.
  destruct (take B (drop pos (content f))) as [|b piece] eqn:Hpiece.
  - exists (pos + 0)%nat. unfold ret. repeat f_equal.
    destruct (drop pos (content f)); [now rewrite update_crc_nil | discriminate].
  - rewrite <- Hpiece.
    set (n := length (take B (drop pos (content f)))).
    assert (Hn : (0 < n)%nat) by (subst n; rewrite Hpiece; simpl; lia).
    assert (Hd : drop (pos + n) (content f) = drop B (drop pos (content f))).
    { rewrite drop_drop. subst n. rewrite length_take.
      destruct (decide (B ≤ length (drop pos (content f)))%nat) as [Hle|Hgt].
      - f_equal. lia.
      - rewrite Nat.min_r by lia. rewrite length_drop.
        rewrite !drop_ge; [done| |]; rewrite length_drop in Hgt; lia. }
    destruct (IH path (pos + n)%nat (update_crc crc (take B (drop pos (content f)))) w f Hf)
      as [pos' E].
    { rewrite Hd, length_drop. subst n. rewrite length_take in Hn. lia. }
    exists pos'. rewrite E. rewrite Hd, update_crc_app, take_drop. reflexivity.
Qed.


(** [open_shard] reads the file system and leaves it as it is. *)
Lemma open_shard_probe path w :
  open_shard path w = (probe path (files w !! c_str path), w).
Proof.
  unfold open_shard, probe, nested, bind, open_ro.
  destruct (files w !! c_str path) as [f|] eqn:Hf; [|reflexivity].
  unfold get_size_and_mode. cbn [fd_path]. rewrite Hf.
  destruct (decide (Z.of_nat (length (content f)) < header_size)) as [Hs|Hs];
    [reflexivity|].
  unfold read_exactly. cbn [fd_path fd_pos]. rewrite Hf, drop_0.
  assert (Hl : length (take (Z.to_nat header_size) (content f)) = Z.to_nat header_size).
  { rewrite length_take. unfold header_size in *. lia. }
  rewrite decide_True by exact Hl.
  assert (Hh : Z.to_nat header_size = header_len) by apply Nat2Z.id.
  rewrite Hl, Hh. cbn [Nat.add].
  destruct (decide _); reflexivity.
Qed.

Lemma open_shard_world path w r w' : open_shard path w = (r, w') → w' = w.
Proof. rewrite open_shard_probe. congruence. Qed.

End Facts.

Section SplitGuards.
Context `{Layout} `{Crc}.

(** The part of [split] before the shard loop: the source is opened, sized
    and read through once. *)
Lemma split_prologue fuel file_name max_shard_size w f :
  files w !! c_str file_name = Some f →
  (length (content f) < fuel)%nat →
  ∃ inp,
    fd_path inp = c_str file_name ∧
    split fuel file_name max_shard_size w =
      (let in_size := Z.of_nat (length (content f)) in
       let crc := update_crc 0 (content f) in
       if decide (max_shard_size = 0) then throw DivideByZero
       else
         let big_shard_count := u64 (in_size + max_shard_size - 1) / max_shard_size in
         if decide (big_shard_count > 65535) then throw BigFile
         else
           let name := base_name file_name in
           if decide (Z.of_nat name_capacity ≤ Z.of_nat (String.length name))
           then throw NameTooLong
           else
             shard_loop fuel file_name (mode f) max_shard_size
               (mk_fd (fd_path inp) 0)
               (mk_shard_hdr expected_magic 0 big_shard_count in_size crc 0 0
                  (name_field name))
               in_size 1) w.
Proof.
  intros Hf Hfuel.
  destruct (crc_pass_ok fuel (c_str file_name) 0 0 w f Hf) as [pos' Hpass].
  { now rewrite drop_0. }
  rewrite drop_0 in Hpass.
  exists (mk_fd (c_str file_name) pos'). split; [reflexivity|].
  unfold split.
  erewrite bind_ok by (eapply open_ro_ok; exact Hf). cbn beta iota.
  erewrite bind_ok by (apply get_size_and_mode_ok; exact Hf). cbn beta iota.
  erewrite bind_ok by exact Hpass. cbn beta iota.
  reflexivity.
Qed.

End SplitGuards.

Section Guards.
Context `{Layout} `{Crc}.

Lemma classify_count_or_name (b : bool) :
  classify (if b then BigFile else NameTooLong) = FormatError.
Proof. now destruct b. Qed.

(** C3 (amended): splitting an existing zero-byte source whose base name
    fits, with a limit of at least one byte, succeeds and leaves the world as
    it was: no shard file is created and nothing is written. *)
Theorem split_empty_source_no_shard fuel file_name max_shard_size w f :
  files w !! c_str file_name = Some f →
  content f = [] →
  0 < max_shard_size < 2 ^ 64 →
  (String.length (base_name file_name) < name_capacity)%nat →
  (0 < fuel)%nat →
  split fuel file_name max_shard_size w = (Ok tt, w).
Proof.
  intros Hf Hempty HM Hname Hfuel.
  destruct (split_prologue fuel file_name max_shard_size w f Hf) as (inp & _ & ->).
  { rewrite Hempty. simpl. lia. }
  rewrite Hempty. cbn [length]. change (Z.of_nat 0) with 0. cbn zeta.
  rewrite decide_False by lia.
  assert (Hcount : u64 (0 + max_shard_size - 1) / max_shard_size = 0).
  { unfold u64. rewrite Z.mod_small by lia. apply Z.div_small. lia. }
  rewrite Hcount.
  rewrite decide_False by lia.
  rewrite decide_False by lia.
  destruct fuel as [|fuel]; [lia|].
  cbn [shard_loop shard_count]. rewrite decide_False by lia. reflexivity.
Qed.


(** C8: when the first path opens as a shard and fewer paths are supplied
    than its header's [shard_count], [join] fails with the count-mismatch
    error, and the world is as it was before the call: the destination file
    has not been created and nothing has been written. *)
Theorem join_too_few_paths fuel first rest w fd master_shard_hdr w1 :
  open_shard first w = (Ok (fd, master_shard_hdr), w1) →
  Z.of_nat (length (first :: rest)) < shard_count master_shard_hdr →
  join fuel (first :: rest) w =
    (Err (WrongCount (Z.of_nat (length (first :: rest))) (shard_count master_shard_hdr)), w)
  ∧ classify (WrongCount (Z.of_nat (length (first :: rest))) (shard_count master_shard_hdr))
    = ConsistencyError.
Proof.
  intros Hopen Hlt.
  pose proof (open_shard_world _ _ _ _ Hopen) as ->.
  split; [|reflexivity].
  unfold join. erewrite bind_ok by exact Hopen. cbn beta iota.
  rewrite decide_True by lia. reflexivity.
Qed.

End Guards.

(** ** The copy of one payload *)

Lemma le_encode_length n z : length (le_encode n z) = n.
Proof. revert z. induction n as [|n IH]; intros z; simpl; [reflexivity|]. now rewrite IH. Qed.

Lemma file_eta g : mk_file (content g) (mode g) = g.
Proof. now destruct g. Qed.

Lemma overwrite_end data old : overwrite (length old) data old = old ++ data.
Proof.
  unfold overwrite. rewrite take_ge by lia. rewrite Nat.sub_diag. cbn [replicate app].
  rewrite drop_ge by lia. now rewrite app_nil_r.
Qed.

Lemma overwrite_front data old rest :
  length data = length old → overwrite 0 data (old ++ rest) = data ++ rest.
Proof.
  intros E. unfold overwrite. cbn [take Nat.sub replicate app Nat.add].
  rewrite E. now rewrite drop_app_length.
Qed.

Lemma write_exactly_ok fd data w g :
  files w !! fd_path fd = Some g →
  data ≠ [] →
  write_exactly fd data w =
    (Ok (mk_fd (fd_path fd) (fd_pos fd + length data)),
     mk_world
       (<[fd_path fd := mk_file (overwrite (fd_pos fd) data (content g)) (mode g)]> (files w))
       (log w ++ [EvWrite (fd_path fd) (fd_pos fd) data])).
Proof.
  intros Hg Hne. unfold write_exactly. rewrite Hg. destruct data; [done|reflexivity].
Qed.

Lemma piece_writes_fuel n : ∀ n' path pos data,
  (length data ≤ n)%nat → (length data ≤ n')%nat →
  piece_writes n path pos data = piece_writes n' path pos data.
Proof.
  pose proof buffer_size_pos as HB.
  induction n as [|n IH]; intros n' path pos data Hn Hn'.
  - destruct data; [|cbn [length] in Hn; lia]. now destruct n'.
  - destruct n' as [|n']; [destruct data; [reflexivity|cbn [length] in Hn'; lia]|].
    cbn [piece_writes]. destruct data as [|b data]; [reflexivity|].
    f_equal. apply IH; rewrite length_drop; cbn [length] in *; lia.
Qed.

Lemma payload_writes_nil path pos : payload_writes path pos [] = [].
Proof. reflexivity. Qed.

Lemma payload_writes_step path pos data :
  data ≠ [] →
  payload_writes path pos data =
    EvWrite path pos (take (Z.to_nat buffer_size) data)
      :: payload_writes path (pos + length (take (Z.to_nat buffer_size) data))
           (drop (Z.to_nat buffer_size) data).
Proof.
  pose proof buffer_size_pos as HB.
  intros Hne. unfold payload_writes. destruct data as [|b data]; [done|].
  cbn [length piece_writes]. f_equal.
  apply piece_writes_fuel; rewrite length_drop; cbn [length]; lia.
Qed.

Section Copy.
Context `{Layout} `{Crc}.

Lemma copy_payload_ok fuel : ∀ n ipath ipos opath crc w f g,
  files w !! ipath = Some f →
  files w !! opath = Some g →
  ipath ≠ opath →
  0 ≤ n < 2 ^ 64 →
  (Z.to_nat n ≤ length (drop ipos (content f)))%nat →
  (Z.to_nat n < fuel)%nat →
  let data := take (Z.to_nat n) (drop ipos (content f)) in
  copy_payload fuel (mk_fd ipath ipos) (mk_fd opath (length (content g))) crc n w =
    (Ok (mk_fd ipath (ipos + Z.to_nat n),
         mk_fd opath (length (content g) + Z.to_nat n),
         update_crc crc data),
     mk_world (<[opath := mk_file (content g ++ data) (mode g)]> (files w))
       (log w ++ payload_writes opath (length (content g)) data)).
Proof.
  pose proof buffer_size_pos as HB.
  induction fuel as [|fuel IH]; intros n ipath ipos opath crc w f g Hf Hg Hne Hn Havail Hfuel;
    [lia|].
  cbn zeta. cbn [copy_payload].
  destruct (decide (n = 0)) as [->|Hn0].
  - change (Z.to_nat 0) with 0%nat. cbn [take]. rewrite update_crc_nil, !Nat.add_0_r.
    rewrite payload_writes_nil, !app_nil_r, file_eta.
    rewrite insert_id by exact Hg. unfold ret. now destruct w.
  - erewrite bind_ok by (apply read_at_most_ok; exact Hf). cbn beta iota.
    cbn [fd_path fd_pos].
    set (rest := drop ipos (content f)) in *.
    set (B := Z.to_nat buffer_size) in *.
    assert (HBz : buffer_size = Z.of_nat B) by (subst B; unfold buffer_size; lia).
    set (piece := take (Z.to_nat (Z.min buffer_size n)) rest).
    assert (Hpl : length piece = Z.to_nat (Z.min buffer_size n)).
    { subst piece. rewrite length_take. lia. }
    assert (Hpne : piece ≠ []).
    { intros E. rewrite E in Hpl. cbn [length] in Hpl. lia. }
    erewrite bind_ok by (apply write_exactly_ok; [exact Hg|exact Hpne]). cbn beta iota.
    cbn [fd_path fd_pos]. rewrite overwrite_end.
    set (w1 := mk_world _ _).
    set (g1 := mk_file (content g ++ piece) (mode g)).
    assert (Hu : u64 (n - Z.of_nat (length piece)) = n - Z.of_nat (length piece)).
    { unfold u64. apply Z.mod_small. lia. }
    rewrite Hu.
    assert (Hlen1 : (length (content g) + length piece)%nat = length (content g1)).
    { subst g1. cbn [content]. now rewrite length_app. }
    rewrite Hlen1.
    rewrite (IH (n - Z.of_nat (length piece)) ipath (ipos + length piece)%nat opath
               (update_crc crc piece) w1 f g1).
    + assert (Hd : drop (ipos + length piece) (content f) = drop (length piece) rest).
      { subst rest. now rewrite drop_drop. }
      rewrite Hd.
      assert (Ht : take (Z.to_nat n) rest
                   = piece ++ take (Z.to_nat (n - Z.of_nat (length piece))) (drop (length piece) rest)).
      { rewrite <- (take_drop (length piece) (take (Z.to_nat n) rest)).
        f_equal.
        - rewrite take_take. subst piece. f_equal. lia.
        - rewrite take_drop_commute. do 2 f_equal. lia. }
      rewrite Ht. rewrite update_crc_app.
      assert (E1 : (ipos + length piece + Z.to_nat (n - Z.of_nat (length piece)))%nat
                   = (ipos + Z.to_nat n)%nat) by lia.
      assert (E2 : (length (content g1) + Z.to_nat (n - Z.of_nat (length piece)))%nat
                   = (length (content g) + Z.to_nat n)%nat) by (rewrite <- Hlen1; lia).
      rewrite E1, E2. f_equal.
      subst w1 g1. cbn [files log content mode].
        rewrite insert_insert_eq. rewrite <- app_assoc. f_equal.
        rewrite <- (app_assoc (log w)). f_equal.
        rewrite (payload_writes_step opath (length (content g)) (piece ++ _)).
        2: { intros E. apply app_eq_nil in E as [E _]. exact (Hpne E). }
        assert (Hpb : (length piece ≤ B)%nat) by lia.
        assert (Htk : take B (piece ++ take (Z.to_nat (n - Z.of_nat (length piece)))
                                  (drop (length piece) rest)) = piece).
        { destruct (decide (length piece = B)) as [E|E].
          - rewrite <- E. now rewrite take_app_length.
          - assert (Hz : Z.to_nat (n - Z.of_nat (length piece)) = 0%nat) by lia.
            rewrite Hz. cbn [take]. rewrite app_nil_r. apply take_ge. lia. }
        assert (Hdk : drop B (piece ++ take (Z.to_nat (n - Z.of_nat (length piece)))
                                  (drop (length piece) rest))
                      = take (Z.to_nat (n - Z.of_nat (length piece))) (drop (length piece) rest)).
        { destruct (decide (length piece = B)) as [E|E].
          - rewrite <- E. now rewrite drop_app_length.
          - assert (Hz : Z.to_nat (n - Z.of_nat (length piece)) = 0%nat) by lia.
            rewrite Hz. cbn [take]. rewrite app_nil_r. apply drop_ge. lia. }
        change (Z.to_nat buffer_size) with B.
        rewrite Htk, Hdk. cbn [app]. rewrite length_app. reflexivity.
    + subst w1. cbn [files]. now rewrite lookup_insert_ne.
    + subst w1. cbn [files]. now rewrite lookup_insert_eq.
    + exact Hne.
    + lia.
    + subst rest. rewrite !length_drop in *. lia.
    + lia.
Qed.

End Copy.

(** ** One shard, and the loop over the shards *)

Lemma c_str_app s t : nul_free s → c_str (s +:+ t) = s +:+ c_str t.
Proof.
  unfold nul_free. induction s as [|c s IH]; intros Hs; [reflexivity|].
  change (String c s +:+ t) with (String c (s +:+ t)).
  cbn [c_str] in *. destruct (Ascii.eqb c "000"); [discriminate|].
  injection Hs as Hs. now rewrite IH.
Qed.

Lemma string_app_nil_inv (s t : string) : s +:+ t = s → t = "".
Proof.
  intros E. apply (String.app_inj s).
  rewrite E. clear E. induction s as [|c s IH]; [reflexivity|].
  change (String c s +:+ "") with (String c (s +:+ "")). now f_equal.
Qed.

Lemma shard_path_unfold file_name idx count :
  nul_free file_name →
  shard_path file_name idx count =
    file_name +:+ String "@" (c_str (pretty (Z.to_N idx) +:+ "." +:+ pretty (Z.to_N count))).
Proof.
  intros Hn. unfold shard_path, make_shard_name. rewrite c_str_app by exact Hn.
  reflexivity.
Qed.

Lemma shard_path_not_source file_name idx count :
  nul_free file_name → shard_path file_name idx count ≠ c_str file_name.
Proof.
  intros Hn E. rewrite shard_path_unfold, Hn in E by exact Hn.
  apply string_app_nil_inv in E. discriminate.
Qed.

Lemma shard_path_not_empty file_name idx count :
  nul_free file_name → shard_path file_name idx count ≠ "".
Proof.
  intros Hn E. rewrite shard_path_unfold in E by exact Hn.
  destruct file_name; discriminate.
Qed.

Lemma c_str_idemp s : c_str (c_str s) = c_str s.
Proof.
  induction s as [|c s IH]; [reflexivity|]. cbn.
  destruct (Ascii.eqb c "000") eqn:E; [reflexivity|]. cbn. now rewrite E, IH.
Qed.

Lemma open_rw_ok path m w :
  c_str path ≠ "" →
  open_rw path m w =
    (Ok (mk_fd (c_str path) 0),
     mk_world
       (<[c_str path := mk_file [] (match files w !! c_str path with
                                    | Some g => mode g
                                    | None => m
                                    end)]> (files w))
       (log w ++ [EvCreate (c_str path) m])).
Proof.
  intros Hne. unfold open_rw. rewrite decide_False by exact Hne.
  destruct (files w !! c_str path); reflexivity.
Qed.

Lemma bind_ret {A B} (a : A) (k : A → io B) w : bind (ret a) k w = k a w.
Proof. reflexivity. Qed.

Section Shards.
Context `{Layout} `{Crc}.

Lemma encode_hdr_length h : length (encode_hdr h) = header_len.
Proof.
  unfold encode_hdr, header_len.
  rewrite !length_app, !le_encode_length, !length_replicate, length_take, length_app,
    length_replicate.
  unfold name_capacity. lia.
Qed.

Lemma header_len_pos : (0 < header_len)%nat.
Proof. unfold header_len. lia. Qed.

Lemma encode_hdr_not_nil h : encode_hdr h ≠ [].
Proof.
  intros E. pose proof (encode_hdr_length h) as L. rewrite E in L.
  pose proof header_len_pos. cbn [length] in L. lia.
Qed.

Lemma take_payload (cap : nat) (rest : list byte) :
  take (length (take cap rest)) rest = take cap rest.
Proof.
  rewrite length_take. destruct (decide (cap ≤ length rest)%nat).
  - f_equal. lia.
  - rewrite Nat.min_r by lia. rewrite !take_ge; [reflexivity|lia|lia].
Qed.

Lemma write_shard_ok fuel file_name m max_shard_size pos hdr in_size idx w f :
  nul_free file_name →
  files w !! c_str file_name = Some f →
  in_size = Z.of_nat (length (drop pos (content f))) →
  in_size < 2 ^ 64 →
  let p := take (Z.to_nat (u64 (max_shard_size - header_size))) (drop pos (content f)) in
  (length p < fuel)%nat →
  write_shard fuel file_name m max_shard_size (mk_fd (c_str file_name) pos) hdr in_size idx w =
    (Ok (mk_fd (c_str file_name) (pos + length p), final_hdr hdr idx p,
         in_size - Z.of_nat (length p)),
     shard_written file_name m hdr idx p w).
Proof.
  intros Hnul Hf Hsize Hlt p Hfuel.
  set (rest := drop pos (content f)) in *.
  set (cap := u64 (max_shard_size - header_size)) in *.
  assert (Hcap : 0 ≤ cap < 2 ^ 64) by (subst cap; unfold u64; apply Z.mod_pos_bound; lia).
  set (path := shard_path file_name idx (shard_count hdr)).
  assert (Hps : path ≠ c_str file_name) by (apply shard_path_not_source; exact Hnul).
  assert (Hpe : path ≠ "") by (apply shard_path_not_empty; exact Hnul).
  assert (Hmin : Z.to_nat (Z.min cap in_size) = length p).
  { subst p. rewrite length_take. lia. }
  assert (Hminz : Z.min cap in_size = Z.of_nat (length p)) by lia.
  unfold write_shard.
  rewrite (bind_ok _ _ _ _ _ (open_rw_ok _ m w Hpe)). cbn beta.
  change (c_str (make_shard_name file_name idx (shard_count hdr))) with path.
  fold cap. rewrite Hminz.
  set (md := match files w !! path with Some g => mode g | None => m end).
  set (w1 := mk_world _ _).
  fold (first_hdr hdr idx p).
  rewrite (bind_ok _ _ _ _ _
             (write_exactly_ok (mk_fd path 0) (encode_hdr (first_hdr hdr idx p)) w1
                (mk_file [] md) (lookup_insert_eq _ _ _) (encode_hdr_not_nil _))).
  cbn beta. cbn [fd_path fd_pos content mode].
  change (overwrite 0 (encode_hdr (first_hdr hdr idx p)) [])
    with (overwrite (length (@nil byte)) (encode_hdr (first_hdr hdr idx p)) []).
  rewrite overwrite_end. cbn [app Nat.add].
  set (g2 := mk_file (encode_hdr (first_hdr hdr idx p)) md).
  set (w2 := mk_world _ _).
  assert (Hpos : length (encode_hdr (first_hdr hdr idx p)) = length (content g2)) by reflexivity.
  rewrite Hpos.
  assert (Hu : u64 (in_size - Z.of_nat (length p)) = in_size - Z.of_nat (length p)).
  { unfold u64. apply Z.mod_small. lia. }
  rewrite Hu.
  assert (Htp : take (length p) rest = p) by (subst p; apply take_payload).
  assert (Hf2 : files w2 !! c_str file_name = Some f).
  { subst w2 w1. cbn [files]. rewrite !lookup_insert_ne by exact Hps. exact Hf. }
  assert (Hg2 : files w2 !! path = Some g2).
  { subst w2. cbn [files]. apply lookup_insert_eq. }
  assert (Hne : c_str file_name ≠ path) by congruence.
  assert (Hrange : 0 ≤ Z.of_nat (length p) < 2 ^ 64) by lia.
  assert (Havail : (Z.to_nat (Z.of_nat (length p)) ≤ length (drop pos (content f)))%nat).
  { fold rest. rewrite Nat2Z.id, <- Htp, length_take. lia. }
  assert (Hfuel' : (Z.to_nat (Z.of_nat (length p)) < fuel)%nat) by (rewrite Nat2Z.id; exact Hfuel).
  pose proof (copy_payload_ok fuel (Z.of_nat (length p)) (c_str file_name) pos path 0 w2 f g2
                Hf2 Hg2 Hne Hrange Havail Hfuel') as Hcopy.
  cbn zeta in Hcopy. rewrite Nat2Z.id in Hcopy. fold rest in Hcopy. rewrite Htp in Hcopy.
  rewrite (bind_ok _ _ _ _ _ Hcopy); clear Hcopy.
  cbn beta iota. unfold seek. rewrite bind_ret.
  change (Z.to_nat 0) with 0%nat.
  set (w3 := mk_world _ _).
  fold (final_hdr hdr idx p).
  rewrite (bind_ok _ _ _ _ _
             (write_exactly_ok (mk_fd path 0) (encode_hdr (final_hdr hdr idx p)) w3
                (mk_file (content g2 ++ p) (mode g2)) (lookup_insert_eq _ _ _)
                (encode_hdr_not_nil _))).
  cbn beta. cbn [fd_path fd_pos content mode]. subst g2. cbn [content mode].
  rewrite overwrite_front by (now rewrite !encode_hdr_length).
  unfold ret, shard_written, shard_events. fold path. fold md. f_equal.
  subst w3 w2 w1. cbn [files log]. rewrite !insert_insert_eq.
  cbn [content]. rewrite encode_hdr_length. f_equal.
  now rewrite <- !app_assoc.
Qed.

Lemma drop_payload (cap : nat) (rest : list byte) :
  drop (length (take cap rest)) rest = drop cap rest.
Proof.
  rewrite length_take. destruct (decide (cap ≤ length rest)%nat).
  - f_equal. lia.
  - rewrite Nat.min_r by lia. rewrite !drop_ge; [reflexivity|lia|lia].
Qed.

Lemma final_hdr_count hdr idx p : shard_count (final_hdr hdr idx p) = shard_count hdr.
Proof. reflexivity. Qed.

Lemma shard_written_source file_name m hdr idx p w :
  nul_free file_name →
  files (shard_written file_name m hdr idx p w) !! c_str file_name
  = files w !! c_str file_name.
Proof.
  intros Hn. unfold shard_written. cbn [files].
  apply lookup_insert_ne. now apply shard_path_not_source.
Qed.

Lemma shard_loop_ok file_name m max_shard_size f (k : nat) :
  ∀ fuel pos hdr in_size idx w,
  nul_free file_name →
  files w !! c_str file_name = Some f →
  in_size = Z.of_nat (length (drop pos (content f))) →
  in_size < 2 ^ 64 →
  idx + Z.of_nat k = shard_count hdr + 1 →
  shard_count hdr < 65535 →
  0 ≤ idx →
  (length (drop pos (content f)) + k < fuel)%nat →
  shard_loop fuel file_name m max_shard_size (mk_fd (c_str file_name) pos) hdr in_size idx w =
    (Ok tt,
     shards_written file_name m hdr idx
       (payloads k (Z.to_nat (u64 (max_shard_size - header_size))) (drop pos (content f))) w).
Proof.
  induction k as [|k IH]; intros fuel pos hdr in_size idx w Hnul Hf Hsize Hlt Hidx Hcount Hpos Hfuel.
  - destruct fuel as [|fuel]; [lia|]. cbn [shard_loop payloads shards_written].
    rewrite decide_False by lia. reflexivity.
  - destruct fuel as [|fuel]; [lia|]. cbn [shard_loop payloads shards_written].
    rewrite decide_True by lia.
    set (cap := Z.to_nat (u64 (max_shard_size - header_size))).
    set (rest := drop pos (content f)) in *.
    assert (Hpl : (length (take cap rest) ≤ length rest)%nat) by (rewrite length_take; lia).
    erewrite bind_ok.
    2: { apply write_shard_ok; [exact Hnul|exact Hf|exact Hsize|exact Hlt|].
         fold rest cap. lia. }
    cbn beta iota. fold rest cap.
    assert (Hu : u16 (idx + 1) = idx + 1) by (unfold u16; apply Z.mod_small; lia).
    rewrite Hu.
    assert (Hd : drop (pos + length (take cap rest)) (content f) = drop cap rest).
    { subst rest. rewrite <- drop_drop. apply drop_payload. }
    rewrite <- Hd.
    apply IH.
    + exact Hnul.
    + rewrite shard_written_source by exact Hnul. exact Hf.
    + rewrite Hd, length_drop. subst in_size. rewrite length_take. lia.
    + lia.
    + rewrite final_hdr_count. lia.
    + rewrite final_hdr_count. exact Hcount.
    + lia.
    + rewrite Hd, length_drop. lia.
Qed.

End Shards.

(** ** The names of the shards are distinct *)

Lemma pretty_N_char_plain x :
  pretty_N_char x ≠ "000"%char ∧ pretty_N_char x ≠ "."%char.
Proof. unfold pretty_N_char. repeat case_match; split; discriminate. Qed.

Lemma pretty_N_go_plain x : ∀ s, plain s → plain (pretty_N_go x s).
Proof.
  induction (N.lt_wf_0 x) as [x _ IH]. intros s Hs.
  destruct (decide (x = 0)%N) as [->|Hx]; [exact Hs|].
  rewrite pretty_N_go_step by lia. apply IH.
  - apply N.div_lt; lia.
  - destruct (pretty_N_char_plain (x `mod` 10)) as [Ha Hb]. cbn. auto.
Qed.

Lemma pretty_N_plain (x : N) : plain (pretty x).
Proof.
  unfold pretty, pretty_N. destruct (decide (x = 0)%N).
  - cbn. repeat split; discriminate.
  - apply pretty_N_go_plain. exact I.
Qed.

Lemma c_str_plain d t : plain d → c_str (d +:+ t) = d +:+ c_str t.
Proof.
  induction d as [|c d IH]; intros Hd; [reflexivity|].
  destruct Hd as (Hc & _ & Hd).
  change (String c d +:+ t) with (String c (d +:+ t)).
  change (String c d +:+ c_str t) with (String c (d +:+ c_str t)).
  cbn [c_str]. destruct (Ascii.eqb_spec c "000"); [done|]. now rewrite IH.
Qed.

Lemma plain_nul_free d : plain d → nul_free d.
Proof.
  intros Hd. unfold nul_free. induction d as [|c d IH]; [reflexivity|].
  destruct Hd as (Hc & _ & Hd). cbn [c_str].
  destruct (Ascii.eqb_spec c "000"); [done|]. now rewrite IH.
Qed.

Lemma plain_dot_inj d1 : ∀ d2 t1 t2,
  plain d1 → plain d2 → d1 +:+ String "." t1 = d2 +:+ String "." t2 → d1 = d2.
Proof.
  induction d1 as [|c1 d1 IH]; intros [|c2 d2] t1 t2 H1 H2 E.
  - reflexivity.
  - change (String "." t1 = String c2 (d2 +:+ String "." t2)) in E.
    injection E as E _. destruct H2 as (_ & H2 & _). congruence.
  - change (String c1 (d1 +:+ String "." t1) = String "." t2) in E.
    injection E as E _. destruct H1 as (_ & H1 & _). congruence.
  - change (String c1 (d1 +:+ String "." t1) = String c2 (d2 +:+ String "." t2)) in E.
    injection E as Ec E. destruct H1 as (_ & _ & H1), H2 as (_ & _ & H2).
    f_equal; [exact Ec|]. eapply IH; eauto.
Qed.

Lemma shard_path_make file_name idx count :
  nul_free file_name →
  shard_path file_name idx count = make_shard_name file_name idx count.
Proof.
  intros Hn. unfold shard_path, make_shard_name.
  rewrite c_str_app by exact Hn. f_equal.
  change ("@" +:+ pretty (Z.to_N idx) +:+ "." +:+ pretty (Z.to_N count))
    with (String "@" (pretty (Z.to_N idx) +:+ "." +:+ pretty (Z.to_N count))).
  cbn [c_str]. change (Ascii.eqb "@" "000") with false. cbn iota. f_equal.
  rewrite c_str_plain by apply pretty_N_plain. f_equal.
  change ("." +:+ pretty (Z.to_N count)) with (String "." (pretty (Z.to_N count))).
  cbn [c_str]. change (Ascii.eqb "." "000") with false. cbn iota. f_equal.
  apply plain_nul_free, pretty_N_plain.
Qed.

Lemma shard_path_inj file_name i j count :
  nul_free file_name → 0 ≤ i → 0 ≤ j →
  shard_path file_name i count = shard_path file_name j count → i = j.
Proof.
  intros Hn Hi Hj E. rewrite !shard_path_make in E by exact Hn.
  unfold make_shard_name in E. apply (inj (String.app file_name)) in E.
  change (String "@" (pretty (Z.to_N i) +:+ String "." (pretty (Z.to_N count)))
          = String "@" (pretty (Z.to_N j) +:+ String "." (pretty (Z.to_N count)))) in E.
  injection E as E.
  apply plain_dot_inj in E; [|apply pretty_N_plain..].
  apply (inj pretty) in E. lia.
Qed.

(** ** What the shard loop leaves behind *)

Lemma created_app l1 l2 : created (l1 ++ l2) = created l1 ++ created l2.
Proof. apply omap_app. Qed.

Lemma writes_at_app path off l1 l2 :
  writes_at path off (l1 ++ l2) = writes_at path off l1 ++ writes_at path off l2.
Proof. apply omap_app. Qed.

Lemma writes_at_write q off path pos data l :
  writes_at q off (EvWrite path pos data :: l) =
    if decide (path = q ∧ pos = off) then data :: writes_at q off l else writes_at q off l.
Proof.
  unfold writes_at. cbn [omap list_omap].
  destruct (decide (path = q ∧ pos = off)); reflexivity.
Qed.

Lemma writes_at_create q off path m l :
  writes_at q off (EvCreate path m :: l) = writes_at q off l.
Proof. reflexivity. Qed.

Lemma created_piece_writes n : ∀ path pos data, created (piece_writes n path pos data) = [].
Proof.
  induction n as [|n IH]; intros path pos data; [reflexivity|].
  cbn [piece_writes]. destruct data; [reflexivity|]. cbn. apply IH.
Qed.

Lemma writes_at_piece_writes q n : ∀ path pos data,
  (0 < pos)%nat → writes_at q 0 (piece_writes n path pos data) = [].
Proof.
  induction n as [|n IH]; intros path pos data Hpos; [reflexivity|].
  cbn [piece_writes]. destruct data as [|b data]; [reflexivity|].
  rewrite writes_at_write, decide_False by lia.
  apply IH. lia.
Qed.

Lemma payloads_length k : ∀ cap data, length (payloads k cap data) = k.
Proof. induction k as [|k IH]; intros; cbn; [reflexivity|]. now rewrite IH. Qed.

Lemma payloads_lookup k : ∀ cap data j,
  (j < k)%nat → payloads k cap data !! j = Some (take cap (drop (j * cap) data)).
Proof.
  induction k as [|k IH]; intros cap data j Hj; [lia|].
  destruct j as [|j]; cbn [payloads lookup list_lookup].
  - reflexivity.
  - rewrite IH by lia. rewrite drop_drop. reflexivity.
Qed.

Section Left.
Context `{Layout} `{Crc}.

Lemma first_hdr_stale hdr idx p :
  first_hdr hdr idx p = set_shard_crc (final_hdr hdr idx p) (shard_crc hdr).
Proof. reflexivity. Qed.

Lemma created_shard_events file_name m hdr idx p :
  created (shard_events file_name m hdr idx p) = [shard_path file_name idx (shard_count hdr)].
Proof.
  unfold shard_events. cbn zeta. rewrite !created_app.
  unfold payload_writes. rewrite created_piece_writes. reflexivity.
Qed.

Lemma writes_at_shard_events q file_name m hdr idx p :
  writes_at q 0 (shard_events file_name m hdr idx p) =
    if decide (shard_path file_name idx (shard_count hdr) = q)
    then [encode_hdr (first_hdr hdr idx p); encode_hdr (final_hdr hdr idx p)]
    else [].
Proof.
  unfold shard_events. cbn zeta. rewrite !writes_at_app.
  unfold payload_writes. rewrite writes_at_piece_writes by apply header_len_pos.
  cbn [app]. rewrite writes_at_create, !writes_at_write.
  destruct (decide (shard_path file_name idx (shard_count hdr) = q)) as [E|E].
  - rewrite !decide_True by (split; [exact E|reflexivity]). reflexivity.
  - rewrite !decide_False by (intros [? _]; contradiction). reflexivity.
Qed.

Lemma shards_written_log file_name m ps : ∀ hdr idx w,
  log (shards_written file_name m hdr idx ps w)
  = log w ++ shards_events file_name m hdr idx ps.
Proof.
  induction ps as [|p ps IH]; intros hdr idx w; cbn [shards_written shards_events].
  - now rewrite app_nil_r.
  - rewrite IH. unfold shard_written. cbn [log]. now rewrite app_assoc.
Qed.

Lemma created_shards_events file_name m ps : ∀ hdr idx,
  created (shards_events file_name m hdr idx ps)
  = (λ i, shard_path file_name i (shard_count hdr)) <$> seqZ idx (Z.of_nat (length ps)).
Proof.
  induction ps as [|p ps IH]; intros hdr idx; cbn [shards_events length]; [reflexivity|].
  rewrite created_app, created_shard_events, IH.
  rewrite (seqZ_cons idx) by lia. cbn [fmap list_fmap app].
  replace (Z.succ idx) with (idx + 1) by lia.
  replace (Z.pred (Z.of_nat (S (length ps)))) with (Z.of_nat (length ps)) by lia.
  reflexivity.
Qed.

(** A path that is none of the shards' is left alone. *)
Lemma shards_events_other q file_name m ps : ∀ hdr idx,
  (∀ j, (j < length ps)%nat → shard_path file_name (idx + Z.of_nat j) (shard_count hdr) ≠ q) →
  writes_at q 0 (shards_events file_name m hdr idx ps) = [].
Proof.
  induction ps as [|p ps IH]; intros hdr idx Hq; cbn [shards_events]; [reflexivity|].
  rewrite writes_at_app, writes_at_shard_events.
  rewrite decide_False.
  2: { specialize (Hq 0%nat). rewrite Z.add_0_r in Hq. apply Hq. cbn. lia. }
  apply IH. intros j Hj. specialize (Hq (S j)).
  replace (idx + 1 + Z.of_nat j) with (idx + Z.of_nat (S j)) by lia.
  apply Hq. cbn. lia.
Qed.

Lemma shards_written_other q file_name m ps : ∀ hdr idx w,
  (∀ j, (j < length ps)%nat → shard_path file_name (idx + Z.of_nat j) (shard_count hdr) ≠ q) →
  files (shards_written file_name m hdr idx ps w) !! q = files w !! q.
Proof.
  induction ps as [|p ps IH]; intros hdr idx w Hq; cbn [shards_written]; [reflexivity|].
  rewrite IH.
  - unfold shard_written. cbn [files]. apply lookup_insert_ne.
    specialize (Hq 0%nat). rewrite Z.add_0_r in Hq. apply Hq. cbn. lia.
  - intros j Hj. specialize (Hq (S j)).
    replace (idx + 1 + Z.of_nat j) with (idx + Z.of_nat (S j)) by lia.
    apply Hq. cbn. lia.
Qed.

Lemma shards_events_header_writes file_name m ps : ∀ hdr idx j p,
  nul_free file_name → 0 ≤ idx →
  ps !! j = Some p →
  writes_at (shard_path file_name (idx + Z.of_nat j) (shard_count hdr)) 0
    (shards_events file_name m hdr idx ps)
  = [encode_hdr (set_shard_crc (final_hdr hdr (idx + Z.of_nat j) p) (stale_crc hdr ps j));
     encode_hdr (final_hdr hdr (idx + Z.of_nat j) p)].
Proof.
  induction ps as [|p0 ps IH]; intros hdr idx j p Hnul Hidx Hj; [discriminate|].
  cbn [shards_events]. rewrite writes_at_app, writes_at_shard_events.
  destruct j as [|j].
  - injection Hj as ->. rewrite Z.add_0_r. rewrite decide_True by reflexivity.
    rewrite shards_events_other.
    + reflexivity.
    + intros j Hj E. apply shard_path_inj in E; [lia|exact Hnul|lia|lia].
  - cbn [lookup list_lookup] in Hj.
    rewrite decide_False.
    2: { intros E. apply shard_path_inj in E; [lia|exact Hnul|lia|lia]. }
    cbn [app].
    replace (idx + Z.of_nat (S j)) with (idx + 1 + Z.of_nat j) by lia.
    rewrite (IH (final_hdr hdr idx p0) (idx + 1) j p Hnul) by (lia || exact Hj).
    destruct j; reflexivity.
Qed.

Lemma shards_written_file file_name m ps : ∀ hdr idx w j p,
  nul_free file_name → 0 ≤ idx →
  ps !! j = Some p →
  ∃ md,
    files (shards_written file_name m hdr idx ps w)
      !! shard_path file_name (idx + Z.of_nat j) (shard_count hdr)
    = Some (mk_file (encode_hdr (final_hdr hdr (idx + Z.of_nat j) p) ++ p) md).
Proof.
  induction ps as [|p0 ps IH]; intros hdr idx w j p Hnul Hidx Hj; [discriminate|].
  cbn [shards_written]. destruct j as [|j].
  - injection Hj as ->. rewrite Z.add_0_r.
    rewrite shards_written_other.
    + unfold shard_written. cbn [files]. rewrite lookup_insert_eq. eauto.
    + intros j Hj E. apply shard_path_inj in E; [lia|exact Hnul|lia|lia].
  - cbn [lookup list_lookup] in Hj.
    replace (idx + Z.of_nat (S j)) with (idx + 1 + Z.of_nat j) by lia.
    apply (IH (final_hdr hdr idx p0) (idx + 1) _ j p Hnul); [lia|exact Hj].
Qed.

End Left.

Lemma piece_writes_path n : ∀ path pos data,
  Forall (λ e, event_path e = path) (piece_writes n path pos data).
Proof.
  induction n as [|n IH]; intros path pos data; cbn [piece_writes]; [constructor|].
  destruct data; [constructor|]. constructor; [reflexivity|apply IH].
Qed.

Section Blocks.
Context `{Layout} `{Crc}.

Lemma shard_events_path file_name m hdr idx p :
  Forall (λ e, event_path e = shard_path file_name idx (shard_count hdr))
    (shard_events file_name m hdr idx p).
Proof.
  unfold shard_events. cbn zeta. repeat (apply Forall_app; split).
  - repeat constructor.
  - apply piece_writes_path.
  - repeat constructor.
Qed.

Lemma shards_events_paths file_name m ps : ∀ hdr idx,
  Forall (λ e, ∃ j, (j < length ps)%nat
                    ∧ event_path e = shard_path file_name (idx + Z.of_nat j) (shard_count hdr))
    (shards_events file_name m hdr idx ps).
Proof.
  induction ps as [|p ps IH]; intros hdr idx; cbn [shards_events]; [constructor|].
  apply Forall_app. split.
  - eapply Forall_impl; [apply shard_events_path|]. cbn beta. intros e He.
    exists 0%nat. cbn [length]. rewrite Z.add_0_r. split; [lia|exact He].
  - eapply Forall_impl; [apply IH|]. cbn beta. intros e (j & Hj & He).
    exists (S j). cbn [length]. split; [lia|].
    rewrite He. rewrite final_hdr_count. f_equal. lia.
Qed.

(** The events of one shard stand together in the log: the creation of the
    file, the header, the pieces of the payload, the header again. *)
Lemma shards_events_block file_name m ps : ∀ hdr idx j p,
  nul_free file_name → 0 ≤ idx → ps !! j = Some p →
  let path := shard_path file_name (idx + Z.of_nat j) (shard_count hdr) in
  ∃ before after,
    shards_events file_name m hdr idx ps
    = before
      ++ [EvCreate path m;
          EvWrite path 0 (encode_hdr (set_shard_crc (final_hdr hdr (idx + Z.of_nat j) p)
                                        (stale_crc hdr ps j)))]
      ++ payload_writes path header_len p
      ++ [EvWrite path 0 (encode_hdr (final_hdr hdr (idx + Z.of_nat j) p))]
      ++ after
    ∧ Forall (λ e, event_path e ≠ path) before
    ∧ Forall (λ e, event_path e ≠ path) after.
Proof.
  induction ps as [|p0 ps IH]; intros hdr idx j p Hnul Hidx Hj; [discriminate|].
  cbn zeta. cbn [shards_events]. destruct j as [|j].
  - injection Hj as ->. rewrite Z.add_0_r.
    exists [], (shards_events file_name m (final_hdr hdr idx p) (idx + 1) ps).
    split; [|split; [constructor|]].
    + cbn [app]. unfold shard_events. cbn zeta. cbn [app stale_crc].
      rewrite <- !app_assoc. reflexivity.
    + eapply Forall_impl; [apply shards_events_paths|]. cbn beta.
      intros e (k & _ & He) E. rewrite He, final_hdr_count in E.
      apply shard_path_inj in E; [lia|exact Hnul|lia|lia].
  - cbn [lookup list_lookup] in Hj.
    destruct (IH (final_hdr hdr idx p0) (idx + 1) j p Hnul ltac:(lia) Hj)
      as (before & after & E & Hb & Ha).
    cbn zeta in E, Hb, Ha. rewrite final_hdr_count in E, Hb, Ha.
    replace (idx + 1 + Z.of_nat j) with (idx + Z.of_nat (S j)) in E, Hb, Ha by lia.
    exists (shard_events file_name m hdr idx p0 ++ before), after.
    split; [|split; [|exact Ha]].
    + rewrite E, <- app_assoc. do 4 f_equal. destruct j; reflexivity.
    + apply Forall_app. split; [|exact Hb].
      eapply Forall_impl; [apply shard_events_path|]. cbn beta.
      intros e He Ee. rewrite He in Ee.
      apply shard_path_inj in Ee; [lia|exact Hnul|lia|lia].
Qed.
End Blocks.

(** ** The whole of [split] *)

Section SplitOk.
Context `{Layout} `{Crc}.

Lemma shard_total_nonneg in_size max_shard_size :
  0 < max_shard_size → 0 ≤ shard_total in_size max_shard_size.
Proof.
  intros HM. unfold shard_total, u64. apply Z.div_pos; [|exact HM].
  apply Z.mod_pos_bound. lia.
Qed.

Lemma split_ok fuel file_name max_shard_size w f :
  nul_free file_name →
  files w !! file_name = Some f →
  0 < max_shard_size →
  Z.of_nat (length (content f)) < 2 ^ 64 →
  shard_total (Z.of_nat (length (content f))) max_shard_size < 65535 →
  (String.length (base_name file_name) < name_capacity)%nat →
  (length (content f)
   + Z.to_nat (shard_total (Z.of_nat (length (content f))) max_shard_size) < fuel)%nat →
  split fuel file_name max_shard_size w =
    (Ok tt,
     shards_written file_name (mode f) (initial_hdr file_name max_shard_size (content f)) 1
       (payloads (Z.to_nat (shard_total (Z.of_nat (length (content f))) max_shard_size))
          (payload_cap max_shard_size) (content f))
       w).
Proof.
  intros Hnul Hf HM Hsize Hcount Hname Hfuel.
  pose proof (shard_total_nonneg (Z.of_nat (length (content f))) max_shard_size HM) as Hc0.
  assert (Hf' : files w !! c_str file_name = Some f) by (rewrite Hnul; exact Hf).
  destruct (split_prologue fuel file_name max_shard_size w f Hf') as (inp & Hinp & ->); [lia|].
  cbn zeta. fold (shard_total (Z.of_nat (length (content f))) max_shard_size).
  rewrite decide_False by lia.
  rewrite decide_False by lia.
  rewrite decide_False by lia.
  rewrite Hinp.
  rewrite (shard_loop_ok file_name (mode f) max_shard_size f
             (Z.to_nat (shard_total (Z.of_nat (length (content f))) max_shard_size))).
  - rewrite drop_0. reflexivity.
  - exact Hnul.
  - exact Hf'.
  - now rewrite drop_0.
  - exact Hsize.
  - cbn [shard_count]. lia.
  - exact Hcount.
  - lia.
  - rewrite drop_0. lia.
Qed.

(** What [split] leaves behind, shard by shard. *)
Lemma split_shards fuel file_name max_shard_size w f :
  let count := shard_total (Z.of_nat (length (content f))) max_shard_size in
  nul_free file_name →
  files w !! file_name = Some f →
  0 < max_shard_size →
  Z.of_nat (length (content f)) < 2 ^ 64 →
  count < 65535 →
  (String.length (base_name file_name) < name_capacity)%nat →
  (length (content f) + Z.to_nat count < fuel)%nat →
  ∃ w' evs,
    split fuel file_name max_shard_size w = (Ok tt, w') ∧
    log w' = log w ++ evs ∧
    created evs = (λ i, shard_path file_name i count) <$> seqZ 1 count ∧
    ∀ i, 1 ≤ i ≤ count →
      (∃ md, files w' !! shard_path file_name i count
             = Some (mk_file (encode_hdr (shard_hdr_of file_name max_shard_size (content f) i)
                              ++ shard_payload max_shard_size (content f) i) md)) ∧
      writes_at (shard_path file_name i count) 0 evs =
        [encode_hdr (set_shard_crc (shard_hdr_of file_name max_shard_size (content f) i)
                       (if decide (i = 1) then 0
                        else update_crc 0 (shard_payload max_shard_size (content f) (i - 1))));
         encode_hdr (shard_hdr_of file_name max_shard_size (content f) i)].
Proof.
  intros count Hnul Hf HM Hsize Hcount Hname Hfuel.
  pose proof (shard_total_nonneg (Z.of_nat (length (content f))) max_shard_size HM) as Hc0.
  fold count in Hc0.
  set (hdr0 := initial_hdr file_name max_shard_size (content f)).
  set (ps := payloads (Z.to_nat count) (payload_cap max_shard_size) (content f)).
  exists (shards_written file_name (mode f) hdr0 1 ps w),
         (shards_events file_name (mode f) hdr0 1 ps).
  assert (Hlen : length ps = Z.to_nat count) by apply payloads_length.
  assert (Hps : ∀ i, 1 ≤ i ≤ count →
            ps !! Z.to_nat (i - 1) = Some (shard_payload max_shard_size (content f) i)).
  { intros i Hi. subst ps. rewrite payloads_lookup by lia. reflexivity. }
  split; [apply split_ok; assumption|].
  split; [apply shards_written_log|].
  split.
  { rewrite created_shards_events, Hlen, Z2Nat.id by lia. reflexivity. }
  intros i Hi. specialize (Hps i Hi).
  assert (Ei : i = 1 + Z.of_nat (Z.to_nat (i - 1))) by lia.
  split.
  - destruct (shards_written_file file_name (mode f) ps hdr0 1 w _ _ Hnul ltac:(lia) Hps)
      as [md Hmd].
    exists md. rewrite <- Ei in Hmd. exact Hmd.
  - pose proof (shards_events_header_writes file_name (mode f) ps hdr0 1 _ _ Hnul ltac:(lia) Hps)
      as Hw.
    rewrite <- Ei in Hw. change (shard_count hdr0) with count in Hw.
    rewrite Hw. unfold shard_hdr_of. fold hdr0. do 3 f_equal.
    unfold stale_crc. destruct (Z.to_nat (i - 1)) as [|j] eqn:Ej.
    + rewrite decide_True by lia. reflexivity.
    + rewrite decide_False by lia.
      assert (Hj : ps !! j = Some (shard_payload max_shard_size (content f) (i - 1))).
      { subst ps. rewrite payloads_lookup by lia. unfold shard_payload.
        replace (Z.to_nat (i - 1 - 1)) with j by lia. reflexivity. }
      rewrite Hj. reflexivity.
Qed.

End SplitOk.

(** ** The sizes of the shards *)

Section Sizes.
Context `{Layout} `{Crc}.

Lemma payload_of_shard h p md : payload (mk_file (encode_hdr h ++ p) md) = p.
Proof.
  unfold payload. cbn [content]. rewrite <- (encode_hdr_length h). apply drop_app_length.
Qed.

Lemma shard_payload_length max_shard_size data i :
  1 ≤ i →
  Z.of_nat (length (shard_payload max_shard_size data i))
  = Z.max 0 (Z.min (Z.of_nat (payload_cap max_shard_size))
               (Z.of_nat (length data) - (i - 1) * Z.of_nat (payload_cap max_shard_size))).
Proof.
  intros Hi. unfold shard_payload. rewrite length_take, length_drop. nia.
Qed.

(** C2 (amended): for a source of size S > 0 and a limit M with
    header_size <= M, no overflow in S + M and fewer than 65535 shards,
    [split] succeeds and creates exactly ceil(S/M) shard files, in the order
    of their indices; every shard but the last has a payload of M -
    header_size bytes, and the last one has S - (count - 1) * (M -
    header_size) bytes whenever that many fit under the limit. *)
Theorem split_shard_sizes fuel file_name max_shard_size w f :
  let size := Z.of_nat (length (content f)) in
  let count := (size + max_shard_size - 1) / max_shard_size in
  nul_free file_name →
  files w !! file_name = Some f →
  0 < size →
  header_size ≤ max_shard_size →
  size + max_shard_size ≤ 2 ^ 64 →
  count < 65535 →
  (String.length (base_name file_name) < name_capacity)%nat →
  (length (content f) + Z.to_nat count < fuel)%nat →
  ∃ w' evs,
    split fuel file_name max_shard_size w = (Ok tt, w') ∧
    log w' = log w ++ evs ∧
    (count - 1) * max_shard_size < size ≤ count * max_shard_size ∧
    created evs = (λ i, shard_path file_name i count) <$> seqZ 1 count ∧
    ∀ i, 1 ≤ i ≤ count →
      ∃ g, files w' !! shard_path file_name i count = Some g ∧
        (i < count → Z.of_nat (length (payload g)) = max_shard_size - header_size) ∧
        (i = count → size ≤ count * (max_shard_size - header_size) →
           Z.of_nat (length (payload g))
           = size - (count - 1) * (max_shard_size - header_size)).
Proof.
  intros size count Hnul Hf Hsize HM Hsum Hcount Hname Hfuel.
  assert (Hh : 0 < header_size) by (pose proof header_len_pos; unfold header_size; lia).
  assert (Htotal : shard_total size max_shard_size = count).
  { unfold shard_total, u64. rewrite Z.mod_small by lia. reflexivity. }
  assert (Hceil : (count - 1) * max_shard_size < size ≤ count * max_shard_size).
  { subst count.
    pose proof (Z.div_mod (size + max_shard_size - 1) max_shard_size ltac:(lia)) as Hdm.
    pose proof (Z.mod_pos_bound (size + max_shard_size - 1) max_shard_size ltac:(lia)) as Hb.
    nia. }
  assert (Hcap : Z.of_nat (payload_cap max_shard_size) = max_shard_size - header_size).
  { unfold payload_cap, u64. rewrite Z.mod_small by lia. lia. }
  destruct (split_shards fuel file_name max_shard_size w f) as (w' & evs & Hrun & Hlog & Hcr & Hsh);
    try assumption; fold size; rewrite ?Htotal; try assumption; try lia.
  fold size in Hcr, Hsh. rewrite Htotal in Hcr, Hsh.
  exists w', evs. repeat split; try assumption; try lia.
  intros i Hi. destruct (Hsh i Hi) as [[md Hfile] _].
  eexists. split; [exact Hfile|].
  rewrite payload_of_shard, shard_payload_length, Hcap by lia. fold size.
  split; intros; nia.
Qed.

(** C10 (amended): for a non-empty source and a limit M with 1 <= M <
    header_size, the difference M - header_size wraps modulo 2^64; when the
    shard count ceil(S/M) stays under 65535 and the base name fits, [split]
    succeeds, shard 1 receives the whole source as its payload and every
    later shard is written with an empty payload. *)
Theorem split_limit_below_header fuel file_name max_shard_size w f :
  let size := Z.of_nat (length (content f)) in
  let count := (size + max_shard_size - 1) / max_shard_size in
  nul_free file_name →
  files w !! file_name = Some f →
  0 < size →
  1 ≤ max_shard_size < header_size →
  size + header_size ≤ 2 ^ 64 →
  count < 65535 →
  (String.length (base_name file_name) < name_capacity)%nat →
  (length (content f) + Z.to_nat count < fuel)%nat →
  ∃ w' evs,
    split fuel file_name max_shard_size w = (Ok tt, w') ∧
    log w' = log w ++ evs ∧
    u64 (max_shard_size - header_size) = 2 ^ 64 + max_shard_size - header_size ∧
    created evs = (λ i, shard_path file_name i count) <$> seqZ 1 count ∧
    ∀ i, 1 ≤ i ≤ count →
      ∃ g, files w' !! shard_path file_name i count = Some g ∧
           payload g = if decide (i = 1) then content f else [].
Proof.
  intros size count Hnul Hf Hsize HM Hsum Hcount Hname Hfuel.
  assert (Htotal : shard_total size max_shard_size = count).
  { unfold shard_total, u64. rewrite Z.mod_small by lia. reflexivity. }
  assert (Hwrap : u64 (max_shard_size - header_size) = 2 ^ 64 + max_shard_size - header_size).
  { unfold u64. symmetry. apply (Z.mod_unique_pos _ _ (-1)); lia. }
  assert (Hcap : (length (content f) ≤ payload_cap max_shard_size)%nat).
  { unfold payload_cap. rewrite Hwrap. lia. }
  destruct (split_shards fuel file_name max_shard_size w f) as (w' & evs & Hrun & Hlog & Hcr & Hsh);
    try assumption; fold size; rewrite ?Htotal; try assumption; try lia.
  fold size in Hcr, Hsh. rewrite Htotal in Hcr, Hsh.
  exists w', evs. repeat split; try assumption.
  intros i Hi. destruct (Hsh i Hi) as [[md Hfile] _].
  eexists. split; [exact Hfile|].
  rewrite payload_of_shard. unfold shard_payload.
  destruct (decide (i = 1)) as [->|Hi1].
  - change (Z.to_nat (1 - 1)) with 0%nat. cbn [Nat.mul drop]. apply take_ge. exact Hcap.
  - rewrite drop_ge; [apply take_nil|]. nia.
Qed.

(** C9 (amended): in a run of [split] that writes its shards, the header of
    every shard is written exactly twice, both times at offset 0.  The first
    write comes before the payload and carries in [shard_crc] what the header
    record held: 0 for shard 1 and the checksum of the payload of shard i - 1
    for a later shard i.  The second write carries the checksum of the
    shard's own payload, and the file is left as that header followed by the
    payload.  The events of the shard stand together in the log, in this
    order: the file is created, the header is written, the payload is written
    piece by piece behind the header, the header is written again. *)
Theorem split_header_written_twice fuel file_name max_shard_size w f :
  let count := shard_total (Z.of_nat (length (content f))) max_shard_size in
  nul_free file_name →
  files w !! file_name = Some f →
  0 < max_shard_size →
  Z.of_nat (length (content f)) < 2 ^ 64 →
  count < 65535 →
  (String.length (base_name file_name) < name_capacity)%nat →
  (length (content f) + Z.to_nat count < fuel)%nat →
  ∃ w' evs,
    split fuel file_name max_shard_size w = (Ok tt, w') ∧
    log w' = log w ++ evs ∧
    ∀ i, 1 ≤ i ≤ count →
      ∃ g hdr,
        files w' !! shard_path file_name i count = Some g ∧
        content g = encode_hdr hdr ++ payload g ∧
        shard_idx hdr = i ∧
        shard_crc hdr = update_crc 0 (payload g) ∧
        payload g = shard_payload max_shard_size (content f) i ∧
        writes_at (shard_path file_name i count) 0 evs =
          [encode_hdr (set_shard_crc hdr
                         (if decide (i = 1) then 0
                          else update_crc 0 (shard_payload max_shard_size (content f) (i - 1))));
           encode_hdr hdr] ∧
        ∃ before after,
          evs = before
                ++ [EvCreate (shard_path file_name i count) (mode f);
                    EvWrite (shard_path file_name i count) 0
                      (encode_hdr (set_shard_crc hdr
                         (if decide (i = 1) then 0
                          else update_crc 0
                                 (shard_payload max_shard_size (content f) (i - 1)))))]
                ++ payload_writes (shard_path file_name i count) header_len (payload g)
                ++ [EvWrite (shard_path file_name i count) 0 (encode_hdr hdr)]
                ++ after
          ∧ Forall (λ e, event_path e ≠ shard_path file_name i count) before
          ∧ Forall (λ e, event_path e ≠ shard_path file_name i count) after.
Proof.
  intros count Hnul Hf HM Hsize Hcount Hname Hfuel.
  pose proof (shard_total_nonneg (Z.of_nat (length (content f))) max_shard_size HM) as Hc0.
  fold count in Hc0.
  set (hdr0 := initial_hdr file_name max_shard_size (content f)).
  set (ps := payloads (Z.to_nat count) (payload_cap max_shard_size) (content f)).
  exists (shards_written file_name (mode f) hdr0 1 ps w),
         (shards_events file_name (mode f) hdr0 1 ps).
  split; [apply split_ok; assumption|].
  split; [apply shards_written_log|].
  intros i Hi.
  assert (Hps : ps !! Z.to_nat (i - 1) = Some (shard_payload max_shard_size (content f) i)).
  { subst ps. rewrite payloads_lookup by lia. reflexivity. }
  assert (Ei : i = 1 + Z.of_nat (Z.to_nat (i - 1))) by lia.
  assert (Hstale : stale_crc hdr0 ps (Z.to_nat (i - 1))
                   = if decide (i = 1) then 0
                     else update_crc 0 (shard_payload max_shard_size (content f) (i - 1))).
  { unfold stale_crc. destruct (Z.to_nat (i - 1)) as [|j] eqn:Ej.
    - rewrite decide_True by lia. reflexivity.
    - rewrite decide_False by lia.
      assert (Hj : ps !! j = Some (shard_payload max_shard_size (content f) (i - 1))).
      { subst ps. rewrite payloads_lookup by lia. unfold shard_payload.
        replace (Z.to_nat (i - 1 - 1)) with j by lia. reflexivity. }
      rewrite Hj. reflexivity. }
  destruct (shards_written_file file_name (mode f) ps hdr0 1 w _ _ Hnul ltac:(lia) Hps)
    as [md Hmd].
  pose proof (shards_events_header_writes file_name (mode f) ps hdr0 1 _ _ Hnul ltac:(lia) Hps)
    as Hw.
  destruct (shards_events_block file_name (mode f) ps hdr0 1 _ _ Hnul ltac:(lia) Hps)
    as (before & after & Hev & Hb & Ha).
  cbn zeta in Hev, Hb, Ha.
  rewrite <- Ei in Hmd, Hw, Hev, Hb, Ha. rewrite Hstale in Hw, Hev.
  change (shard_count hdr0) with count in Hmd, Hw, Hev, Hb, Ha.
  exists (mk_file (encode_hdr (final_hdr hdr0 i (shard_payload max_shard_size (content f) i))
                   ++ shard_payload max_shard_size (content f) i) md),
         (final_hdr hdr0 i (shard_payload max_shard_size (content f) i)).
  rewrite payload_of_shard.
  split; [exact Hmd|]. do 4 (split; [reflexivity|]). split; [exact Hw|].
  exists before, after. split; [exact Hev|]. split; assumption.
Qed.

End Sizes.

(** ** The shard map *)

#[local] Instance key_lt_trans : Transitive key_lt.
Proof. unfold key_lt. intros a b c. lia. Qed.

#[local] Instance key_lt_antisymm : AntiSymm (=) key_lt.
Proof. unfold key_lt. intros a b Hab Hba. lia. Qed.

Lemma sorted_keys_nodup (m : shard_map_t) : StronglySorted key_lt m → NoDup m.*1.
Proof.
  induction 1 as [|x l Hs IH Hall]; cbn; constructor; [|exact IH].
  intros Hin. apply list_elem_of_fmap in Hin as (y & Hy & Hin).
  rewrite Forall_forall in Hall. specialize (Hall _ Hin). unfold key_lt in Hall. lia.
Qed.

Lemma emplace_new k v m :
  StronglySorted key_lt m → k ∉ (m.*1) →
  ∃ m', emplace k v m = (m', true) ∧ StronglySorted key_lt m' ∧ m' ≡ₚ (k, v) :: m.
Proof.
  induction m as [|[k' v'] m IH]; intros Hs Hk.
  - exists [(k, v)]. cbn. repeat split; [repeat constructor|reflexivity].
  - apply StronglySorted_inv in Hs as [Hs Hall]. cbn [emplace].
    destruct (decide (k < k')) as [Hlt|Hge].
    + exists ((k, v) :: (k', v') :: m). repeat split; [|reflexivity].
      constructor; [constructor; assumption|].
      constructor; [exact Hlt|].
      eapply Forall_impl; [exact Hall|]. unfold key_lt. cbn. intros; lia.
    + cbn in Hk. apply not_elem_of_cons in Hk as [Hne Hk].
      rewrite decide_False by exact Hne.
      destruct (IH Hs Hk) as (m' & -> & Hs' & Hp).
      exists ((k', v') :: m'). repeat split.
      * constructor; [exact Hs'|]. rewrite Hp. constructor; [unfold key_lt; cbn; lia|exact Hall].
      * rewrite Hp. apply perm_swap.
Qed.

Lemma emplace_taken k v m :
  StronglySorted key_lt m → k ∈ (m.*1) → emplace k v m = (m, false).
Proof.
  induction m as [|[k' v'] m IH]; intros Hs Hk; [inversion Hk|].
  apply StronglySorted_inv in Hs as [Hs Hall]. cbn [emplace].
  cbn in Hk. apply elem_of_cons in Hk as [->|Hk].
  - rewrite decide_False by lia. rewrite decide_True by reflexivity. reflexivity.
  - assert (k' < k).
    { apply list_elem_of_fmap in Hk as ([k2 v2] & -> & Hin).
      rewrite Forall_forall in Hall. apply (Hall _ Hin). }
    rewrite decide_False by lia. rewrite decide_False by lia.
    now rewrite IH.
Qed.

Lemma emplace_added k v m m' :
  StronglySorted key_lt m → emplace k v m = (m', true) →
  (k ∉ m.*1) ∧ StronglySorted key_lt m' ∧ m' ≡ₚ (k, v) :: m.
Proof.
  intros Hs E. destruct (decide (k ∈ m.*1)) as [Hin|Hnin].
  - rewrite emplace_taken in E by assumption. discriminate.
  - destruct (emplace_new k v m Hs Hnin) as (m2 & E2 & Hs2 & Hp2).
    rewrite E2 in E. injection E as <-. auto.
Qed.

Lemma emplace_all_some kvs : ∀ m m',
  StronglySorted key_lt m → emplace_all kvs m = Some m' →
  NoDup (kvs.*1 ++ m.*1) ∧ StronglySorted key_lt m' ∧ m' ≡ₚ kvs ++ m.
Proof.
  induction kvs as [|[k v] kvs IH]; intros m m' Hs E.
  - injection E as <-. cbn. repeat split; [|exact Hs|reflexivity].
    now apply sorted_keys_nodup.
  - cbn [emplace_all] in E. destruct (emplace k v m) as [m1 added] eqn:E1.
    destruct added; [|discriminate].
    apply emplace_added in E1 as (Hk & Hs1 & Hp1); [|exact Hs].
    destruct (IH m1 m' Hs1 E) as (Hnd & Hs' & Hp').
    repeat split; [|exact Hs'|].
    + assert (Hk1 : m1.*1 ≡ₚ k :: m.*1) by (rewrite Hp1; reflexivity).
      rewrite Hk1 in Hnd. cbn [fmap list_fmap app fst].
      now rewrite <- Permutation_middle in Hnd.
    + rewrite Hp', Hp1. cbn [app]. symmetry. apply Permutation_middle.
Qed.

Lemma emplace_all_nodup kvs : ∀ m,
  StronglySorted key_lt m → NoDup (kvs.*1 ++ m.*1) →
  ∃ m', emplace_all kvs m = Some m'.
Proof.
  induction kvs as [|[k v] kvs IH]; intros m Hs Hnd; [eauto|].
  cbn [fmap list_fmap app fst] in Hnd. apply NoDup_cons in Hnd as [Hk Hnd].
  destruct (emplace_new k v m Hs) as (m1 & E1 & Hs1 & Hp1).
  { intros Hin. apply Hk. apply elem_of_app. now right. }
  cbn [emplace_all]. rewrite E1. apply IH; [exact Hs1|].
  assert (Hk1 : m1.*1 ≡ₚ k :: m.*1) by (rewrite Hp1; reflexivity).
  rewrite Hk1, <- Permutation_middle. now constructor.
Qed.


(** ** The first half of [join] *)

Section Collect.
Context `{Layout} `{Crc}.

Lemma agree_iff h1 h2 :
  agree h1 h2 ↔
    shard_count h1 = shard_count h2 ∧ original_size h1 = original_size h2
    ∧ original_crc h1 = original_crc h2
    ∧ c_bytes (original_name h1) = c_bytes (original_name h2).
Proof.
  unfold agree, mismatch. split.
  - intros Hn.
    destruct (decide (shard_count h1 = shard_count h2)); [|tauto].
    destruct (decide (original_size h1 = original_size h2)); [|tauto].
    destruct (decide (original_crc h1 = original_crc h2)); [|tauto].
    destruct (decide (c_bytes (original_name h1) = c_bytes (original_name h2))); tauto.
  - tauto.
Qed.

Lemma agree_refl h : agree h h.
Proof. apply agree_iff. auto. Qed.



Lemma open_shard_hdr_at path w fd h w' :
  open_shard path w = (Ok (fd, h), w') → hdr_at w path = Some h ∧ w' = w.
Proof.
  rewrite open_shard_probe. intros E. injection E as E <-.
  unfold hdr_at. now rewrite E.
Qed.

Lemma hdr_at_open_shard path w h :
  hdr_at w path = Some h → ∃ fd, open_shard path w = (Ok (fd, h), w).
Proof.
  unfold hdr_at. rewrite open_shard_probe.
  destruct (probe path (files w !! c_str path)) as [[fd h']| |]; [|discriminate..].
  intros [= ->]. eauto.
Qed.

Lemma collect_shards_world rest : ∀ master m w r w',
  collect_shards rest master m w = (r, w') → w' = w.
Proof.
  induction rest as [|p rest IH]; intros master m w r w' E; cbn [collect_shards] in E.
  - now injection E.
  - unfold bind in E. rewrite open_shard_probe in E.
    destruct (probe p (files w !! c_str p)) as [[fd h]| |]; [|now injection E..].
    destruct (decide (mismatch h master)); [now injection E|].
    destruct (emplace (shard_idx h) p m) as [m1 [|]]; [|now injection E].
    eapply IH. exact E.
Qed.

Lemma collect_shards_ok rest : ∀ master m w m',
  collect_shards rest master m w = (Ok m', w) ↔
    Forall (λ p, ∃ h, hdr_at w p = Some h ∧ agree h master) rest
    ∧ emplace_all (entry_of w <$> rest) m = Some m'.
Proof.
  induction rest as [|p rest IH]; intros master m w m'; cbn [collect_shards].
  - cbn. unfold ret. split.
    + intros [= ->]. auto.
    + intros [_ [= ->]]. reflexivity.
  - unfold bind. rewrite open_shard_probe.
    cbn [fmap list_fmap emplace_all]. unfold entry_of at 1, hdr_at at 2.
    rewrite Forall_cons. unfold hdr_at at 1.
    destruct (probe p (files w !! c_str p)) as [[fd h]|e|].
    + destruct (decide (mismatch h master)) as [Hm|Hm].
      * split; [discriminate|]. intros [[(h' & [= <-] & Ha) _] _]. contradiction.
      * destruct (emplace (shard_idx h) p m) as [m1 [|]].
        -- rewrite IH. split; [|tauto]. intros [? ?]. eauto 6.
        -- split; [discriminate|]. intros [_ ?]. discriminate.
    + split; [discriminate|]. intros [[(h' & ? & _) _] _]. discriminate.
    + split; [discriminate|]. intros [[(h' & ? & _) _] _]. discriminate.
Qed.


Lemma join_ok_inv fuel first rest w w' :
  join fuel (first :: rest) w = (Ok tt, w') →
  ∃ master m,
    hdr_at w first = Some master
    ∧ Z.of_nat (length (first :: rest)) = shard_count master
    ∧ collect_shards rest master [(shard_idx master, first)] w = (Ok m, w)
    ∧ reassemble fuel master m w = (Ok tt, w').
Proof.
  unfold join, bind at 1. rewrite open_shard_probe. unfold hdr_at.
  destruct (probe first (files w !! c_str first)) as [[fd master]| |]; [|discriminate..].
  destruct (decide (_ ≠ _)) as [|Hlen]; [discriminate|].
  unfold bind.
  destruct (collect_shards rest master _ w) as [[m| |] w1] eqn:E; [|discriminate..].
  pose proof (collect_shards_world _ _ _ _ _ _ E) as ->.
  intros Hre. exists master, m.
  split; [reflexivity|]. split; [|split; [exact E|exact Hre]].
  destruct (decide (Z.of_nat (length (first :: rest)) = shard_count master)); [done|tauto].
Qed.



End Collect.

(** ** The copy of a shard into the output *)

Section Append.
Context `{Layout} `{Crc}.

Lemma append_payload_ok fuel : ∀ ipath ipos opath tcrc scrc w f g,
  files w !! ipath = Some f →
  files w !! opath = Some g →
  ipath ≠ opath →
  enough fuel (length (drop ipos (content f))) →
  let data := drop ipos (content f) in
  append_payload fuel (mk_fd ipath ipos) (mk_fd opath (length (content g))) tcrc scrc w =
    (Ok (mk_fd opath (length (content g) + length data),
         update_crc tcrc data, update_crc scrc data),
     mk_world (<[opath := mk_file (content g ++ data) (mode g)]> (files w))
       (log w ++ payload_writes opath (length (content g)) data)).
Proof.
  pose proof buffer_size_pos as HB. unfold enough.
  set (B := Z.to_nat buffer_size) in *.
  induction fuel as [|fuel IH]; intros ipath ipos opath tcrc scrc w f g Hf Hg Hne Hfuel;
    [cbn [Nat.mul] in Hfuel; lia|].
  cbn zeta. cbn [append_payload].
  erewrite bind_ok by (apply read_at_most_ok; exact Hf). cbn beta iota.
  cbn [fd_path fd_pos]. fold B.
  set (rest := drop ipos (content f)) in *.
  destruct (take B rest) as [|b0 piece0] eqn:Hpiece.
  - assert (Hrest : rest = []).
    { destruct rest; [reflexivity|]. destruct B; [lia|discriminate]. }
    rewrite Hrest. cbn [length]. rewrite !update_crc_nil, Nat.add_0_r.
    rewrite payload_writes_nil, !app_nil_r, file_eta, insert_id by exact Hg.
    unfold ret. now destruct w.
  - rewrite <- Hpiece. set (piece := take B rest) in *.
    assert (Hpne : piece ≠ []) by (rewrite Hpiece; discriminate).
    assert (Hpl : length piece = (B `min` length rest)%nat) by apply length_take.
    erewrite bind_ok by (apply write_exactly_ok; [exact Hg|exact Hpne]). cbn beta.
    cbn [fd_path fd_pos]. rewrite overwrite_end.
    set (g1 := mk_file (content g ++ piece) (mode g)).
    set (w1 := mk_world _ _).
    assert (Hlen1 : (length (content g) + length piece)%nat = length (content g1)).
    { subst g1. cbn [content]. now rewrite length_app. }
    rewrite Hlen1.
    assert (Hd : drop (ipos + length piece) (content f) = drop B rest).
    { subst rest. rewrite <- drop_drop. apply drop_payload. }
    assert (Hf1 : files w1 !! ipath = Some f).
    { subst w1. cbn [files]. now rewrite lookup_insert_ne. }
    assert (Hg1 : files w1 !! opath = Some g1).
    { subst w1. cbn [files]. now rewrite lookup_insert_eq. }
    assert (Hfuel1 : (length (drop (ipos + length piece) (content f)) + B ≤ fuel * B)%nat).
    { rewrite Hd, length_drop. rewrite Nat.mul_succ_l in Hfuel.
      destruct fuel as [|fuel']; [|rewrite Nat.mul_succ_l in *; lia].
      cbn [Nat.mul length] in *. destruct rest; [discriminate|]. cbn [length] in *. lia. }
    rewrite (IH ipath (ipos + length piece)%nat opath _ _ w1 f g1 Hf1 Hg1 Hne Hfuel1).
    cbn zeta. rewrite Hd.
    rewrite !update_crc_app. subst piece. rewrite !take_drop.
    f_equal.
    + do 3 f_equal. rewrite <- Hlen1, <- Nat.add_assoc. f_equal.
      rewrite <- length_app, take_drop. reflexivity.
    + subst w1 g1. cbn [files log content mode]. rewrite insert_insert_eq.
      rewrite <- !app_assoc, take_drop. do 2 f_equal.
      rewrite (payload_writes_step opath (length (content g)) rest).
      2: { intros E. rewrite E in Hpiece. destruct B; discriminate. }
      fold B. cbn [app]. now rewrite length_app.
Qed.

Lemma append_payload_out_of_fuel fuel : ∀ ipath ipos opath tcrc scrc w f g,
  files w !! ipath = Some f →
  files w !! opath = Some g →
  ipath ≠ opath →
  ¬ enough fuel (length (drop ipos (content f))) →
  (append_payload fuel (mk_fd ipath ipos) (mk_fd opath (length (content g))) tcrc scrc w).1
  = OutOfFuel.
Proof.
  pose proof buffer_size_pos as HB. unfold enough.
  set (B := Z.to_nat buffer_size) in *.
  induction fuel as [|fuel IH]; intros ipath ipos opath tcrc scrc w f g Hf Hg Hne Hfuel;
    [reflexivity|].
  cbn [append_payload].
  erewrite bind_ok by (apply read_at_most_ok; exact Hf). cbn beta iota.
  cbn [fd_path fd_pos]. fold B.
  set (rest := drop ipos (content f)) in *.
  rewrite Nat.mul_succ_l in Hfuel.
  destruct (take B rest) as [|b0 piece0] eqn:Hpiece.
  - assert (Hrest : rest = []).
    { destruct rest; [reflexivity|]. destruct B; [lia|discriminate]. }
    rewrite Hrest in Hfuel. cbn [length] in Hfuel. lia.
  - rewrite <- Hpiece. set (piece := take B rest) in *.
    assert (Hpne : piece ≠ []) by (rewrite Hpiece; discriminate).
    assert (Hpl : length piece = (B `min` length rest)%nat) by apply length_take.
    erewrite bind_ok by (apply write_exactly_ok; [exact Hg|exact Hpne]). cbn beta.
    cbn [fd_path fd_pos]. rewrite overwrite_end.
    set (g1 := mk_file (content g ++ piece) (mode g)).
    set (w1 := mk_world _ _).
    assert (Hlen1 : (length (content g) + length piece)%nat = length (content g1)).
    { subst g1. cbn [content]. now rewrite length_app. }
    rewrite Hlen1.
    assert (Hd : drop (ipos + length piece) (content f) = drop B rest).
    { subst rest. rewrite <- drop_drop. apply drop_payload. }
    apply IH with (f := f).
    + subst w1. cbn [files]. now rewrite lookup_insert_ne.
    + subst w1. cbn [files]. now rewrite lookup_insert_eq.
    + exact Hne.
    + rewrite Hd, length_drop. destruct fuel as [|fuel']; [cbn [Nat.mul]; lia|].
      rewrite Nat.mul_succ_l in *. lia.
Qed.

End Append.

(** ** A damaged payload *)

Lemma nodup_keys_functional {A B} (l : list (A * B)) k v1 v2 :
  NoDup l.*1 → (k, v1) ∈ l → (k, v2) ∈ l → v1 = v2.
Proof.
  induction l as [|[k' v'] l IH]; intros Hnd H1 H2; [inversion H1|].
  cbn in Hnd. apply NoDup_cons in Hnd as [Hk Hnd].
  apply elem_of_cons in H1 as [E1|H1], H2 as [E2|H2].
  - congruence.
  - exfalso. injection E1 as -> ->. apply Hk. apply list_elem_of_fmap. exists (k', v2). auto.
  - exfalso. injection E2 as -> ->. apply Hk. apply list_elem_of_fmap. exists (k', v1). auto.
  - eauto.
Qed.

Section Damage.
Context `{Layout} `{Crc}.

Lemma damage_other w kp off b q :
  q ≠ kp → files (damage w kp off b) !! q = files w !! q.
Proof. intros Hne. unfold damage. cbn [files]. now apply lookup_alter_ne. Qed.

Lemma damage_same w kp off b f :
  files w !! kp = Some f →
  files (damage w kp off b) !! kp = Some (mk_file (<[off := b]> (content f)) (mode f)).
Proof. intros Hf. unfold damage. cbn [files]. now rewrite lookup_alter_eq, Hf. Qed.

Lemma damage_insert w kp off b q g l :
  q ≠ kp →
  mk_world (<[q := g]> (files (damage w kp off b))) l
  = damage (mk_world (<[q := g]> (files w)) l) kp off b.
Proof.
  intros Hne. unfold damage. cbn [files log]. f_equal.
  symmetry. apply alter_insert_ne. congruence.
Qed.

Lemma probe_damage q f off b :
  (header_len ≤ off)%nat →
  probe q (Some (mk_file (<[off := b]> (content f)) (mode f))) = probe q (Some f).
Proof.
  intros Hoff. unfold probe. cbn [content]. rewrite length_insert.
  now rewrite take_insert_ge.
Qed.

Lemma probe_damaged_world w kp off b q :
  (header_len ≤ off)%nat →
  probe q (files (damage w kp off b) !! c_str q) = probe q (files w !! c_str q).
Proof.
  intros Hoff. destruct (decide (kp = c_str q)) as [->|Hne].
  - destruct (files w !! c_str q) as [f|] eqn:Hf.
    + rewrite (damage_same _ _ _ _ _ Hf). now apply probe_damage.
    + unfold damage. cbn [files]. now rewrite lookup_alter_eq, Hf.
  - rewrite damage_other by congruence. reflexivity.
Qed.

Lemma hdr_at_damage w kp off b q :
  (header_len ≤ off)%nat → hdr_at (damage w kp off b) q = hdr_at w q.
Proof. intros Hoff. unfold hdr_at. now rewrite probe_damaged_world. Qed.

Lemma entry_of_damage w kp off b q :
  (header_len ≤ off)%nat → entry_of (damage w kp off b) q = entry_of w q.
Proof. intros Hoff. unfold entry_of. now rewrite hdr_at_damage. Qed.

Lemma hdr_at_same_file w q1 q2 : c_str q1 = c_str q2 → hdr_at w q1 = hdr_at w q2.
Proof.
  intros E. unfold hdr_at, probe. rewrite E.
  destruct (files w !! c_str q2) as [f|]; [|reflexivity].
  repeat (destruct (decide _); [reflexivity|]). reflexivity.
Qed.

Lemma probe_ok_inv q o fd h :
  probe q o = Ok (fd, h) →
  ∃ f, o = Some f ∧ fd = mk_fd (c_str q) header_len
       ∧ h = decode_hdr (take header_len (content f))
       ∧ (header_len ≤ length (content f))%nat.
Proof.
  unfold probe. destruct o as [f|]; [|discriminate].
  destruct (decide _) as [|Hlen]; [discriminate|].
  destruct (decide _); [discriminate|]. intros [= <- <-].
  exists f. repeat split. unfold header_size in Hlen. lia.
Qed.

Section Run.
Variables (fuel : nat) (p : string) (off : nat) (b : byte) (f : file).
Hypothesis detect : ∀ (pre suf : list byte) (x y : byte),
  x ≠ y → update_crc 0 (pre ++ x :: suf) ≠ update_crc 0 (pre ++ y :: suf).
Hypothesis Hoff : (header_len ≤ off < length (content f))%nat.
Hypothesis Hbyte : content f !! off ≠ Some b.

Lemma damaged_payload_crc :
  update_crc 0 (drop header_len (<[off := b]> (content f)))
  ≠ update_crc 0 (drop header_len (content f)).
Proof.
  rewrite drop_insert_ge by lia.
  set (l := drop header_len (content f)). set (j := (off - header_len)%nat).
  assert (Hj : (j < length l)%nat) by (subst l j; rewrite length_drop; lia).
  destruct (lookup_lt_is_Some_2 l j Hj) as [x Hx].
  assert (Hxb : b ≠ x).
  { intros ->. apply Hbyte. subst l j. rewrite lookup_drop in Hx.
    rewrite <- Hx. f_equal. lia. }
  rewrite insert_take_drop by exact Hj.
  rewrite <- (take_drop_middle l j x Hx) at 3.
  now apply detect.
Qed.

Lemma append_shards_damaged (m : shard_map_t) : ∀ opath g tcrc w r w',
  files w !! (c_str p) = Some f →
  files w !! opath = Some g →
  opath ≠ (c_str p) →
  Forall (λ e, c_str e.2 ≠ opath) m →
  Forall (λ e, c_str e.2 = (c_str p) → e.2 = p) m →
  p ∈ m.*2 →
  append_shards fuel m (mk_fd opath (length (content g))) tcrc w = (Ok r, w') →
  ∃ w'',
    append_shards fuel m (mk_fd opath (length (content g))) tcrc (damage w (c_str p) off b)
    = (Err (Damaged p), w'').
Proof.
  induction m as [|[k q] m IH]; intros opath g tcrc w r w' Hf Hg Hne Hout Hinj Hp Hrun.
  { inversion Hp. }
  apply Forall_cons in Hout as [Hq Hout]. apply Forall_cons in Hinj as [Hqp Hinj].
  cbn [snd] in Hq, Hqp.
  cbn [append_shards] in Hrun |- *.
  unfold bind at 1 in Hrun. unfold bind at 1.
  rewrite open_shard_probe in Hrun. rewrite open_shard_probe, probe_damaged_world by lia.
  destruct (probe q (files w !! c_str q)) as [[inp h]| |] eqn:Hprobe; [|discriminate..].
  apply probe_ok_inv in Hprobe as (fq & Hfq & -> & -> & Hlenq).
  unfold bind at 1 in Hrun. unfold bind at 1.
  destruct (decide (enough fuel (length (drop header_len (content fq))))) as [Hen|Hen].
  2: { pose proof (append_payload_out_of_fuel fuel (c_str q) header_len opath tcrc 0 w fq g
                     Hfq Hg Hq Hen) as Hout_of_fuel.
       destruct (append_payload fuel _ _ tcrc 0 w) as [[| |] ?]; cbn in Hout_of_fuel;
         discriminate. }
  rewrite (append_payload_ok fuel (c_str q) header_len opath tcrc 0 w fq g Hfq Hg Hq Hen)
    in Hrun.
  cbn zeta in Hrun.
  destruct (decide (shard_crc (decode_hdr (take header_len (content fq)))
                    ≠ update_crc 0 (drop header_len (content fq)))) as [|Hcrc];
    [discriminate|].
  apply dec_stable in Hcrc.
  destruct (decide (c_str q = c_str p)) as [Eq|Nq].
  - (* the damaged shard *)
    assert (q = p) as -> by auto.
    assert (fq = f) as -> by congruence.
    pose proof (damage_same w (c_str p) off b f Hf) as Hfd.
    assert (Hgd : files (damage w (c_str p) off b) !! opath = Some g).
    { rewrite damage_other by exact Hne. exact Hg. }
    assert (Hend : enough fuel (length (drop header_len
                     (content (mk_file (<[off := b]> (content f)) (mode f)))))).
    { cbn [content]. rewrite length_drop, length_insert, <- length_drop. exact Hen. }
    rewrite (append_payload_ok fuel (c_str p) header_len opath tcrc 0 _ _ g Hfd Hgd Hq Hend).
    cbn zeta. cbn [content].
    rewrite decide_True; [eauto|].
    rewrite Hcrc. intros E. symmetry in E. revert E. apply damaged_payload_crc.
  - (* a shard before it *)
    assert (Hfqd : files (damage w (c_str p) off b) !! c_str q = Some fq).
    { rewrite damage_other by exact Nq. exact Hfq. }
    assert (Hgd : files (damage w (c_str p) off b) !! opath = Some g).
    { rewrite damage_other by exact Hne. exact Hg. }
    rewrite (append_payload_ok fuel (c_str q) header_len opath tcrc 0 _ fq g Hfqd Hgd Hq Hen).
    cbn zeta. rewrite decide_False by (intros Hx; apply Hx; exact Hcrc).
    rewrite damage_insert by exact Hne.
    set (g1 := mk_file (content g ++ drop header_len (content fq)) (mode g)) in *.
    set (w1 := mk_world (<[opath := g1]> (files w)) _) in *.
    assert (Hpos : (length (content g) + length (drop header_len (content fq)))%nat
                   = length (content g1)).
    { subst g1. cbn [content]. now rewrite length_app. }
    rewrite Hpos in Hrun |- *.
    eapply (IH opath g1 _ w1); [| | | | | |exact Hrun].
    + subst w1. cbn [files]. rewrite lookup_insert_ne by exact Hne. exact Hf.
    + subst w1. cbn [files]. apply lookup_insert_eq.
    + exact Hne.
    + exact Hout.
    + exact Hinj.
    + cbn in Hp. apply elem_of_cons in Hp as [->|Hp]; [contradiction|exact Hp].
Qed.

End Run.
End Damage.

Section Detect.
Context `{Layout} `{Crc}.

Lemma join_reassemble fuel first rest w master m :
  hdr_at w first = Some master →
  Z.of_nat (length (first :: rest)) = shard_count master →
  collect_shards rest master [(shard_idx master, first)] w = (Ok m, w) →
  join fuel (first :: rest) w = reassemble fuel master m w.
Proof.
  intros Hm Hlen Hcol. destruct (hdr_at_open_shard _ _ _ Hm) as [fd Hopen].
  unfold join. rewrite (bind_ok _ _ _ _ _ Hopen). cbn beta iota.
  rewrite decide_False by (intros Hne; apply Hne; exact Hlen).
  now rewrite (bind_ok _ _ _ _ _ Hcol).
Qed.

(** The shard map of an accepted set holds every path once, under the index
    that its header gives. *)
Lemma collected_map first rest w master m :
  hdr_at w first = Some master →
  collect_shards rest master [(shard_idx master, first)] w = (Ok m, w) →
  NoDup m.*1 ∧ m ≡ₚ entry_of w <$> first :: rest.
Proof.
  intros Hm Hcol. apply collect_shards_ok in Hcol as [_ Hmap].
  apply emplace_all_some in Hmap as (_ & Hs & Hp); [|repeat constructor].
  split; [now apply sorted_keys_nodup|].
  rewrite Hp. cbn [fmap list_fmap]. unfold entry_of at 2. rewrite Hm.
  symmetry. apply Permutation_cons_append.
Qed.

(** C6: for a shard set that [join] accepts and whose destination is none
    of the shard files, replacing one payload byte of one shard by a
    different byte makes [join] fail with the error that names that shard as
    damaged, a corruption error; the run does not end in success.  The
    checksum is taken to tell a span from the same span with one byte
    changed, which a CRC-32 does. *)
Theorem join_detects_damaged_payload fuel file_names w w' p f off b :
  (∀ (pre suf : list byte) (x y : byte),
     x ≠ y → update_crc 0 (pre ++ x :: suf) ≠ update_crc 0 (pre ++ y :: suf)) →
  join fuel file_names w = (Ok tt, w') →
  destination w file_names ∉ c_str <$> file_names →
  p ∈ file_names →
  files w !! c_str p = Some f →
  (header_len ≤ off < length (content f))%nat →
  content f !! off ≠ Some b →
  ∃ w'',
    join fuel file_names (damage w (c_str p) off b) = (Err (Damaged p), w'')
    ∧ classify (Damaged p) = CorruptionError.
Proof.
  intros detect Hjoin Hdest Hp Hf Hoff Hbyte.
  destruct file_names as [|first rest]; [discriminate|].
  apply join_ok_inv in Hjoin as (master & m & Hmaster & Hlen & Hcol & Hre).
  unfold destination in Hdest. rewrite Hmaster in Hdest.
  set (dest := c_str (name_of master)) in *.
  destruct (collected_map _ _ _ _ _ Hmaster Hcol) as [Hnd Hperm].
  assert (Hin : ∀ e, e ∈ m → e.2 ∈ first :: rest ∧ e = entry_of w e.2).
  { intros e He. rewrite Hperm in He. apply list_elem_of_fmap in He as (q & -> & Hq). auto. }
  assert (Hpm : entry_of w p ∈ m).
  { rewrite Hperm. now apply list_elem_of_fmap_2. }
  assert (Hout : Forall (λ e, c_str e.2 ≠ dest) m).
  { apply Forall_forall. intros e He Heq. apply Hdest. rewrite <- Heq.
    apply list_elem_of_fmap_2. now apply Hin. }
  assert (Hinj : Forall (λ e, c_str e.2 = c_str p → e.2 = p) m).
  { apply Forall_forall. intros [k q] He Heq. cbn [snd] in *.
    destruct (Hin _ He) as [_ Hk]. cbn [snd] in Hk.
    apply (nodup_keys_functional m k); [exact Hnd|exact He|].
    replace (k, p) with (entry_of w p); [exact Hpm|].
    unfold entry_of in Hk |- *. rewrite (hdr_at_same_file w q p Heq) in Hk. congruence. }
  assert (Hp2 : p ∈ m.*2).
  { apply list_elem_of_fmap. exists (entry_of w p). auto. }
  assert (Hpd : c_str p ≠ dest).
  { intros Heq. apply Hdest. rewrite <- Heq. now apply list_elem_of_fmap_2. }
  (* the run on the intact set *)
  unfold reassemble in Hre. unfold bind at 1 in Hre.
  assert (Hne : c_str (name_of master) ≠ "").
  { intros Heq. unfold open_rw in Hre. rewrite decide_True in Hre by exact Heq. discriminate. }
  rewrite open_rw_ok in Hre by exact Hne. fold dest in Hre.
  set (md := match files w !! dest with Some g => mode g | None => default_mode end) in *.
  set (w1 := mk_world (<[dest := mk_file [] md]> (files w)) _) in *.
  unfold bind at 1 in Hre.
  destruct (append_shards fuel m (mk_fd dest 0) 0 w1) as [[r| |] w2] eqn:Hrun;
    [|discriminate..].
  destruct (append_shards_damaged fuel p off b f detect Hoff Hbyte m dest (mk_file [] md) 0 w1
              r w2) as [w'' Hbad]; try assumption.
  { subst w1. cbn [files]. rewrite lookup_insert_ne by congruence. exact Hf. }
  { subst w1. cbn [files]. apply lookup_insert_eq. }
  { congruence. }
  (* the run on the damaged set *)
  exists w''. split; [|reflexivity].
  assert (Hheader : (header_len ≤ off)%nat) by lia.
  rewrite (join_reassemble fuel first rest _ master m).
  - unfold reassemble. unfold bind at 1. rewrite open_rw_ok by exact Hne. fold dest.
    rewrite damage_other by congruence. fold md.
    change (log (damage w (c_str p) off b)) with (log w).
    rewrite damage_insert by congruence. fold w1.
    unfold bind at 1. cbn [content length] in Hbad. now rewrite Hbad.
  - rewrite hdr_at_damage by exact Hheader. exact Hmaster.
  - exact Hlen.
  - apply collect_shards_ok in Hcol as [Hall Hmap].
    assert (Hcold : collect_shards rest master [(shard_idx master, first)]
                      (damage w (c_str p) off b)
                    = (Ok m, damage w (c_str p) off b)); [|exact Hcold].
    apply collect_shards_ok. split.
    + eapply Forall_impl; [exact Hall|]. cbn. intros q Hq.
      now rewrite hdr_at_damage by exact Hheader.
    + rewrite <- Hmap. f_equal. apply list_fmap_ext. intros _ q _.
      now apply entry_of_damage.
Qed.

End Detect.

(** ** The CRC-32 tells a changed byte *)

Module Crc32Facts.
Import Crc32.

Lemma r32_lxor a b : r32 a → r32 b → r32 (Z.lxor a b).
Proof.
  unfold r32. intros Ha Hb.
  assert (H0 : 0 ≤ Z.lxor a b) by (apply Z.lxor_nonneg; lia).
  split; [exact H0|].
  destruct (Z.eq_dec (Z.lxor a b) 0) as [->|Hnz]; [lia|].
  apply Z.log2_lt_pow2; [lia|].
  pose proof (Z.log2_lxor a b ltac:(lia) ltac:(lia)) as Hl.
  assert (Hla : Z.log2 a < 32).
  { destruct (Z.eq_dec a 0) as [->|?]; [cbn; lia|]. apply Z.log2_lt_pow2; lia. }
  assert (Hlb : Z.log2 b < 32).
  { destruct (Z.eq_dec b 0) as [->|?]; [cbn; lia|]. apply Z.log2_lt_pow2; lia. }
  lia.
Qed.

Lemma r32_shiftr c : r32 c → 0 ≤ Z.shiftr c 1 < 2 ^ 31.
Proof.
  unfold r32. intros Hc. rewrite Z.shiftr_div_pow2 by lia.
  change (2 ^ 1) with 2. split.
  - apply Z.div_pos; lia.
  - apply Z.div_lt_upper_bound; lia.
Qed.

Lemma r32_poly : r32 poly.
Proof. unfold r32, poly. lia. Qed.

Lemma r32_crc_bit c : r32 c → r32 (crc_bit c).
Proof.
  intros Hc. pose proof (r32_shiftr c Hc) as Hs. unfold crc_bit.
  destruct (Z.testbit c 0).
  - apply r32_lxor; [unfold r32; lia|apply r32_poly].
  - unfold r32. lia.
Qed.

Lemma small_bit31 a : 0 ≤ a < 2 ^ 31 → Z.testbit a 31 = false.
Proof.
  intros Ha. destruct (Z.eq_dec a 0) as [->|Hnz]; [reflexivity|].
  apply Z.bits_above_log2; [lia|]. apply Z.log2_lt_pow2; lia.
Qed.

(** The top bit of the shifted register tells whether the polynomial was
    added, so a step can be undone. *)
Lemma crc_bit_top c : r32 c → Z.testbit (crc_bit c) 31 = Z.testbit c 0.
Proof.
  intros Hc. pose proof (small_bit31 _ (r32_shiftr c Hc)) as Hs. unfold crc_bit.
  destruct (Z.testbit c 0).
  - rewrite Z.lxor_spec, Hs. reflexivity.
  - exact Hs.
Qed.

Lemma lxor_cancel_r a b c : Z.lxor a c = Z.lxor b c → a = b.
Proof.
  intros E. apply (f_equal (λ z, Z.lxor z c)) in E.
  now rewrite !Z.lxor_assoc, Z.lxor_nilpotent, !Z.lxor_0_r in E.
Qed.

Lemma lxor_cancel_l a b c : Z.lxor c a = Z.lxor c b → a = b.
Proof. rewrite !(Z.lxor_comm c). apply lxor_cancel_r. Qed.

Lemma crc_bit_inj c1 c2 : r32 c1 → r32 c2 → crc_bit c1 = crc_bit c2 → c1 = c2.
Proof.
  intros H1 H2 E.
  assert (Hb : Z.testbit c1 0 = Z.testbit c2 0).
  { rewrite <- !crc_bit_top by assumption. now rewrite E. }
  assert (Hs : Z.shiftr c1 1 = Z.shiftr c2 1).
  { unfold crc_bit in E. rewrite <- Hb in E.
    destruct (Z.testbit c1 0); [now apply lxor_cancel_r in E|exact E]. }
  rewrite <- !Z.div2_spec in Hs. rewrite !Z.bit0_odd in Hb.
  rewrite (Z.div2_odd c1), (Z.div2_odd c2). now rewrite Hs, Hb.
Qed.

Lemma r32_iter n c : r32 c → r32 (Nat.iter n crc_bit c).
Proof. intros Hc. induction n as [|n IH]; [exact Hc|]. cbn. now apply r32_crc_bit. Qed.

Lemma iter_inj n c1 c2 :
  r32 c1 → r32 c2 → Nat.iter n crc_bit c1 = Nat.iter n crc_bit c2 → c1 = c2.
Proof.
  intros H1 H2. induction n as [|n IH]; [auto|]. cbn. intros E.
  apply IH. apply crc_bit_inj; [now apply r32_iter..|exact E].
Qed.

Lemma r32_byte b : r32 (Z_of_byte b).
Proof.
  unfold r32, Z_of_byte. pose proof (Byte.to_N_bounded b). lia.
Qed.

Lemma Z_of_byte_inj x y : Z_of_byte x = Z_of_byte y → x = y.
Proof.
  unfold Z_of_byte. intros E. apply N2Z.inj in E.
  pose proof (Byte.of_to_N x) as Hx. rewrite E, Byte.of_to_N in Hx. congruence.
Qed.

Lemma r32_crc_byte c b : r32 c → r32 (crc_byte c b).
Proof. intros Hc. unfold crc_byte. apply r32_iter, r32_lxor; [exact Hc|apply r32_byte]. Qed.

Lemma crc_byte_inj_state c1 c2 b :
  r32 c1 → r32 c2 → crc_byte c1 b = crc_byte c2 b → c1 = c2.
Proof.
  intros H1 H2 E. unfold crc_byte in E.
  apply iter_inj in E; [|apply r32_lxor; auto using r32_byte..].
  now apply lxor_cancel_r in E.
Qed.

Lemma crc_byte_inj_byte c x y : r32 c → crc_byte c x = crc_byte c y → x = y.
Proof.
  intros Hc E. unfold crc_byte in E.
  apply iter_inj in E; [|apply r32_lxor; auto using r32_byte..].
  apply lxor_cancel_l in E. now apply Z_of_byte_inj.
Qed.

Lemma r32_fold bs : ∀ c, r32 c → r32 (fold_left crc_byte bs c).
Proof. induction bs as [|b bs IH]; intros c Hc; [exact Hc|]. cbn. apply IH. now apply r32_crc_byte. Qed.

Lemma fold_inj bs : ∀ c1 c2,
  r32 c1 → r32 c2 → fold_left crc_byte bs c1 = fold_left crc_byte bs c2 → c1 = c2.
Proof.
  induction bs as [|b bs IH]; intros c1 c2 H1 H2 E; [exact E|]. cbn in E.
  apply IH in E; [|now apply r32_crc_byte..].
  now apply crc_byte_inj_state in E.
Qed.

(** Two spans that differ in one byte have different checksums. *)
Lemma update_detects (pre suf : list byte) (x y : byte) :
  x ≠ y → update 0 (pre ++ x :: suf) ≠ update 0 (pre ++ y :: suf).
Proof.
  intros Hxy E. unfold update in E. apply lxor_cancel_r in E.
  rewrite !fold_left_app in E. cbn [fold_left] in E.
  assert (H0 : r32 (Z.lxor 0 ones)) by (unfold r32, ones; rewrite Z.lxor_0_l; lia).
  pose proof (r32_fold pre _ H0) as Hpre.
  apply fold_inj in E; [|now apply r32_crc_byte..].
  apply crc_byte_inj_byte in E; [contradiction|exact Hpre].
Qed.

Lemma update_range c bs : r32 c → r32 (update c bs).
Proof.
  intros Hc. unfold update.
  assert (Ho : r32 ones) by (unfold r32, ones; lia).
  apply r32_lxor; [|exact Ho]. apply r32_fold. now apply r32_lxor.
Qed.
End Crc32Facts.

(** ** The guards before the shard loop *)

Section Refusals.
Context `{Layout} `{Crc}.

Lemma split_too_many_shards fuel file_name max_shard_size w f :
  files w !! c_str file_name = Some f →
  max_shard_size ≠ 0 →
  shard_total (Z.of_nat (length (content f))) max_shard_size > 65535 →
  (length (content f) < fuel)%nat →
  split fuel file_name max_shard_size w = (Err BigFile, w).
Proof.
  intros Hf HM Hcount Hfuel.
  destruct (split_prologue fuel file_name max_shard_size w f Hf Hfuel) as (inp & _ & ->).
  cbn zeta. rewrite decide_False by exact HM.
  fold (shard_total (Z.of_nat (length (content f))) max_shard_size).
  now rewrite decide_True by exact Hcount.
Qed.

End Refusals.

(** ** The header codec *)

Lemma Z_of_byte_of_Z z : Z_of_byte (byte_of_Z z) = z mod 256.
Proof.
  unfold Z_of_byte, byte_of_Z.
  pose proof (Z.mod_pos_bound z 256 ltac:(lia)) as Hr.
  destruct (Byte.of_N (Z.to_N (z mod 256))) as [b|] eqn:E.
  - apply Byte.to_of_N in E. rewrite E. lia.
  - apply Byte.of_N_None_iff in E. lia.
Qed.

Lemma le_decode_encode n : ∀ z, le_decode (le_encode n z) = z mod 256 ^ Z.of_nat n.
Proof.
  induction n as [|n IH]; intros z; cbn [le_encode le_decode].
  - change (256 ^ Z.of_nat 0) with 1. now rewrite Z.mod_1_r.
  - rewrite Z_of_byte_of_Z, IH.
    replace (256 ^ Z.of_nat (S n)) with (256 * 256 ^ Z.of_nat n)
      by (rewrite Nat2Z.inj_succ, Z.pow_succ_r by lia; reflexivity).
    rewrite Z.rem_mul_r by lia. reflexivity.
Qed.

Lemma le_decode_encode_small n z :
  0 ≤ z < 256 ^ Z.of_nat n → le_decode (le_encode n z) = z.
Proof. intros Hz. rewrite le_decode_encode. now apply Z.mod_small. Qed.

Lemma slice_mid (pre x suf : list byte) off n :
  length pre = off → length x = n → slice off n (pre ++ x ++ suf) = x.
Proof.
  intros <- <-. unfold slice. rewrite drop_app_length. apply take_app_length.
Qed.

Section Codec.
Context `{Layout}.

Lemma decode_encode_hdr h : fits h → decode_hdr (encode_hdr h) = h.
Proof.
  intros [Hm Hi Hc Hos Hoc Hss Hsc Hn]. destruct h as [m i c os oc ss sc nm].
  cbn [magic shard_idx shard_count original_size original_crc shard_size shard_crc
       original_name] in *.
  unfold decode_hdr, encode_hdr.
  cbn [magic shard_idx shard_count original_size original_crc shard_size shard_crc
       original_name].
  rewrite (take_app_length' nm) by (symmetry; exact Hn).
  set (e1 := le_encode 4 m). set (e2 := le_encode 2 i). set (e3 := le_encode 2 c).
  set (e4 := le_encode 8 os). set (e5 := le_encode 4 oc).
  set (p1 := replicate pad_after_crc x00).
  set (e6 := le_encode 8 ss). set (e7 := le_encode 4 sc).
  set (p2 := replicate pad_tail x00).
  assert (L1 : length e1 = 4%nat) by apply le_encode_length.
  assert (L2 : length e2 = 2%nat) by apply le_encode_length.
  assert (L3 : length e3 = 2%nat) by apply le_encode_length.
  assert (L4 : length e4 = 8%nat) by apply le_encode_length.
  assert (L5 : length e5 = 4%nat) by apply le_encode_length.
  assert (L6 : length e6 = 8%nat) by apply le_encode_length.
  assert (L7 : length e7 = 4%nat) by apply le_encode_length.
  assert (P1 : length p1 = pad_after_crc) by apply length_replicate.
  f_equal.
  - transitivity (le_decode e1);
      [f_equal; apply (slice_mid [] e1); first [reflexivity|exact L1]|].
    apply le_decode_encode_small. cbn. lia.
  - rewrite (slice_mid e1 e2) by lia.
    apply le_decode_encode_small. cbn. lia.
  - rewrite (app_assoc e1 e2), (slice_mid (e1 ++ e2) e3) by (rewrite ?length_app; lia).
    apply le_decode_encode_small. cbn. lia.
  - rewrite (app_assoc e1 e2), (app_assoc _ e3), (slice_mid _ e4)
      by (rewrite ?length_app; lia).
    apply le_decode_encode_small. cbn. lia.
  - rewrite (app_assoc e1 e2), (app_assoc _ e3), (app_assoc _ e4), (slice_mid _ e5)
      by (rewrite ?length_app; lia).
    apply le_decode_encode_small. cbn. lia.
  - rewrite (app_assoc e1 e2), (app_assoc _ e3), (app_assoc _ e4), (app_assoc _ e5),
      (app_assoc _ p1), (slice_mid _ e6) by (rewrite ?length_app; lia).
    apply le_decode_encode_small. cbn. lia.
  - rewrite (app_assoc e1 e2), (app_assoc _ e3), (app_assoc _ e4), (app_assoc _ e5),
      (app_assoc _ p1), (app_assoc _ e6), (slice_mid _ e7) by (rewrite ?length_app; lia).
    apply le_decode_encode_small. cbn. lia.
  - rewrite (app_assoc e1 e2), (app_assoc _ e3), (app_assoc _ e4), (app_assoc _ e5),
      (app_assoc _ p1), (app_assoc _ e6), (app_assoc _ e7), (slice_mid _ nm)
      by (rewrite ?length_app; lia).
    reflexivity.
Qed.
End Codec.

(** ** The name in the header *)

Lemma ascii_nul_byte c : Ascii.byte_of_ascii c = x00 → Ascii.eqb c "000" = true.
Proof.
  intros E. apply Ascii.eqb_eq.
  rewrite <- (Ascii.ascii_of_byte_of_ascii c), E. reflexivity.
Qed.

Lemma nul_free_bytes s :
  nul_free s → Forall (λ b, b ≠ x00) (String.list_byte_of_string s).
Proof.
  unfold nul_free. induction s as [|c s IH]; intros Hs; [constructor|].
  cbn [c_str] in Hs. destruct (Ascii.eqb c "000") eqn:E; [discriminate|].
  injection Hs as Hs.
  change (String.list_byte_of_string (String c s))
    with (Ascii.byte_of_ascii c :: String.list_byte_of_string s).
  constructor; [|exact (IH Hs)].
  intros Hb. apply ascii_nul_byte in Hb. congruence.
Qed.

Lemma c_bytes_terminated bs rest :
  Forall (λ b, b ≠ x00) bs → c_bytes (bs ++ x00 :: rest) = bs.
Proof.
  induction 1 as [|b bs Hb _ IH]; cbn [c_bytes app].
  - now rewrite decide_True.
  - rewrite decide_False by exact Hb. now rewrite IH.
Qed.

Lemma list_byte_of_string_length s :
  length (String.list_byte_of_string s) = String.length s.
Proof.
  induction s as [|c s IH]; [reflexivity|].
  change (String.list_byte_of_string (String c s))
    with (Ascii.byte_of_ascii c :: String.list_byte_of_string s).
  cbn [length String.length]. now rewrite IH.
Qed.

Lemma name_field_length name :
  (String.length name ≤ name_capacity)%nat → length (name_field name) = name_capacity.
Proof.
  intros Hl. unfold name_field. rewrite length_app, length_replicate,
    list_byte_of_string_length. lia.
Qed.

(** [strcpy] followed by the C string functions gives the name back. *)
Lemma name_field_read name :
  nul_free name → (String.length name < name_capacity)%nat →
  String.string_of_list_byte (c_bytes (name_field name)) = name.
Proof.
  intros Hn Hl. unfold name_field.
  rewrite list_byte_of_string_length.
  destruct (name_capacity - String.length name)%nat as [|k] eqn:E; [lia|].
  cbn [replicate]. rewrite c_bytes_terminated by now apply nul_free_bytes.
  apply String.string_of_list_byte_of_string.
Qed.

Lemma strrchr_slash_nul_free s : ∀ t,
  nul_free s → strrchr_slash s = Some t → nul_free t.
Proof.
  unfold nul_free. induction s as [|c s IH]; intros t Hs E; [discriminate|].
  cbn [c_str] in Hs. destruct (Ascii.eqb c "000"); [discriminate|].
  injection Hs as Hs. cbn [strrchr_slash] in E.
  destruct (strrchr_slash s) as [t'|].
  - injection E as <-. now apply IH.
  - destruct (Ascii.eqb c "/"); [|discriminate]. now injection E as <-.
Qed.

Lemma strrchr_slash_length s : ∀ t,
  strrchr_slash s = Some t → (String.length t < String.length s)%nat.
Proof.
  induction s as [|c s IH]; intros t E; [discriminate|].
  cbn [strrchr_slash] in E. cbn [String.length].
  destruct (strrchr_slash s) as [t'|].
  - injection E as <-. specialize (IH _ eq_refl). lia.
  - destruct (Ascii.eqb c "/"); [|discriminate]. injection E as <-. lia.
Qed.

Lemma c_str_length s : (String.length (c_str s) ≤ String.length s)%nat.
Proof.
  induction s as [|c s IH]; [reflexivity|]. cbn [c_str].
  destruct (Ascii.eqb c "000"); cbn [String.length]; lia.
Qed.

Lemma base_name_nul_free file_name : nul_free (base_name file_name).
Proof.
  unfold base_name. destruct (strrchr_slash (c_str file_name)) as [t|] eqn:E.
  - eapply strrchr_slash_nul_free; [|exact E]. apply c_str_idemp.
  - apply c_str_idemp.
Qed.

Lemma base_name_length file_name :
  (String.length (base_name file_name) ≤ String.length file_name)%nat.
Proof.
  pose proof (c_str_length file_name) as Hc. unfold base_name.
  destruct (strrchr_slash (c_str file_name)) as [t|] eqn:E; [|exact Hc].
  apply strrchr_slash_length in E. lia.
Qed.

Lemma string_app_length (s t : string) :
  String.length (s +:+ t) = (String.length s + String.length t)%nat.
Proof.
  induction s as [|c s IH]; [reflexivity|].
  change (String c s +:+ t) with (String c (s +:+ t)).
  cbn [String.length]. now rewrite IH.
Qed.

(** No shard of a file has the name that the header records for it. *)
Lemma shard_path_not_base file_name idx count :
  nul_free file_name → shard_path file_name idx count ≠ base_name file_name.
Proof.
  intros Hn E. pose proof (base_name_length file_name) as Hl.
  rewrite <- E, shard_path_unfold, string_app_length in Hl by exact Hn.
  cbn [String.length] in Hl. lia.
Qed.

(** ** Joining a set of well-formed shards *)

Lemma concat_payloads k : ∀ cap data, concat (payloads k cap data) = take (k * cap) data.
Proof.
  induction k as [|k IH]; intros cap data; cbn [payloads concat]; [reflexivity|].
  rewrite IH, take_take_drop. f_equal.
Qed.

Lemma enough_lt fuel n : (n < fuel)%nat → enough fuel n.
Proof.
  pose proof buffer_size_pos as HB. unfold enough.
  set (B := Z.to_nat buffer_size) in *. nia.
Qed.

Lemma sorted_by_index (g : Z → string) (n : nat) : ∀ a,
  StronglySorted key_lt ((λ i, (i, g i)) <$> seqZ a (Z.of_nat n)).
Proof.
  induction n as [|n IH]; intros a.
  - cbn. constructor.
  - rewrite (seqZ_cons a) by lia. cbn [fmap list_fmap].
    replace (Z.pred (Z.of_nat (S n))) with (Z.of_nat n) by lia.
    constructor; [apply IH|].
    apply Forall_fmap, Forall_seqZ. intros i Hi. unfold key_lt. cbn. lia.
Qed.

Lemma index_keys (g : Z → string) (l : list Z) : ((λ i, (i, g i)) <$> l).*1 = l.
Proof. induction l as [|i l IH]; [reflexivity|]. cbn. now rewrite IH. Qed.

Section Restore.
Context `{Layout} `{Crc}.

Lemma probe_stored q h p md :
  fits h → magic h = expected_magic →
  shard_size h = header_size + Z.of_nat (length p) →
  probe q (Some (mk_file (encode_hdr h ++ p) md)) = Ok (mk_fd (c_str q) header_len, h).
Proof.
  intros Hfit Hmagic Hsize. unfold probe. cbn [content].
  rewrite length_app, encode_hdr_length.
  rewrite decide_False by (unfold header_size; lia).
  rewrite take_app_length' by (symmetry; apply encode_hdr_length).
  rewrite decode_encode_hdr by exact Hfit.
  rewrite decide_False; [reflexivity|].
  unfold header_size in *. lia.
Qed.

Section Appended.
Variables (fuel : nat) (dest : string) (path : Z → string)
  (hdr : Z → shard_hdr_t) (pay : Z → list byte).

Lemma append_shards_ok (idxs : list Z) : ∀ g tcrc w,
  files w !! dest = Some g →
  Forall (λ i, c_str (path i) ≠ dest
               ∧ (∃ md, files w !! c_str (path i)
                        = Some (mk_file (encode_hdr (hdr i) ++ pay i) md))
               ∧ fits (hdr i) ∧ magic (hdr i) = expected_magic
               ∧ shard_size (hdr i) = header_size + Z.of_nat (length (pay i))
               ∧ shard_crc (hdr i) = update_crc 0 (pay i)
               ∧ enough fuel (length (pay i))) idxs →
  ∃ w',
    append_shards fuel ((λ i, (i, path i)) <$> idxs) (mk_fd dest (length (content g))) tcrc w
    = (Ok (mk_fd dest (length (content g) + length (concat (pay <$> idxs))),
           update_crc tcrc (concat (pay <$> idxs))), w')
    ∧ files w' !! dest = Some (mk_file (content g ++ concat (pay <$> idxs)) (mode g)).
Proof.
  induction idxs as [|i idxs IH]; intros g tcrc w Hg Hall.
  - exists w. cbn. unfold ret. rewrite update_crc_nil, app_nil_r, Nat.add_0_r, file_eta.
    auto.
  - apply Forall_cons in Hall as [(Hne & [md Hi] & Hfit & Hmagic & Hsize & Hcrc & Hfuel) Hall].
    cbn [fmap list_fmap append_shards concat].
    unfold bind at 1. rewrite open_shard_probe, Hi.
    rewrite probe_stored by assumption.
    assert (Hdata : drop header_len (encode_hdr (hdr i) ++ pay i) = pay i).
    { rewrite <- (encode_hdr_length (hdr i)). apply drop_app_length. }
    pose proof (append_payload_ok fuel (c_str (path i)) header_len dest tcrc 0 w _ g
                  Hi Hg Hne) as Happ.
    cbn [content] in Happ. rewrite Hdata in Happ. specialize (Happ Hfuel).
    cbn zeta in Happ. rewrite (bind_ok _ _ _ _ _ Happ). cbn beta iota.
    rewrite decide_False by (intros Hd; apply Hd; exact Hcrc).
    set (w1 := mk_world _ _).
    set (g1 := mk_file (content g ++ pay i) (mode g)).
    assert (Hg1 : files w1 !! dest = Some g1) by apply lookup_insert_eq.
    destruct (IH g1 (update_crc tcrc (pay i)) w1 Hg1) as (w' & E & Hd).
    { eapply Forall_impl; [exact Hall|].
      intros j (Hnej & [mdj Hj] & Hrest). split; [exact Hnej|]. split; [|exact Hrest].
      exists mdj. subst w1. cbn [files]. rewrite lookup_insert_ne by congruence.
      exact Hj. }
    exists w'. subst g1. cbn [content mode] in E, Hd.
    rewrite length_app in E. rewrite update_crc_app in E.
    rewrite length_app, Nat.add_assoc, E, Hd, app_assoc. auto.
Qed.
End Appended.
End Restore.

Section RoundTrip.
Context `{Layout} `{Crc}.

Lemma shard_payloads_seq max_shard_size data k : ∀ a : nat,
  shard_payload max_shard_size data <$> seqZ (Z.of_nat a + 1) (Z.of_nat k)
  = payloads k (payload_cap max_shard_size) (drop (a * payload_cap max_shard_size) data).
Proof.
  induction k as [|k IH]; intros a; [reflexivity|].
  rewrite (seqZ_cons (Z.of_nat a + 1)) by lia. cbn [fmap list_fmap payloads].
  f_equal.
  - unfold shard_payload. do 3 f_equal. lia.
  - replace (Z.succ (Z.of_nat a + 1)) with (Z.of_nat (S a) + 1) by lia.
    replace (Z.pred (Z.of_nat (S k))) with (Z.of_nat k) by lia.
    rewrite IH, drop_drop. do 2 f_equal. lia.
Qed.

Lemma shard_payload_le max_shard_size data i :
  (length (shard_payload max_shard_size data i) ≤ length data)%nat.
Proof. unfold shard_payload. rewrite length_take, length_drop. lia. Qed.

(** X1: the shards of a source put together again give the source when
    their payloads cover it, that is when the size of the source is at most
    the number of shards times the payload bytes that a shard may hold:
    [split] followed by [join] on the shard files, in the order of their
    indices, succeeds and leaves the content of the source under its base
    name. *)
Theorem split_then_join_restores fuel file_name max_shard_size w f :
  let size := Z.of_nat (length (content f)) in
  let count := shard_total size max_shard_size in
  (∀ c bs, 0 ≤ c < 2 ^ 32 → 0 ≤ update_crc c bs < 2 ^ 32) →
  nul_free file_name →
  files w !! file_name = Some f →
  0 < size →
  0 < max_shard_size →
  size + header_size < 2 ^ 64 →
  count < 65535 →
  size ≤ count * Z.of_nat (payload_cap max_shard_size) →
  base_name file_name ≠ "" →
  (String.length (base_name file_name) < name_capacity)%nat →
  (length (content f) + Z.to_nat count < fuel)%nat →
  ∃ w1 w2,
    split fuel file_name max_shard_size w = (Ok tt, w1)
    ∧ join fuel ((λ i, make_shard_name file_name i count) <$> seqZ 1 count) w1 = (Ok tt, w2)
    ∧ content <$> files w2 !! base_name file_name = Some (content f).
Proof.
  intros size count Hrange Hnul Hf Hpos HM Hfit Hcount Hcover Hbase Hname Hfuel.
  assert (Hsize : size < 2 ^ 64) by (unfold header_size in Hfit; lia).
  destruct (split_shards fuel file_name max_shard_size w f Hnul Hf HM Hsize Hcount Hname Hfuel)
    as (w1 & evs & Hsplit & _ & _ & Hfiles).
  fold size count in Hfiles.
  set (data := content f) in *.
  set (path := λ i, make_shard_name file_name i count).
  set (hdr := shard_hdr_of file_name max_shard_size data).
  set (pay := shard_payload max_shard_size data).
  set (dest := base_name file_name).
  assert (Hc1 : 1 ≤ count).
  { destruct (decide (1 ≤ count)) as [|Hn]; [assumption|].
    pose proof (shard_total_nonneg size max_shard_size HM). fold count in H1. lia. }
  assert (Hcrc0 : 0 ≤ update_crc 0 data < 2 ^ 32) by (apply Hrange; lia).
  assert (Hstored : ∀ i, 1 ≤ i ≤ count →
            c_str (path i) ≠ dest
            ∧ (∃ md, files w1 !! c_str (path i) = Some (mk_file (encode_hdr (hdr i) ++ pay i) md))
            ∧ fits (hdr i) ∧ magic (hdr i) = expected_magic
            ∧ shard_size (hdr i) = header_size + Z.of_nat (length (pay i))
            ∧ shard_crc (hdr i) = update_crc 0 (pay i)
            ∧ enough fuel (length (pay i))).
  { intros i Hi. pose proof (shard_payload_le max_shard_size data i) as Hle. fold pay in Hle.
    assert (Hss : u64 (Z.of_nat (length (pay i)) + header_size)
                  = header_size + Z.of_nat (length (pay i))).
    { unfold u64. rewrite Z.mod_small; [lia|]. unfold header_size in *. lia. }
    split; [apply shard_path_not_base; exact Hnul|].
    split; [exact (proj1 (Hfiles i Hi))|].
    split.
    { constructor; cbn.
      - unfold expected_magic. lia.
      - lia.
      - fold size count. pose proof (shard_total_nonneg size max_shard_size HM).
        fold count in H1. lia.
      - fold size. lia.
      - exact Hcrc0.
      - fold pay. rewrite Hss. unfold header_size in *. lia.
      - apply Hrange. lia.
      - apply name_field_length. unfold dest in *. lia. }
    split; [reflexivity|]. split; [exact Hss|]. split; [reflexivity|].
    apply enough_lt. lia. }
  assert (Hhdr : ∀ i, 1 ≤ i ≤ count → hdr_at w1 (path i) = Some (hdr i)).
  { intros i Hi. destruct (Hstored i Hi) as (_ & [md Hmd] & Hfits & Hmg & Hss & _).
    unfold hdr_at. rewrite Hmd, probe_stored by assumption. reflexivity. }
  assert (Hnames : path <$> seqZ 1 count = path 1 :: (path <$> seqZ 2 (count - 1))).
  { rewrite (seqZ_cons 1) by lia. reflexivity. }
  set (m := (λ i, (i, path i)) <$> seqZ 1 count).
  assert (Hcollect : collect_shards (path <$> seqZ 2 (count - 1)) (hdr 1)
                       [(shard_idx (hdr 1), path 1)] w1 = (Ok m, w1)).
  { apply collect_shards_ok. split.
    - apply Forall_fmap, Forall_seqZ. intros i Hi. exists (hdr i).
      split; [apply Hhdr; lia|]. apply agree_iff. auto.
    - assert (Hentries : entry_of w1 <$> (path <$> seqZ 2 (count - 1))
                         = (λ i, (i, path i)) <$> seqZ 2 (count - 1)).
      { rewrite <- list_fmap_compose. apply Forall_fmap_ext_1, Forall_seqZ.
        intros i Hi. cbn. unfold entry_of. rewrite Hhdr by lia. reflexivity. }
      rewrite Hentries. change (shard_idx (hdr 1)) with 1.
      assert (Hs1 : StronglySorted key_lt [(1, path 1)]) by repeat constructor.
      destruct (emplace_all_nodup ((λ i, (i, path i)) <$> seqZ 2 (count - 1))
                  [(1, path 1)] Hs1) as [m' Hm'].
      { rewrite index_keys. cbn [fmap list_fmap fst]. apply NoDup_app. split; [apply NoDup_seqZ|].
        split; [|repeat constructor; apply not_elem_of_nil].
        intros i Hi%elem_of_seqZ Hi1%list_elem_of_singleton. lia. }
      rewrite Hm'. f_equal.
      apply emplace_all_some in Hm' as (_ & Hsm & Hpm); [|exact Hs1].
      apply (StronglySorted_unique key_lt); [exact Hsm| |].
      + subst m. rewrite <- (Z2Nat.id count) by lia. apply sorted_by_index.
      + rewrite Hpm. subst m. rewrite (seqZ_cons 1) by lia. cbn [fmap list_fmap].
        symmetry. apply Permutation_cons_append. }
  assert (Hdest : c_str (name_of (hdr 1)) = dest).
  { unfold name_of. cbn [hdr shard_hdr_of final_hdr first_hdr set_shard_crc set_shard_size
      set_shard_idx initial_hdr original_name].
    rewrite name_field_read by (apply base_name_nul_free || exact Hname).
    apply base_name_nul_free. }
  exists w1.
  rewrite Hnames, (join_reassemble fuel _ _ w1 (hdr 1) m (Hhdr 1 ltac:(lia))); cycle 1.
  { cbn [length]. rewrite length_fmap, length_seqZ. cbn. fold size count. lia. }
  { exact Hcollect. }
  assert (Hopen : c_str (name_of (hdr 1)) ≠ "") by (rewrite Hdest; exact Hbase).
  pose proof (open_rw_ok (name_of (hdr 1)) default_mode w1 Hopen) as Hrw.
  rewrite Hdest in Hrw.
  set (w2 := mk_world _ _) in Hrw. set (g := mk_file [] _) in w2.
  assert (Hg : files w2 !! dest = Some g) by apply lookup_insert_eq.
  destruct (append_shards_ok fuel dest path hdr pay (seqZ 1 count) g 0 w2 Hg)
    as (w3 & Happ & Hout).
  { apply Forall_seqZ. intros i Hi.
    destruct (Hstored i ltac:(lia)) as (Hne & [md Hmd] & Hrest).
    split; [exact Hne|]. split; [|exact Hrest].
    exists md. subst w2. cbn [files]. rewrite lookup_insert_ne by congruence. exact Hmd. }
  assert (Hall : concat (pay <$> seqZ 1 count) = data).
  { pose proof (shard_payloads_seq max_shard_size data (Z.to_nat count) 0) as Hps.
    rewrite Z2Nat.id in Hps by lia. change (Z.of_nat 0 + 1) with 1 in Hps.
    subst pay. rewrite Hps, concat_payloads. cbn [Nat.mul drop]. apply take_ge. fold data in size. lia. }
  rewrite Hall in Happ, Hout. cbn [content length Nat.add app] in Happ, Hout.
  fold m in Happ.
  exists w3. split; [exact Hsplit|]. split; [|rewrite Hout; reflexivity].
  unfold reassemble. rewrite (bind_ok _ _ _ _ _ Hrw). cbn beta iota.
  rewrite (bind_ok _ _ _ _ _ Happ). cbn beta iota.
  unfold tell. rewrite bind_ret. cbn [fd_pos].
  rewrite decide_False; [reflexivity|].
  cbn. fold data. tauto.
Qed.
End RoundTrip.

(** ** Joining a complete and intact set *)


Section Intact.
Context `{Layout} `{Crc}.



End Intact.

Section AnyOrder.
Context `{Layout} `{Crc}.

End AnyOrder.

(** ** The shard counter at its upper end *)

Lemma kept_refl w : kept w w.
Proof. intros q Hq. exact Hq. Qed.

Lemma kept_trans w1 w2 w3 : kept w1 w2 → kept w2 w3 → kept w1 w3.
Proof. intros H12 H23 q Hq. apply H23, H12, Hq. Qed.

Lemma kept_insert w p g l : kept w (mk_world (<[p := g]> (files w)) l).
Proof.
  intros q Hq. cbn [files]. destruct (decide (p = q)) as [->|Hne].
  - rewrite lookup_insert_eq. eauto.
  - now rewrite lookup_insert_ne.
Qed.

Lemma write_exactly_runs fd data w :
  is_Some (files w !! fd_path fd) →
  ∃ fd' w', write_exactly fd data w = (Ok fd', w') ∧ fd_path fd' = fd_path fd ∧ kept w w'.
Proof.
  intros [g Hg]. unfold write_exactly. destruct data as [|b data].
  - exists fd, w. auto using kept_refl.
  - rewrite Hg. eexists _, _. split; [reflexivity|]. split; [reflexivity|].
    apply kept_insert.
Qed.

Section Wrap.
Context `{Layout} `{Crc}.

Lemma crc_pass_runs fuel : ∀ inp crc w,
  is_Some (files w !! fd_path inp) →
  crc_pass fuel inp crc w = (OutOfFuel, w)
  ∨ ∃ inp' crc', crc_pass fuel inp crc w = (Ok (inp', crc'), w) ∧ fd_path inp' = fd_path inp.
Proof.
  induction fuel as [|fuel IH]; intros inp crc w [f Hf]; [now left|].
  cbn [crc_pass]. rewrite (bind_ok _ _ _ _ _ (read_at_most_ok inp buffer_size w f Hf)).
  cbn beta iota. destruct (take _ _) as [|b piece].
  - right. eexists _, _. split; reflexivity.
  - destruct (IH (mk_fd (fd_path inp) (fd_pos inp + length (b :: piece)))
                (update_crc crc (b :: piece)) w) as [E|(inp' & crc' & E & Hp)];
      [cbn [fd_path]; eauto|now left|].
    right. exists inp', crc'. split; [exact E|exact Hp].
Qed.

Lemma copy_payload_runs fuel : ∀ inp out crc n w,
  is_Some (files w !! fd_path inp) → is_Some (files w !! fd_path out) →
  ∃ r w', copy_payload fuel inp out crc n w = (r, w') ∧ kept w w'
    ∧ (r = OutOfFuel
       ∨ ∃ inp' out' crc', r = Ok (inp', out', crc')
           ∧ fd_path inp' = fd_path inp ∧ fd_path out' = fd_path out).
Proof.
  induction fuel as [|fuel IH]; intros inp out crc n w Hinp Hout.
  - exists OutOfFuel, w. auto using kept_refl.
  - cbn [copy_payload]. destruct (decide (n = 0)) as [|Hn].
    + eexists _, w. split; [reflexivity|]. split; [apply kept_refl|].
      right. eexists _, _, _. eauto.
    + destruct Hinp as [f Hf].
      rewrite (bind_ok _ _ _ _ _ (read_at_most_ok inp _ w f Hf)). cbn beta iota.
      set (piece := take _ _).
      destruct (write_exactly_runs out piece w Hout) as (out1 & w1 & Hw & Hp1 & Hk1).
      rewrite (bind_ok _ _ _ _ _ Hw).
      destruct (IH (mk_fd (fd_path inp) (fd_pos inp + length piece)) out1
                  (update_crc crc piece) (u64 (n - Z.of_nat (length piece))) w1)
        as (r & w' & E & Hk & Hr).
      { apply Hk1. cbn [fd_path]. eauto. }
      { rewrite Hp1. apply Hk1, Hout. }
      exists r, w'. split; [exact E|]. split; [eapply kept_trans; eassumption|].
      destruct Hr as [->|(inp' & out' & crc' & -> & Hi & Ho)]; [now left|].
      right. exists inp', out', crc'. cbn [fd_path] in Hi. rewrite Hp1 in Ho. auto.
Qed.

Lemma write_shard_runs fuel file_name m max_shard_size inp hdr in_size idx w :
  nul_free file_name → is_Some (files w !! fd_path inp) →
  ∃ r w', write_shard fuel file_name m max_shard_size inp hdr in_size idx w = (r, w')
    ∧ kept w w'
    ∧ (r = OutOfFuel
       ∨ ∃ inp' hdr' n, r = Ok (inp', hdr', n)
           ∧ fd_path inp' = fd_path inp ∧ shard_count hdr' = shard_count hdr).
Proof.
  intros Hnul Hinp. unfold write_shard.
  rewrite (bind_ok _ _ _ _ _ (open_rw_ok _ m w (shard_path_not_empty _ _ _ Hnul))).
  set (w0 := mk_world _ _).
  assert (Hk0 : kept w w0) by apply kept_insert.
  set (out0 := mk_fd _ 0).
  assert (Hout0 : is_Some (files w0 !! fd_path out0)).
  { subst w0 out0. cbn [files fd_path]. rewrite lookup_insert_eq. eauto. }
  set (hdr1 := set_shard_size _ _).
  destruct (write_exactly_runs out0 (encode_hdr hdr1) w0 Hout0) as (out1 & w1 & Hw1 & Hp1 & Hk1).
  rewrite (bind_ok _ _ _ _ _ Hw1).
  destruct (copy_payload_runs fuel inp out1 0
              (Z.min (u64 (max_shard_size - header_size)) in_size) w1)
    as (r & w2 & E & Hk2 & Hr).
  { apply Hk1, Hk0, Hinp. }
  { rewrite Hp1. apply Hk1, Hout0. }
  destruct Hr as [->|(inp' & out' & crc' & -> & Hi & Ho)].
  - exists OutOfFuel, w2. rewrite (bind_out_of_fuel _ _ _ _ E).
    split; [reflexivity|]. split; [|now left].
    eapply kept_trans; [exact Hk0|]. eapply kept_trans; eassumption.
  - rewrite (bind_ok _ _ _ _ _ E). cbn beta iota. unfold seek. rewrite bind_ret.
    destruct (write_exactly_runs (mk_fd (fd_path out') (Z.to_nat 0))
                (encode_hdr (set_shard_crc hdr1 crc')) w2) as (out3 & w3 & Hw3 & _ & Hk3).
    { cbn [fd_path]. rewrite Ho, Hp1. apply Hk2, Hk1, Hout0. }
    rewrite (bind_ok _ _ _ _ _ Hw3).
    eexists _, w3. split; [reflexivity|]. split.
    + eapply kept_trans; [exact Hk0|]. eapply kept_trans; [exact Hk1|].
      eapply kept_trans; eassumption.
    + right. eexists _, _, _. split; [reflexivity|]. split; [exact Hi|reflexivity].
Qed.

(** With 65535 shards to write the condition of the loop always holds: the
    counter is a [uint16_t] and wraps from 65535 to 0. *)
Lemma shard_loop_wraps file_name m max_shard_size fuel : ∀ inp hdr in_size idx w,
  nul_free file_name → is_Some (files w !! fd_path inp) →
  shard_count hdr = 65535 → 0 ≤ idx ≤ 65535 →
  (shard_loop fuel file_name m max_shard_size inp hdr in_size idx w).1 = OutOfFuel.
Proof.
  induction fuel as [|fuel IH]; intros inp hdr in_size idx w Hnul Hinp Hcount Hidx;
    [reflexivity|].
  cbn [shard_loop]. rewrite decide_True by lia.
  destruct (write_shard_runs fuel file_name m max_shard_size inp hdr in_size idx w Hnul Hinp)
    as (r & w' & E & Hk & [->|(inp' & hdr' & n & -> & Hi & Hc)]).
  - now rewrite (bind_out_of_fuel _ _ _ _ E).
  - rewrite (bind_ok _ _ _ _ _ E). cbn beta iota. apply IH.
    + exact Hnul.
    + rewrite Hi. apply Hk, Hinp.
    + congruence.
    + unfold u16. pose proof (Z.mod_pos_bound (idx + 1) (2 ^ 16) ltac:(lia)). lia.
Qed.

(** X2: a source that calls for exactly 65535 shards, the largest number
    that [split] lets through, is never split to the end: however much fuel
    the run is given, it does not come to a result. *)
Theorem split_65535_shards_never_ends fuel file_name max_shard_size w f :
  nul_free file_name →
  files w !! file_name = Some f →
  shard_total (Z.of_nat (length (content f))) max_shard_size = 65535 →
  (String.length (base_name file_name) < name_capacity)%nat →
  (split fuel file_name max_shard_size w).1 = OutOfFuel.
Proof.
  intros Hnul Hf Hcount Hname.
  assert (Hf' : files w !! c_str file_name = Some f) by (rewrite Hnul; exact Hf).
  assert (HM : max_shard_size ≠ 0).
  { intros ->. unfold shard_total in Hcount. rewrite Z.div_0_r in Hcount. discriminate. }
  unfold split.
  rewrite (bind_ok _ _ _ _ _ (open_ro_ok file_name w f Hf')). cbn beta iota.
  rewrite (bind_ok _ _ _ _ _ (get_size_and_mode_ok (mk_fd (c_str file_name) 0) w f Hf')).
  cbn beta iota.
  destruct (crc_pass_runs fuel (mk_fd (c_str file_name) 0) 0 w) as [E|(inp' & crc' & E & Hp)];
    [cbn [fd_path]; eauto|now rewrite (bind_out_of_fuel _ _ _ _ E)|].
  rewrite (bind_ok _ _ _ _ _ E). cbn beta iota. unfold seek. rewrite bind_ret.
  rewrite decide_False by exact HM.
  fold (shard_total (Z.of_nat (length (content f))) max_shard_size). rewrite Hcount.
  rewrite decide_False by lia.
  rewrite decide_False by lia.
  apply shard_loop_wraps.
  - exact Hnul.
  - cbn [fd_path]. rewrite Hp. cbn [fd_path]. eauto.
  - reflexivity.
  - lia.
Qed.
End Wrap.

(** ** What [split] leaves alone *)

Lemma write_exactly_elsewhere fd data w r w' :
  write_exactly fd data w = (r, w') →
  (∀ q, q ≠ fd_path fd → files w' !! q = files w !! q)
  ∧ (∀ fd', r = Ok fd' → fd_path fd' = fd_path fd).
Proof.
  unfold write_exactly. destruct data as [|b data].
  - intros [= <- <-]. split; [reflexivity|]. now intros fd' [= <-].
  - destruct (files w !! fd_path fd) as [g|]; intros [= <- <-].
    + split; [|now intros fd' [= <-]].
      intros q Hq. cbn [files]. now rewrite lookup_insert_ne.
    + split; [reflexivity|discriminate].
Qed.

Lemma open_rw_elsewhere path m w r w' :
  open_rw path m w = (r, w') →
  (∀ q, q ≠ c_str path → files w' !! q = files w !! q)
  ∧ (∀ fd, r = Ok fd → fd_path fd = c_str path).
Proof.
  unfold open_rw. destruct (decide (c_str path = "")); intros [= <- <-].
  - split; [reflexivity|discriminate].
  - split; [|now intros fd [= <-]].
    intros q Hq. cbn [files]. now rewrite lookup_insert_ne.
Qed.

Section Untouched.
Context `{Layout} `{Crc}.

Lemma crc_pass_world fuel : ∀ inp crc w r w', crc_pass fuel inp crc w = (r, w') → w' = w.
Proof.
  induction fuel as [|fuel IH]; intros inp crc w r w'; cbn [crc_pass].
  - now intros [= _ <-].
  - unfold bind, read_at_most. destruct (files w !! fd_path inp) as [f|].
    + destruct (take _ _); [now intros [= _ <-]|apply IH].
    + now intros [= _ <-].
Qed.

Lemma copy_payload_elsewhere fuel : ∀ inp out crc n w r w',
  copy_payload fuel inp out crc n w = (r, w') →
  (∀ q, q ≠ fd_path out → files w' !! q = files w !! q)
  ∧ (∀ inp' out' crc', r = Ok (inp', out', crc') → fd_path out' = fd_path out).
Proof.
  induction fuel as [|fuel IH]; intros inp out crc n w r w'; cbn [copy_payload].
  - intros [= <- <-]. split; [reflexivity|discriminate].
  - destruct (decide (n = 0)).
    { intros [= <- <-]. split; [reflexivity|]. now intros ? ? ? [= _ <- _]. }
    unfold bind at 1, read_at_most. destruct (files w !! fd_path inp) as [f|].
    2: { intros [= <- <-]. split; [reflexivity|discriminate]. }
    set (piece := take _ _). unfold bind at 1.
    destruct (write_exactly out piece w) as [[out1| |] w1] eqn:Ew;
      apply write_exactly_elsewhere in Ew as [Kw Kp].
    + intros E. apply IH in E as [Kq Ko]. rewrite (Kp out1 eq_refl) in Kq, Ko.
      split; [|exact Ko]. intros q Hq. rewrite <- (Kw q Hq). now apply Kq.
    + intros [= <- <-]. split; [exact Kw|discriminate].
    + intros [= <- <-]. split; [exact Kw|discriminate].
Qed.

Lemma write_shard_elsewhere fuel file_name m max_shard_size inp hdr in_size idx w r w' :
  write_shard fuel file_name m max_shard_size inp hdr in_size idx w = (r, w') →
  ∀ q, q ≠ shard_path file_name idx (shard_count hdr) → files w' !! q = files w !! q.
Proof.
  unfold write_shard, shard_path. intros E q Hq.
  unfold bind at 1 in E.
  destruct (open_rw _ m w) as [[out0| |] w0] eqn:E0;
    apply open_rw_elsewhere in E0 as [K0 P0];
    [|injection E as _ <-; now apply K0..].
  specialize (P0 out0 eq_refl).
  unfold bind at 1 in E.
  destruct (write_exactly out0 _ w0) as [[out1| |] w1] eqn:E1;
    apply write_exactly_elsewhere in E1 as [K1 P1];
    [|injection E as _ <-; rewrite K1, K0 by congruence; reflexivity..].
  specialize (P1 out1 eq_refl).
  unfold bind at 1 in E.
  destruct (copy_payload fuel inp out1 0 _ w1) as [[[[inp2 out2] crc2]| |] w2] eqn:E2;
    apply copy_payload_elsewhere in E2 as [K2 P2];
    [|injection E as _ <-; rewrite K2, K1, K0 by congruence; reflexivity..].
  specialize (P2 _ _ _ eq_refl).
  unfold seek in E. rewrite bind_ret in E. unfold bind at 1 in E.
  destruct (write_exactly _ _ w2) as [[out3| |] w3] eqn:E3;
    apply write_exactly_elsewhere in E3 as [K3 _]; cbn [fd_path] in K3;
    injection E as _ <-;
    rewrite K3, K2, K1, K0 by congruence; reflexivity.
Qed.

Lemma shard_loop_elsewhere file_name m max_shard_size fuel : ∀ inp hdr in_size idx w r w',
  shard_loop fuel file_name m max_shard_size inp hdr in_size idx w = (r, w') →
  ∀ q, (∀ i c, q ≠ shard_path file_name i c) → files w' !! q = files w !! q.
Proof.
  induction fuel as [|fuel IH]; intros inp hdr in_size idx w r w'; cbn [shard_loop].
  - now intros [= _ <-].
  - destruct (decide (idx ≤ shard_count hdr)); [|now intros [= _ <-]].
    unfold bind at 1.
    destruct (write_shard fuel file_name m max_shard_size inp hdr in_size idx w)
      as [[[[inp1 hdr1] n1]| |] w1] eqn:E1; intros E q Hq;
      pose proof (write_shard_elsewhere _ _ _ _ _ _ _ _ _ _ _ E1 q (Hq _ _)) as K1.
    + rewrite <- K1. eapply IH; eassumption.
    + now injection E as _ <-.
    + now injection E as _ <-.
Qed.

(** X3: [split] writes to its shard files only.  Whatever the outcome of the
    run, a file whose path is not the name of a shard of the source is after
    the run what it was before; the source itself is among these files. *)
Theorem split_touches_only_shards fuel file_name max_shard_size w r w' :
  split fuel file_name max_shard_size w = (r, w') →
  (∀ q, (∀ i c, q ≠ shard_path file_name i c) → files w' !! q = files w !! q)
  ∧ (nul_free file_name → files w' !! file_name = files w !! file_name).
Proof.
  intros E.
  assert (K : ∀ q, (∀ i c, q ≠ shard_path file_name i c) → files w' !! q = files w !! q).
  { intros q Hq. unfold split in E. unfold bind at 1, open_ro in E.
    destruct (files w !! c_str file_name) as [f|] eqn:Hf; [|now injection E as _ <-].
    unfold bind at 1, get_size_and_mode in E. cbn [fd_path] in E. rewrite Hf in E.
    unfold bind at 1 in E.
    destruct (crc_pass fuel _ 0 w) as [[[inp crc]| |] w1] eqn:E1;
      apply crc_pass_world in E1 as ->; [|now injection E as _ <-..].
    unfold seek in E. rewrite bind_ret in E.
    destruct (decide (max_shard_size = 0)); [now injection E as _ <-|].
    destruct (decide (_ > 65535)); [now injection E as _ <-|].
    destruct (decide (_ ≤ _)); [now injection E as _ <-|].
    eapply shard_loop_elsewhere; eassumption. }
  split; [exact K|].
  intros Hnul. apply K. intros i c Heq.
  apply (shard_path_not_source file_name i c Hnul). rewrite Hnul. now symmetry.
Qed.

(** The shard loop ends in success or not at all. *)
Lemma shard_loop_runs file_name m max_shard_size fuel : ∀ inp hdr in_size idx w,
  nul_free file_name → is_Some (files w !! fd_path inp) →
  ∃ r w', shard_loop fuel file_name m max_shard_size inp hdr in_size idx w = (r, w')
          ∧ (r = OutOfFuel ∨ r = Ok tt).
Proof.
  induction fuel as [|fuel IH]; intros inp hdr in_size idx w Hnul Hinp; cbn [shard_loop].
  - exists OutOfFuel, w. auto.
  - destruct (decide (idx ≤ shard_count hdr)); [|exists (Ok tt), w; auto].
    destruct (write_shard_runs fuel file_name m max_shard_size inp hdr in_size idx w Hnul Hinp)
      as (r & w1 & E & Hk & [->|(inp' & hdr' & n & -> & Hi & _)]).
    + exists OutOfFuel, w1. rewrite (bind_out_of_fuel _ _ _ _ E). auto.
    + rewrite (bind_ok _ _ _ _ _ E). cbn beta iota. apply IH; [exact Hnul|].
      rewrite Hi. apply Hk, Hinp.
Qed.

(** X4: the errors that [split] raises itself, that is, those that do not
    come from the file system, are raised before the first shard is created.
    A run that ends in such an error has changed nothing, and the error is
    one of three: the limit is zero, the source calls for more than 65535
    shards, or its name does not fit the header. *)
Theorem split_error_changes_nothing fuel file_name max_shard_size w e w' :
  nul_free file_name →
  split fuel file_name max_shard_size w = (Err e, w') →
  classify e ≠ IOError →
  w' = w ∧ (e = DivideByZero ∨ e = BigFile ∨ e = NameTooLong).
Proof.
  intros Hnul E Hclass. unfold split in E. unfold bind at 1, open_ro in E.
  destruct (files w !! c_str file_name) as [f|] eqn:Hf.
  2: { injection E as <- <-. now destruct Hclass. }
  unfold bind at 1, get_size_and_mode in E. cbn [fd_path] in E. rewrite Hf in E.
  destruct (crc_pass_runs fuel (mk_fd (c_str file_name) 0) 0 w) as [E1|(inp & crc & E1 & Hp)];
    [cbn [fd_path]; eauto|rewrite (bind_out_of_fuel _ _ _ _ E1) in E; discriminate|].
  rewrite (bind_ok _ _ _ _ _ E1) in E. cbn beta iota in E.
  unfold seek in E. rewrite bind_ret in E.
  destruct (decide (max_shard_size = 0)); [injection E as <- <-; auto|].
  destruct (decide (_ > 65535)); [injection E as <- <-; auto|].
  destruct (decide (_ ≤ _)); [injection E as <- <-; auto 6|].
  exfalso.
  edestruct (shard_loop_runs file_name (mode f) max_shard_size fuel) as (r & w1 & E2 & Hr);
    [exact Hnul| |rewrite E2 in E; destruct Hr as [->| ->]; discriminate].
  cbn [fd_path]. rewrite Hp. cbn [fd_path]. eauto.
Qed.
End Untouched.

(** ** The shards that [split] leaves *)

(** X5: the names of the shards of one source are pairwise distinct, and
    none of them is the path of the source. *)
Theorem make_shard_name_inj path i j c d :
  0 ≤ i → 0 ≤ j → 0 ≤ c → 0 ≤ d →
  (make_shard_name path i c = make_shard_name path j d → i = j ∧ c = d)
  ∧ make_shard_name path i c ≠ path.
Proof.
  intros Hi Hj Hc Hd. unfold make_shard_name. split.
  - intros E. apply (inj (String.app path)) in E.
    change (String "@" (pretty (Z.to_N i) +:+ String "." (pretty (Z.to_N c)))
            = String "@" (pretty (Z.to_N j) +:+ String "." (pretty (Z.to_N d)))) in E.
    injection E as E.
    pose proof (plain_dot_inj _ _ _ _ (pretty_N_plain _) (pretty_N_plain _) E) as Eij.
    rewrite Eij in E. apply (inj (String.app _)) in E. injection E as E.
    apply (inj pretty) in Eij. apply (inj pretty) in E. lia.
  - intros E. apply string_app_nil_inv in E. discriminate.
Qed.

Section Stored.
Context `{Layout} `{Crc}.

Lemma shard_hdr_of_fits file_name max_shard_size data i :
  (∀ c bs, 0 ≤ c < 2 ^ 32 → 0 ≤ update_crc c bs < 2 ^ 32) →
  0 < max_shard_size →
  Z.of_nat (length data) < 2 ^ 64 →
  shard_total (Z.of_nat (length data)) max_shard_size < 65535 →
  (String.length (base_name file_name) < name_capacity)%nat →
  0 ≤ i < 2 ^ 16 →
  fits (shard_hdr_of file_name max_shard_size data i).
Proof.
  intros Hrange HM Hsize Hcount Hname Hi.
  pose proof (shard_total_nonneg (Z.of_nat (length data)) max_shard_size HM) as Hc0.
  constructor; cbn.
  - unfold expected_magic. lia.
  - exact Hi.
  - lia.
  - lia.
  - apply Hrange. lia.
  - unfold u64. apply Z.mod_pos_bound. lia.
  - apply Hrange. lia.
  - apply name_field_length. lia.
Qed.

(** X6: every shard file that [split] leaves is a shard for [open_shard],
    and the header read back from it holds the index of the shard, the
    number of shards, the size and the checksum of the source, the size of
    the shard file, the checksum of its payload and the base name of the
    source. *)
Theorem split_shards_open fuel file_name max_shard_size w f :
  let data := content f in
  let size := Z.of_nat (length data) in
  let count := shard_total size max_shard_size in
  (∀ c bs, 0 ≤ c < 2 ^ 32 → 0 ≤ update_crc c bs < 2 ^ 32) →
  nul_free file_name →
  files w !! file_name = Some f →
  0 < max_shard_size →
  size + header_size < 2 ^ 64 →
  count < 65535 →
  (String.length (base_name file_name) < name_capacity)%nat →
  (length data + Z.to_nat count < fuel)%nat →
  ∃ w',
    split fuel file_name max_shard_size w = (Ok tt, w')
    ∧ ∀ i, 1 ≤ i ≤ count →
        ∃ fd h g,
          open_shard (make_shard_name file_name i count) w' = (Ok (fd, h), w')
          ∧ files w' !! shard_path file_name i count = Some g
          ∧ magic h = expected_magic
          ∧ shard_idx h = i
          ∧ shard_count h = count
          ∧ original_size h = size
          ∧ original_crc h = update_crc 0 data
          ∧ shard_size h = Z.of_nat (length (content g))
          ∧ shard_crc h = update_crc 0 (payload g)
          ∧ name_of h = base_name file_name.
Proof.
  intros data size count Hrange Hnul Hf HM Hfit Hcount Hname Hfuel.
  assert (Hsize : size < 2 ^ 64) by (unfold header_size in Hfit; lia).
  destruct (split_shards fuel file_name max_shard_size w f Hnul Hf HM Hsize Hcount Hname Hfuel)
    as (w' & evs & Hsplit & _ & _ & Hfiles).
  fold data size count in Hfiles.
  exists w'. split; [exact Hsplit|]. intros i Hi.
  destruct (Hfiles i Hi) as [[md Hmd] _].
  set (h := shard_hdr_of file_name max_shard_size data i) in *.
  set (p := shard_payload max_shard_size data i) in *.
  pose proof (shard_payload_le max_shard_size data i) as Hle. fold p in Hle.
  assert (Hss : shard_size h = header_size + Z.of_nat (length p)).
  { cbn. fold p. unfold u64. rewrite Z.mod_small; [lia|].
    unfold header_size in *. fold data in size. lia. }
  assert (Hfits : fits h).
  { apply shard_hdr_of_fits; try assumption. lia. }
  exists (mk_fd (c_str (make_shard_name file_name i count)) header_len), h,
    (mk_file (encode_hdr h ++ p) md).
  split.
  { rewrite open_shard_probe. fold (shard_path file_name i count). rewrite Hmd.
    rewrite probe_stored by (assumption || reflexivity). reflexivity. }
  split; [exact Hmd|].
  do 5 (split; [reflexivity|]).
  split.
  { rewrite Hss. cbn [content]. rewrite length_app, encode_hdr_length.
    unfold header_size. lia. }
  split.
  { rewrite payload_of_shard. reflexivity. }
  unfold name_of. cbn.
  apply name_field_read; [apply base_name_nul_free|exact Hname].
Qed.

(** X7: the payloads of the shards, put one after the other in the order
    of their indices, are the first (shard count) * (payload bytes per
    shard) bytes of the source: no byte is written twice or out of order,
    and the bytes of the source past that length are in no shard. *)
Theorem split_payloads_tile fuel file_name max_shard_size w f :
  let data := content f in
  let size := Z.of_nat (length data) in
  let count := shard_total size max_shard_size in
  nul_free file_name →
  files w !! file_name = Some f →
  0 < max_shard_size →
  size < 2 ^ 64 →
  count < 65535 →
  (String.length (base_name file_name) < name_capacity)%nat →
  (length data + Z.to_nat count < fuel)%nat →
  ∃ w',
    split fuel file_name max_shard_size w = (Ok tt, w')
    ∧ concat ((λ i, from_option payload [] (files w' !! shard_path file_name i count))
              <$> seqZ 1 count)
      = take (Z.to_nat count * payload_cap max_shard_size) data.
Proof.
  intros data size count Hnul Hf HM Hsize Hcount Hname Hfuel.
  destruct (split_shards fuel file_name max_shard_size w f Hnul Hf HM Hsize Hcount Hname Hfuel)
    as (w' & evs & Hsplit & _ & _ & Hfiles).
  fold data size count in Hfiles.
  pose proof (shard_total_nonneg size max_shard_size HM) as Hc0. fold count in Hc0.
  exists w'. split; [exact Hsplit|].
  assert (Hmap : (λ i, from_option payload [] (files w' !! shard_path file_name i count))
                 <$> seqZ 1 count
                 = shard_payload max_shard_size data <$> seqZ 1 count).
  { apply Forall_fmap_ext_1, Forall_seqZ. intros i Hi.
    destruct (Hfiles i ltac:(lia)) as [[md Hmd] _]. rewrite Hmd. cbn [from_option].
    apply payload_of_shard. }
  rewrite Hmap.
  pose proof (shard_payloads_seq max_shard_size data (Z.to_nat count) 0) as Hps.
  rewrite Z2Nat.id in Hps by lia. change (Z.of_nat 0 + 1) with 1 in Hps.
  rewrite Hps, concat_payloads. reflexivity.
Qed.
End Stored.

(** ** What [join] has done when it returns *)

Lemma write_exactly_grows fd data w r w' :
  write_exactly fd data w = (r, w') →
  kept w w' ∧ (∃ evs, log w' = log w ++ evs) ∧ (∀ e, r = Err e → classify e = IOError).
Proof.
  unfold write_exactly. destruct data as [|b data].
  - intros [= <- <-]. split; [apply kept_refl|]. split; [|discriminate].
    exists []. now rewrite app_nil_r.
  - destruct (files w !! fd_path fd) as [g|]; intros [= <- <-].
    + split; [apply kept_insert|]. split; [|discriminate]. cbn [log]. eauto.
    + split; [apply kept_refl|]. split; [|now intros e [= <-]].
      exists []. now rewrite app_nil_r.
Qed.

Section Returns.
Context `{Layout} `{Crc}.

Lemma probe_err_class p o e :
  probe p o = Err e → classify e = IOError ∨ classify e = FormatError.
Proof.
  unfold probe. destruct o as [f|]; [|intros [= <-]; now left].
  destruct (decide _); [intros [= <-]; now right|].
  destruct (decide _); [intros [= <-]; now right|discriminate].
Qed.

Lemma append_payload_grows fuel : ∀ inp out tcrc scrc w r w',
  append_payload fuel inp out tcrc scrc w = (r, w') →
  kept w w' ∧ (∃ evs, log w' = log w ++ evs) ∧ (∀ e, r = Err e → classify e = IOError).
Proof.
  induction fuel as [|fuel IH]; intros inp out tcrc scrc w r w'; cbn [append_payload].
  - intros [= <- <-]. split; [apply kept_refl|]. split; [|discriminate].
    exists []. now rewrite app_nil_r.
  - unfold bind at 1, read_at_most. destruct (files w !! fd_path inp) as [f|].
    2: { intros [= <- <-]. split; [apply kept_refl|]. split; [|now intros e [= <-]].
         exists []. now rewrite app_nil_r. }
    destruct (take _ _) as [|b piece] eqn:Hpiece.
    { intros [= <- <-]. split; [apply kept_refl|]. split; [|discriminate].
      exists []. now rewrite app_nil_r. }
    unfold bind at 1.
    destruct (write_exactly out (b :: piece) w) as [[out1| |] w1] eqn:Ew;
      apply write_exactly_grows in Ew as (Kk & [evs1 Kl] & Ke).
    + intros E. apply IH in E as (Kk2 & [evs2 Kl2] & Ke2).
      split; [eapply kept_trans; eassumption|]. split; [|exact Ke2].
      exists (evs1 ++ evs2). now rewrite Kl2, Kl, app_assoc.
    + intros [= <- <-]. split; [exact Kk|]. split; [eauto|]. intros e0 [= <-]. now apply Ke.
    + intros [= <- <-]. split; [exact Kk|]. split; [eauto|discriminate].
Qed.

Lemma append_shards_grows fuel (m : shard_map_t) : ∀ out tcrc w r w',
  append_shards fuel m out tcrc w = (r, w') →
  kept w w' ∧ (∃ evs, log w' = log w ++ evs)
  ∧ (∀ e, r = Err e → classify e ≠ ConsistencyError).
Proof.
  induction m as [|[k q] m IH]; intros out tcrc w r w'; cbn [append_shards].
  - intros [= <- <-]. split; [apply kept_refl|]. split; [|discriminate].
    exists []. now rewrite app_nil_r.
  - unfold bind at 1. rewrite open_shard_probe.
    destruct (probe q (files w !! c_str q)) as [[inp h]|e0|] eqn:Hprobe.
    2: { intros [= <- <-]. split; [apply kept_refl|]. split.
         - exists []. now rewrite app_nil_r.
         - intros e [= <-]. apply probe_err_class in Hprobe as [-> | ->]; discriminate. }
    2: { intros [= <- <-]. split; [apply kept_refl|]. split; [|discriminate].
         exists []. now rewrite app_nil_r. }
    unfold bind at 1.
    destruct (append_payload fuel inp out tcrc 0 w) as [[[[out1 tcrc1] crc1]| |] w1] eqn:Ea;
      apply append_payload_grows in Ea as (Kk & [evs1 Kl] & Ke).
    + destruct (decide (shard_crc h ≠ crc1)).
      * intros [= <- <-]. split; [exact Kk|]. split; [eauto|]. now intros e [= <-].
      * intros E. apply IH in E as (Kk2 & [evs2 Kl2] & Ke2).
        split; [eapply kept_trans; eassumption|]. split; [|exact Ke2].
        exists (evs1 ++ evs2). now rewrite Kl2, Kl, app_assoc.
    + intros [= <- <-]. split; [exact Kk|]. split; [eauto|].
      intros e0 [= <-]. rewrite (Ke e eq_refl). discriminate.
    + intros [= <- <-]. split; [exact Kk|]. split; [eauto|discriminate].
Qed.

Lemma collect_shards_err rest : ∀ master m w e w',
  collect_shards rest master m w = (Err e, w') →
  classify e = IOError ∨ classify e = FormatError ∨ classify e = ConsistencyError.
Proof.
  induction rest as [|p rest IH]; intros master m w e w'; cbn [collect_shards];
    [discriminate|].
  unfold bind. rewrite open_shard_probe.
  destruct (probe p (files w !! c_str p)) as [[fd h]|e0|] eqn:Hprobe; [| |discriminate].
  - destruct (decide (mismatch h master)); [intros [= <- _]; auto|].
    destruct (emplace (shard_idx h) p m) as [m1 [|]]; [apply IH|intros [= <- _]; auto].
  - intros [= <- _]. apply probe_err_class in Hprobe as [-> | ->]; auto.
Qed.

Lemma collect_shards_ends rest : ∀ master m w w',
  collect_shards rest master m w ≠ (OutOfFuel, w').
Proof.
  induction rest as [|q rest IH]; intros master m w w'; cbn [collect_shards]; [discriminate|].
  unfold bind. rewrite open_shard_probe.
  destruct (probe q _) as [[fd h]| |] eqn:Hq.
  - destruct (decide _); [discriminate|].
    destruct (emplace _ _ _) as [m1 [|]]; [apply IH|discriminate].
  - discriminate.
  - unfold probe in Hq. destruct (files w !! c_str q); [|discriminate].
    repeat destruct (decide _); discriminate.
Qed.

(** X8: the errors of [join] about the shard set as a whole (no paths, a
    wrong number of paths, a header that does not match the first one, an
    index that occurs twice) are raised before the destination is opened:
    the run has changed nothing. *)
Theorem join_consistency_error_changes_nothing fuel file_names w e w' :
  join fuel file_names w = (Err e, w') → classify e = ConsistencyError → w' = w.
Proof.
  destruct file_names as [|first rest]; [now intros [= _ <-]|].
  unfold join. unfold bind at 1. rewrite open_shard_probe.
  destruct (probe first (files w !! c_str first)) as [[fd master]| |];
    [|now intros [= _ <-]..].
  destruct (decide (_ ≠ _)); [now intros [= _ <-]|].
  unfold bind at 1.
  destruct (collect_shards rest master _ w) as [[m| |] w1] eqn:Ec;
    apply collect_shards_world in Ec as ->; [|now intros [= _ <-]..].
  unfold reassemble. unfold bind at 1.
  destruct (open_rw (name_of master) default_mode w) as [[out| |] w1] eqn:Eo.
  - unfold bind at 1.
    destruct (append_shards fuel m out 0 w1) as [[[out2 crc2]| |] w2] eqn:Ea;
      apply append_shards_grows in Ea as (_ & _ & Ke).
    + unfold tell. rewrite bind_ret. destruct (decide _); [|discriminate].
      intros [= <- _]. discriminate.
    + intros [= <- _] Hc. now destruct (Ke e0 eq_refl).
    + discriminate.
  - unfold open_rw in Eo. destruct (decide _); [|discriminate].
    injection Eo as <- <-. intros [= <- _]. discriminate.
  - unfold open_rw in Eo. destruct (decide _); discriminate.
Qed.

(** X9: when [join] fails with a corruption error (a damaged shard, or an
    output that does not match the first header), the destination has
    already been created or emptied, and it is left behind. *)
Theorem join_corruption_leaves_output fuel file_names w e w' :
  join fuel file_names w = (Err e, w') → classify e = CorruptionError →
  is_Some (files w' !! destination w file_names)
  ∧ ∃ evs, log w' = log w ++ EvCreate (destination w file_names) default_mode :: evs.
Proof.
  destruct file_names as [|first rest]; [now intros [= <- _]|].
  unfold join, destination, hdr_at. unfold bind at 1. rewrite open_shard_probe.
  destruct (probe first (files w !! c_str first)) as [[fd master]|e0|] eqn:Hprobe;
    [| |discriminate].
  2: { intros [= <- _]. apply probe_err_class in Hprobe as [-> | ->]; discriminate. }
  destruct (decide (_ ≠ _)); [now intros [= <- _]|].
  unfold bind at 1.
  destruct (collect_shards rest master _ w) as [[m|e0|] w1] eqn:Ec; [| |discriminate].
  2: { intros [= <- _] Hc. apply collect_shards_err in Ec as [Hx|[Hx|Hx]]; congruence. }
  apply collect_shards_world in Ec as ->.
  unfold reassemble. unfold bind at 1.
  destruct (decide (c_str (name_of master) = "")) as [Hd|Hd].
  { unfold open_rw. rewrite decide_True by exact Hd. intros [= <- _]. discriminate. }
  rewrite open_rw_ok by exact Hd.
  set (dest := c_str (name_of master)). set (w1 := mk_world _ _).
  assert (Hdest : is_Some (files w1 !! dest)).
  { subst w1. cbn [files]. rewrite lookup_insert_eq. eauto. }
  unfold bind at 1.
  destruct (append_shards fuel m (mk_fd dest 0) 0 w1) as [[[out2 crc2]| |] w2] eqn:Ea;
    apply append_shards_grows in Ea as (Kk & [evs Kl] & _).
  - unfold tell. rewrite bind_ret. destruct (decide _); [|discriminate].
    intros [= _ <-] _. split; [apply Kk, Hdest|].
    exists evs. rewrite Kl. subst w1. cbn [log]. now rewrite <- app_assoc.
  - intros [= _ <-] _. split; [apply Kk, Hdest|].
    exists evs. rewrite Kl. subst w1. cbn [log]. now rewrite <- app_assoc.
  - discriminate.
Qed.
End Returns.

Section Sound.
Context `{Layout} `{Crc}.

Lemma hdr_at_inv w p h :
  hdr_at w p = Some h →
  ∃ f, files w !! c_str p = Some f
       ∧ h = decode_hdr (take header_len (content f))
       ∧ magic h = expected_magic
       ∧ shard_size h = Z.of_nat (length (content f))
       ∧ (header_len ≤ length (content f))%nat.
Proof.
  unfold hdr_at, probe. destruct (files w !! c_str p) as [f|]; [|discriminate].
  destruct (decide _) as [|Hlen]; [discriminate|].
  destruct (decide _) as [|Hok]; [discriminate|]. intros [= <-].
  exists f. split; [reflexivity|]. split; [reflexivity|].
  apply Decidable.not_or in Hok as [Hm Hs]. apply dec_stable in Hm. apply dec_stable in Hs.
  unfold header_size in Hlen. repeat split; [exact Hm|exact Hs|lia].
Qed.

Lemma append_shards_sound fuel (m : shard_map_t) : ∀ opath g tcrc w out crc w',
  files w !! opath = Some g →
  Forall (λ e, c_str e.2 ≠ opath) m →
  append_shards fuel m (mk_fd opath (length (content g))) tcrc w = (Ok (out, crc), w') →
  let data := concat ((λ e, from_option payload [] (files w !! c_str e.2)) <$> m) in
  out = mk_fd opath (length (content g) + length data)
  ∧ crc = update_crc tcrc data
  ∧ files w' = <[opath := mk_file (content g ++ data) (mode g)]> (files w)
  ∧ Forall (λ e, ∃ f h, files w !! c_str e.2 = Some f ∧ hdr_at w e.2 = Some h
                        ∧ shard_crc h = update_crc 0 (payload f)) m.
Proof.
  induction m as [|[k q] m IH]; intros opath g tcrc w out crc w' Hg Hout Hrun; cbn zeta.
  - cbn in Hrun. injection Hrun as <- <- <-. cbn [fmap list_fmap concat length].
    rewrite Nat.add_0_r, update_crc_nil, app_nil_r, file_eta, insert_id by exact Hg.
    auto.
  - apply Forall_cons in Hout as [Hq Hout]. change ((k, q).2) with q in Hq.
    cbn [append_shards] in Hrun. unfold bind at 1 in Hrun.
    rewrite open_shard_probe in Hrun.
    destruct (probe q (files w !! c_str q)) as [[inp h]| |] eqn:Hprobe; [|discriminate..].
    assert (Hh : hdr_at w q = Some h) by (unfold hdr_at; now rewrite Hprobe).
    apply probe_ok_inv in Hprobe as (fq & Hfq & -> & -> & Hlenq).
    unfold bind at 1 in Hrun.
    destruct (decide (enough fuel (length (drop header_len (content fq))))) as [Hen|Hen].
    2: { pose proof (append_payload_out_of_fuel fuel (c_str q) header_len opath tcrc 0 w fq g
                       Hfq Hg Hq Hen) as Hoof.
         destruct (append_payload fuel _ _ tcrc 0 w) as [[| |] ?]; cbn in Hoof; discriminate. }
    rewrite (append_payload_ok fuel (c_str q) header_len opath tcrc 0 w fq g Hfq Hg Hq Hen)
      in Hrun.
    cbn zeta in Hrun. fold (payload fq) in Hrun.
    destruct (decide (_ ≠ _)) as [|Hcrc]; [discriminate|]. apply dec_stable in Hcrc.
    set (g1 := mk_file (content g ++ payload fq) (mode g)) in *.
    set (w1 := mk_world (<[opath := g1]> (files w)) _) in *.
    assert (Hpos : (length (content g) + length (payload fq))%nat = length (content g1)).
    { subst g1. cbn [content]. now rewrite length_app. }
    rewrite Hpos in Hrun.
    assert (Hsame : ∀ e : Z * string,
              c_str e.2 ≠ opath → files w1 !! c_str e.2 = files w !! c_str e.2).
    { intros e He. subst w1. cbn [files]. now rewrite lookup_insert_ne. }
    apply (IH opath g1 _ w1) in Hrun as (-> & -> & Hfiles & Hall); [| |exact Hout].
    2: { subst w1. cbn [files]. apply lookup_insert_eq. }
    assert (Hdata : (λ e : Z * string, from_option payload [] (files w1 !! c_str e.2)) <$> m
                    = (λ e, from_option payload [] (files w !! c_str e.2)) <$> m).
    { apply Forall_fmap_ext_1. eapply Forall_impl; [exact Hout|]. cbn beta.
      intros e He. now rewrite Hsame. }
    rewrite Hdata in *. cbn [fmap list_fmap concat]. change ((k, q).2) with q.
    rewrite Hfq. cbn [from_option].
    set (rest := concat _) in *.
    split; [|split; [|split]].
    + subst g1. cbn [content]. rewrite !length_app. f_equal. lia.
    + now rewrite update_crc_app.
    + rewrite Hfiles. subst w1 g1. cbn [files content mode].
      rewrite insert_insert_eq, app_assoc. reflexivity.
    + constructor.
      * exists fq, (decode_hdr (take header_len (content fq))).
        change ((k, q).2) with q. auto.
      * rewrite Forall_forall in Hall, Hout |- *. intros e He.
        destruct (Hall e He) as (f0 & h0 & Hf0 & Hh0 & Hc0).
        specialize (Hout e He). cbn beta in Hout.
        exists f0, h0. rewrite Hsame in Hf0 by exact Hout. split; [exact Hf0|].
        split; [|exact Hc0].
        unfold hdr_at in Hh0 |- *. now rewrite Hsame in Hh0.
Qed.

(** X10: [join] succeeds only on a consistent set: every path names a
    file that starts with the magic number and whose header gives the size
    of the file, the number of paths is the shard count of the first header,
    every header has the shard count, the size, the checksum and the name of
    the first one, and no two headers have the same index. *)
Theorem join_ok_consistent fuel file_names w w' :
  join fuel file_names w = (Ok tt, w') →
  ∃ first rest master,
    file_names = first :: rest
    ∧ hdr_at w first = Some master
    ∧ Z.of_nat (length file_names) = shard_count master
    ∧ Forall (λ p, ∃ f h,
                files w !! c_str p = Some f
                ∧ hdr_at w p = Some h
                ∧ magic h = expected_magic
                ∧ shard_size h = Z.of_nat (length (content f))
                ∧ shard_count h = shard_count master
                ∧ original_size h = original_size master
                ∧ original_crc h = original_crc master
                ∧ name_of h = name_of master) file_names
    ∧ NoDup ((λ p, (entry_of w p).1) <$> file_names).
Proof.
  intros Hjoin. destruct file_names as [|first rest]; [discriminate|].
  apply join_ok_inv in Hjoin as (master & m & Hmaster & Hlen & Hcol & Hre).
  exists first, rest, master. do 3 (split; [assumption || reflexivity|]).
  destruct (collected_map _ _ _ _ _ Hmaster Hcol) as [Hnd Hperm].
  apply collect_shards_ok in Hcol as [Hall _].
  split.
  - assert (Hall' : Forall (λ p, ∃ h, hdr_at w p = Some h ∧ agree h master) (first :: rest)).
    { constructor; [|exact Hall]. exists master. split; [exact Hmaster|apply agree_refl]. }
    eapply Forall_impl; [exact Hall'|]. cbn beta. intros p (h & Hh & Ha).
    destruct (hdr_at_inv _ _ _ Hh) as (f & Hf & _ & Hmg & Hss & _).
    apply agree_iff in Ha as (Hc & Hs & Hcrc & Hn).
    exists f, h. unfold name_of. rewrite Hn. auto 10.
  - rewrite Hperm in Hnd. rewrite <- list_fmap_compose in Hnd. exact Hnd.
Qed.

(** X11: when [join] succeeds and its destination is none of the shard
    files, it has changed the destination and nothing else; the destination
    holds the payloads of the shards one after the other, in the order of
    their indices; its size and its checksum are those of the first header;
    and the checksum in every header is the checksum of the payload that
    follows it. *)
Theorem join_ok_sound fuel file_names w w' :
  join fuel file_names w = (Ok tt, w') →
  destination w file_names ∉ c_str <$> file_names →
  ∃ first rest master m g,
    file_names = first :: rest
    ∧ hdr_at w first = Some master
    ∧ StronglySorted key_lt m ∧ m ≡ₚ entry_of w <$> file_names
    ∧ files w' = <[destination w file_names := g]> (files w)
    ∧ content g = concat ((λ e, from_option payload [] (files w !! c_str e.2)) <$> m)
    ∧ Z.of_nat (length (content g)) = original_size master
    ∧ update_crc 0 (content g) = original_crc master
    ∧ Forall (λ p, ∃ f h, files w !! c_str p = Some f ∧ hdr_at w p = Some h
                          ∧ shard_crc h = update_crc 0 (payload f)) file_names.
Proof.
  intros Hjoin Hdest. destruct file_names as [|first rest]; [discriminate|].
  apply join_ok_inv in Hjoin as (master & m & Hmaster & Hlen & Hcol & Hre).
  unfold destination in *. rewrite Hmaster in *.
  set (dest := c_str (name_of master)) in *.
  assert (Hsorted : StronglySorted key_lt m ∧ m ≡ₚ entry_of w <$> first :: rest).
  { apply collect_shards_ok in Hcol as [_ Hmap].
    apply emplace_all_some in Hmap as (_ & Hs & Hp); [|repeat constructor].
    split; [exact Hs|]. rewrite Hp. cbn [fmap list_fmap]. unfold entry_of at 2.
    rewrite Hmaster. symmetry. apply Permutation_cons_append. }
  destruct Hsorted as [Hs Hperm].
  assert (Hout : Forall (λ e, c_str e.2 ≠ dest) m).
  { apply Forall_forall. intros e He Heq. apply Hdest. rewrite <- Heq.
    rewrite Hperm in He. apply list_elem_of_fmap in He as (q & -> & Hq).
    unfold entry_of. change ((_, q).2) with q. now apply list_elem_of_fmap_2. }
  unfold reassemble in Hre. unfold bind at 1 in Hre.
  assert (Hne : c_str (name_of master) ≠ "").
  { intros Heq. unfold open_rw in Hre. rewrite decide_True in Hre by exact Heq. discriminate. }
  rewrite open_rw_ok in Hre by exact Hne. fold dest in Hre.
  set (md := match files w !! dest with Some g => mode g | None => default_mode end) in *.
  set (w1 := mk_world (<[dest := mk_file [] md]> (files w)) _) in *.
  unfold bind at 1 in Hre.
  destruct (append_shards fuel m (mk_fd dest 0) 0 w1) as [[[out crc]| |] w2] eqn:Hrun;
    [|discriminate..].
  assert (Hg1 : files w1 !! dest = Some (mk_file [] md)) by apply lookup_insert_eq.
  assert (Hsame : ∀ e : Z * string,
            c_str e.2 ≠ dest → files w1 !! c_str e.2 = files w !! c_str e.2).
  { intros e He. subst w1. cbn [files]. now rewrite lookup_insert_ne. }
  apply (append_shards_sound fuel m dest (mk_file [] md) 0 w1) in Hrun
    as (-> & -> & Hfiles & Hall); [|exact Hg1|exact Hout].
  assert (Hdata : (λ e : Z * string, from_option payload [] (files w1 !! c_str e.2)) <$> m
                  = (λ e, from_option payload [] (files w !! c_str e.2)) <$> m).
  { apply Forall_fmap_ext_1. eapply Forall_impl; [exact Hout|]. cbn beta.
    intros e He. now rewrite Hsame. }
  rewrite Hdata in *. set (data := concat _) in *.
  cbn [content mode length Nat.add app] in *.
  unfold tell in Hre. rewrite bind_ret in Hre. cbn [fd_pos] in Hre.
  destruct (decide _) as [|Hok]; [discriminate|]. injection Hre as <-.
  apply Decidable.not_or in Hok as [Hsz Hcrc]. apply dec_stable in Hsz. apply dec_stable in Hcrc.
  exists first, rest, master, m, (mk_file data md).
  split; [reflexivity|]. split; [exact Hmaster|]. split; [exact Hs|]. split; [exact Hperm|].
  split.
  { rewrite Hfiles. subst w1. cbn [files]. now rewrite insert_insert_eq. }
  split; [reflexivity|]. split; [exact Hsz|]. split; [exact Hcrc|].
  apply Forall_forall. intros p Hp.
  assert (He : entry_of w p ∈ m) by (rewrite Hperm; now apply list_elem_of_fmap_2).
  rewrite Forall_forall in Hall, Hout.
  destruct (Hall _ He) as (f0 & h0 & Hf0 & Hh0 & Hc0). specialize (Hout _ He).
  pose proof (Hsame _ Hout) as Hsp.
  unfold entry_of in Hf0, Hh0, Hsp. change ((_, p).2) with p in *.
  exists f0, h0. rewrite Hsp in Hf0. split; [exact Hf0|]. split; [|exact Hc0].
  unfold hdr_at in Hh0 |- *. now rewrite Hsp in Hh0.
Qed.
End Sound.

Section Resized.
Context `{Layout} `{Crc}.

(** X16: a shard file that has been cut short or extended is no shard any
    more.  When [open_shard] accepts a file, it refuses every file that
    starts with the same header and has another length. *)
Theorem open_shard_refuses_resized path w f h g :
  files w !! c_str path = Some f →
  hdr_at w path = Some h →
  take header_len (content g) = take header_len (content f) →
  length (content g) ≠ length (content f) →
  let w' := mk_world (<[c_str path := g]> (files w)) (log w) in
  open_shard path w' = (Err (CouldNotOpenShard path NotAShard), w')
  ∧ classify (CouldNotOpenShard path NotAShard) = FormatError.
Proof.
  intros Hf Hh Hhead Hlen w'. split; [|reflexivity].
  destruct (hdr_at_inv _ _ _ Hh) as (f0 & Hf0 & -> & Hmagic & Hsize & Hfl).
  assert (f0 = f) as -> by congruence.
  rewrite open_shard_probe. subst w'. cbn [files]. rewrite lookup_insert_eq.
  unfold probe.
  assert (Hg : (header_len ≤ length (content g))%nat).
  { apply (f_equal length) in Hhead. rewrite !length_take in Hhead. lia. }
  rewrite decide_False by (unfold header_size; lia).
  rewrite Hhead. rewrite decide_True; [reflexivity|].
  right. rewrite Hsize. lia.
Qed.
End Resized.

(** ** A path that names no file *)

Section MissingShard.
Context `{Layout} `{Crc}.

(** X12: when one of the paths given to [join] names no file, [join]
    fails before the destination is opened: the run has changed nothing. *)
Theorem join_missing_shard fuel file_names w p :
  p ∈ file_names → files w !! c_str p = None →
  ∃ e, join fuel file_names w = (Err e, w)
       ∧ (classify e = IOError ∨ classify e = FormatError ∨ classify e = ConsistencyError).
Proof.
  intros Hp Hnone.
  assert (Hno : hdr_at w p = None).
  { unfold hdr_at. rewrite Hnone. reflexivity. }
  destruct file_names as [|first rest]; [inversion Hp|].
  unfold join. unfold bind at 1. rewrite open_shard_probe.
  destruct (probe first (files w !! c_str first)) as [[fd master]|e0|] eqn:Hprobe.
  - assert (Hmaster : hdr_at w first = Some master) by (unfold hdr_at; now rewrite Hprobe).
    destruct (decide (_ ≠ _)); [eexists; split; [reflexivity|auto]|].
    unfold bind at 1.
    destruct (collect_shards rest master _ w) as [[m|e0|] w1] eqn:Ec.
    + pose proof (collect_shards_world _ _ _ _ _ _ Ec) as ->.
      apply collect_shards_ok in Ec as [Hall _]. exfalso.
      apply elem_of_cons in Hp as [->|Hp]; [congruence|].
      rewrite Forall_forall in Hall. destruct (Hall _ Hp) as (h & Hh & _). congruence.
    + pose proof (collect_shards_world _ _ _ _ _ _ Ec) as ->.
      exists e0. split; [reflexivity|]. eapply collect_shards_err. exact Ec.
    + now apply collect_shards_ends in Ec.
  - exists e0. split; [reflexivity|].
    apply probe_err_class in Hprobe as [-> | ->]; auto.
  - unfold probe in Hprobe. destruct (files w !! c_str first); [|discriminate].
    repeat destruct (decide _); discriminate.
Qed.
End MissingShard.

(** ** The parameters of the program *)

Module AppFacts.
Import App.

Lemma atoi_range v n : atoi v = Some n → - 2 ^ 31 ≤ n < 2 ^ 31.
Proof.
  unfold atoi. destruct (decide _) as [Hr|]; [|discriminate]. now intros [= <-].
Qed.

Lemma size_of_int n :
  - 2 ^ 31 ≤ n < 2 ^ 31 →
  (u64 n < 1 ↔ n = 0) ∧ u64 (u64 (u64 n * 1024) * 1024) = (n * 2 ^ 20) mod 2 ^ 64.
Proof.
  intros Hn. unfold u64. split.
  - pose proof (Z.mod_pos_bound n (2 ^ 64) ltac:(lia)) as Hb. split.
    + intros Hlt. assert (E : n mod 2 ^ 64 = 0) by lia.
      destruct (decide (0 ≤ n)) as [Hp|Hp].
      * rewrite Z.mod_small in E by lia. exact E.
      * rewrite <- (Z.mod_add n 1) in E by lia. rewrite Z.mod_small in E by lia. lia.
    + intros ->. reflexivity.
  - rewrite Z.mul_mod_idemp_l by lia. rewrite <- Z.mul_assoc, Z.mul_mod_idemp_l by lia.
    f_equal.
Qed.

(** Without [-s] the limit stays what the constructor sets it to. *)
Lemma parse_args_keeps k : ∀ rest a a',
  (length rest ≤ k)%nat → parse_args rest a = Parsed a' →
  app_params a' = app_params a
  ∧ ("-s" ∉ rest → max_shard_size a' = max_shard_size a).
Proof.
  induction k as [|k IH]; intros rest a a' Hk.
  - destruct rest; [|cbn in Hk; lia]. intros [= <-]. auto.
  - destruct rest as [|p rest]; [intros [= <-]; auto|].
    cbn [parse_args]. cbn [length] in Hk.
    destruct (decide (p = "-s")) as [->|Hs].
    { destruct rest as [|v rest]; [discriminate|].
      destruct (atoi v); [|discriminate]. destruct (decide _); [discriminate|].
      intros E. apply IH in E as [E _]; [|cbn [length] in Hk; lia].
      split; [exact E|]. intros Hno. exfalso. apply Hno. left. }
    destruct (decide (p = "-d")).
    { intros E. apply IH in E as [E1 E2]; [|lia]. split; [exact E1|].
      intros Hno. apply E2. intros Hin. apply Hno. now right. }
    destruct (decide (p = "-n")).
    { destruct rest as [|v rest]; [discriminate|].
      destruct (decide _); [discriminate|].
      intros E. apply IH in E as [E1 E2]; [|cbn [length] in Hk; lia]. split; [exact E1|].
      intros Hno. apply E2. intros Hin. apply Hno. right. now right. }
    intros E. apply IH in E as [E1 E2]; [|lia]. split; [exact E1|].
    intros Hno. apply E2. intros Hin. apply Hno. now right.
Qed.

Section Runs.
Context `{Layout} `{Crc}.

(** X13: unless [-s] is among the parameters, the limit handed to [split]
    is zero, and [split] divides by it once it has read the source: the run
    of the program on one existing file does not come to a result, and no
    shard is written. *)
Theorem main_without_size_flag fuel prog first rest a w f :
  parse (first :: rest) = Parsed a →
  "-s" ∉ first :: rest →
  length (user_files a) = 1%nat →
  files w !! c_str first = Some f →
  (length (content f) < fuel)%nat →
  let r := main fuel (prog :: first :: rest) w in
  ended r = Undefined ∧ caught r = None ∧ final r = w.
Proof.
  intros Hparse Hno Hone Hf Hfuel. cbv zeta. unfold main. rewrite Hparse.
  apply (parse_args_keeps _ _ _ _ (Nat.le_refl _)) in Hparse as [Hp Hs].
  specialize (Hs Hno). cbn [app_params max_shard_size] in Hp, Hs.
  unfold run. rewrite Hp, Hs. rewrite decide_True by exact Hone.
  destruct (split_prologue fuel first 0 w f Hf Hfuel) as (inp & _ & ->).
  cbn zeta. rewrite decide_True by reflexivity. cbn. auto.
Qed.

(** X14: the path that is split, and the first shard that is joined, is the
    first parameter, whatever it is: with [-s], [-d] or [-n] in the first
    place the program looks for a file of that name.  When the first
    parameter names no file, the program fails without a change. *)
Theorem main_first_parameter fuel prog first rest a w :
  parse (first :: rest) = Parsed a →
  files w !! c_str first = None →
  let r := main fuel (prog :: first :: rest) w in
  ended r = Exited 1
  ∧ final r = w
  ∧ caught r = Some (Failed
      (if decide (length (user_files a) = 1%nat)
       then CouldNotOpenReading first Enoent
       else CouldNotOpenShard first (CouldNotOpenReading first Enoent))).
Proof.
  intros Hparse Hnone. cbv zeta. unfold main. rewrite Hparse.
  apply (parse_args_keeps _ _ _ _ (Nat.le_refl _)) in Hparse as [Hp _].
  cbn [app_params] in Hp. unfold run. rewrite Hp.
  destruct (decide (length (user_files a) = 1%nat)).
  - assert (E : split fuel first (max_shard_size a) w
               = (Err (CouldNotOpenReading first Enoent), w)).
    { unfold split. unfold bind at 1, open_ro. now rewrite Hnone. }
    rewrite E. auto.
  - assert (E : join fuel (first :: rest) w
               = (Err (CouldNotOpenShard first (CouldNotOpenReading first Enoent)), w)).
    { unfold join. unfold bind at 1. now rewrite open_shard_probe, Hnone. }
    rewrite E. auto.
Qed.
End Runs.

(** X15: the value of [-s] is refused when [atoi] makes zero of it, a text
    without digits included, and only then: a negative number passes the
    test, as the unsigned limit that its product with 2^20 wraps to. *)
Theorem size_flag_value file v n :
  file ∉ ["-s"; "-d"; "-n"] →
  atoi v = Some n →
  parse [file; "-s"; v] =
    if decide (n = 0) then BadArgument ShardsTooSmall
    else Parsed (mk_app [file; "-s"; v] [file] "shard" false ((n * 2 ^ 20) mod 2 ^ 64)).
Proof.
  intros Hfile Hv. unfold parse. cbn [parse_args].
  rewrite decide_False by (intros ->; apply Hfile; set_solver).
  rewrite decide_False by (intros ->; apply Hfile; set_solver).
  rewrite decide_False by (intros ->; apply Hfile; set_solver).
  rewrite decide_True by reflexivity. rewrite Hv. cbn zeta.
  destruct (size_of_int n (atoi_range v n Hv)) as [Hz Hm].
  destruct (decide (n = 0)) as [->|Hn].
  - rewrite decide_True by now apply Hz. reflexivity.
  - rewrite decide_False by (intros Hlt; apply Hn; now apply Hz).
    cbn [app_params user_files shard_prefix make_directory max_shard_size app].
    rewrite Hm. reflexivity.
Qed.
End AppFacts.

(** ** The code at work on concrete files *)

Lemma pair_eta {A B} (x : A * B) (a : A) : x.1 = a → x = (a, x.2).
Proof. destruct x. cbn. now intros ->. Qed.

#[local] Existing Instance natural_layout.
#[local] Existing Instance Crc32.crc.

Ltac crunch :=
  solve [ reflexivity
        | vm_compute; first [ reflexivity | exact I | discriminate
                            | intros ?; discriminate | lia
                            | split; first [ reflexivity | discriminate | intros ?; discriminate ] ] ].

(** C3 (counterexample): splitting the zero-byte file [empty.bin] succeeds
    and creates nothing: the file system afterwards is the one before, so
    there is no shard file, where the description has exactly one. *)
Lemma split_empty_source_counterexample :
  let r := split 1 "empty.bin" 4096 empty_world in
  r.1 = Ok tt ∧ created (log r.2) = [] ∧ files r.2 = files empty_world.
Proof. cbv zeta. split; [|split]; vm_compute; reflexivity. Qed.

Lemma split_empty_source_witness :
  split 1 "empty.bin" 4096 empty_world = (Ok tt, empty_world).
Proof.
  apply (split_empty_source_no_shard 1 "empty.bin" 4096 empty_world (mk_file [] 420));
    crunch.
Defined.



(** C2 (counterexample): a source of 20,000,000 bytes and a limit of 300
    bytes call for 66,667 shards; [split] refuses with the error for a file
    that is too big and creates no shard. *)
Lemma split_shard_count_counterexample :
  (20000000 + 300 - 1) / 300 = 66667
  ∧ split (Z.to_nat 20000001) "big.bin" 300 big_world = (Err BigFile, big_world).
Proof.
  split; [reflexivity|].
  apply (split_too_many_shards _ "big.bin" 300 big_world
           (mk_file (replicate (Z.to_nat 20000000) x00) 420)).
  - reflexivity.
  - discriminate.
  - cbn [content]. rewrite length_replicate, Z2Nat.id by lia. reflexivity.
  - cbn [content]. rewrite length_replicate. lia.
Qed.

(** C10 (counterexample): a source of 65,536 bytes and a limit of one byte,
    below the header size, call for 65,536 shards; [split] refuses and
    writes nothing. *)
Lemma split_limit_below_header_counterexample :
  split (Z.to_nat 65537) "wide.bin" 1 wide_world = (Err BigFile, wide_world).
Proof.
  apply (split_too_many_shards _ "wide.bin" 1 wide_world
           (mk_file (replicate (Z.to_nat 65536) x00) 420)).
  - reflexivity.
  - discriminate.
  - cbn [content]. rewrite length_replicate, Z2Nat.id by lia. reflexivity.
  - cbn [content]. rewrite length_replicate. lia.
Qed.

(** C2 (witness): [report.bin], 605 bytes, with a limit of 600 bytes. *)
Lemma split_shard_sizes_witness :
  ∃ w' g1 g2,
    split 700 "report.bin" 600 sample_world = (Ok tt, w')
    ∧ files w' !! "report.bin@1.2" = Some g1 ∧ Z.of_nat (length (payload g1)) = 304
    ∧ files w' !! "report.bin@2.2" = Some g2 ∧ Z.of_nat (length (payload g2)) = 301.
Proof.
  pose proof (split_shard_sizes 700 "report.bin" 600 sample_world (mk_file sample_data 420))
    as Hthm.
  cbv zeta in Hthm.
  specialize (Hthm ltac:(reflexivity) ltac:(reflexivity) ltac:(vm_compute; reflexivity)
                ltac:(vm_compute; discriminate) ltac:(vm_compute; discriminate)
                ltac:(vm_compute; reflexivity) ltac:(vm_compute; lia) ltac:(vm_compute; lia)).
  destruct Hthm as (w' & evs & Hrun & _ & _ & _ & Hsh).
  destruct (Hsh 1) as (g1 & Hg1 & Hl1 & _); [vm_compute; split; discriminate|].
  destruct (Hsh 2) as (g2 & Hg2 & _ & Hl2); [vm_compute; split; discriminate|].
  specialize (Hl1 ltac:(vm_compute; reflexivity)).
  specialize (Hl2 ltac:(vm_compute; reflexivity) ltac:(vm_compute; discriminate)).
  exists w', g1, g2. repeat split; assumption.
Defined.

(** C10 (witness): [report.bin] with a limit of 100 bytes: seven shards, the
    first with the whole source, the last with nothing. *)
Lemma split_limit_below_header_witness :
  ∃ w' g1 g7,
    split 700 "report.bin" 100 sample_world = (Ok tt, w')
    ∧ files w' !! "report.bin@1.7" = Some g1 ∧ payload g1 = sample_data
    ∧ files w' !! "report.bin@7.7" = Some g7 ∧ payload g7 = [].
Proof.
  pose proof (split_limit_below_header 700 "report.bin" 100 sample_world
                (mk_file sample_data 420)) as Hthm.
  cbv zeta in Hthm.
  specialize (Hthm ltac:(reflexivity) ltac:(reflexivity) ltac:(vm_compute; reflexivity)
                ltac:(vm_compute; split; [discriminate|reflexivity])
                ltac:(vm_compute; discriminate)
                ltac:(vm_compute; reflexivity) ltac:(vm_compute; lia) ltac:(vm_compute; lia)).
  destruct Hthm as (w' & evs & Hrun & _ & _ & _ & Hsh).
  destruct (Hsh 1) as (g1 & Hg1 & Hp1); [vm_compute; split; discriminate|].
  destruct (Hsh 7) as (g7 & Hg7 & Hp7); [vm_compute; split; discriminate|].
  exists w', g1, g7. repeat split; assumption.
Defined.

(** C9 (counterexample): when [report.bin] is split in two, the header of
    the second shard is first written with [shard_crc] = 1608624869, the
    checksum of the first shard's payload, and not with 0. *)
Lemma split_placeholder_counterexample :
  (λ d, shard_crc (decode_hdr d)) <$> writes_at "report.bin@1.2" 0 (log split_world)
  = [0; 1608624869]
  ∧ (λ d, shard_crc (decode_hdr d)) <$> writes_at "report.bin@2.2" 0 (log split_world)
    = [1608624869; 3617259202].
Proof. vm_compute. split; reflexivity. Qed.

Lemma split_header_written_twice_witness :
  ∃ w' hdr before after,
    split 700 "report.bin" 600 sample_world = (Ok tt, w')
    ∧ shard_idx hdr = 2
    ∧ writes_at "report.bin@2.2" 0 (log w')
      = [encode_hdr (set_shard_crc hdr (update_crc 0 (shard_payload 600 sample_data 1)));
         encode_hdr hdr]
    ∧ log w'
      = before
        ++ [EvCreate "report.bin@2.2" 420;
            EvWrite "report.bin@2.2" 0
              (encode_hdr (set_shard_crc hdr
                             (update_crc 0 (shard_payload 600 sample_data 1))))]
        ++ payload_writes "report.bin@2.2" 296 (shard_payload 600 sample_data 2)
        ++ [EvWrite "report.bin@2.2" 0 (encode_hdr hdr)]
        ++ after.
Proof.
  pose proof (split_header_written_twice 700 "report.bin" 600 sample_world
                (mk_file sample_data 420)) as Hthm.
  cbv zeta in Hthm.
  specialize (Hthm ltac:(reflexivity) ltac:(reflexivity) ltac:(reflexivity)
                ltac:(vm_compute; reflexivity)
                ltac:(vm_compute; reflexivity) ltac:(vm_compute; lia) ltac:(vm_compute; lia)).
  destruct Hthm as (w' & evs & Hrun & Hlog & Hsh).
  destruct (Hsh 2) as (g & hdr & _ & _ & Hidx & _ & Hp & Hw & before & after & Hev & _);
    [vm_compute; split; discriminate|].
  exists w', hdr, before, after. split; [exact Hrun|]. split; [exact Hidx|].
  rewrite Hlog. cbn [log sample_world app].
  rewrite decide_False in Hw, Hev by discriminate.
  change (2 - 1) with 1 in Hw, Hev. cbn [content mode] in Hw, Hev, Hp.
  replace (shard_path "report.bin" 2 (shard_total (Z.of_nat (length sample_data)) 600))
    with "report.bin@2.2" in Hw, Hev by (vm_compute; reflexivity).
  rewrite Hp in Hev. change header_len with 296%nat in Hev.
  split; [exact Hw|exact Hev].
Defined.

(** C8 (witness): one of the two shards of [report.bin] alone. *)
Lemma join_too_few_paths_witness :
  join 700 ["report.bin@1.2"] split_world = (Err (WrongCount 1 2), split_world).
Proof.
  refine (proj1 (join_too_few_paths 700 "report.bin@1.2" [] split_world
                   (mk_fd "report.bin@1.2" 296)
                   (shard_hdr_of "report.bin" 600 sample_data 1) split_world _ _));
    vm_compute; reflexivity.
Defined.



(** C6 (witness): the first payload byte of the first shard of [report.bin]
    replaced by another one. *)
Lemma join_detects_damaged_payload_witness :
  ∃ w'',
    join 700 ["report.bin@1.2"; "report.bin@2.2"]
      (damage split_world "report.bin@1.2" 296 x07)
    = (Err (Damaged "report.bin@1.2"), w'').
Proof.
  destruct (join_detects_damaged_payload 700 ["report.bin@1.2"; "report.bin@2.2"]
              split_world (join 700 ["report.bin@1.2"; "report.bin@2.2"] split_world).2
              "report.bin@1.2"
              (mk_file (encode_hdr (shard_hdr_of "report.bin" 600 sample_data 1)
                        ++ shard_payload 600 sample_data 1) 420)
              296%nat x07) as (w'' & Hrun & _).
  - exact Crc32Facts.update_detects.
  - apply pair_eta. vm_compute. reflexivity.
  - apply (bool_decide_unpack _). vm_compute. exact I.
  - apply (bool_decide_unpack _). vm_compute. exact I.
  - vm_compute. reflexivity.
  - vm_compute. lia.
  - vm_compute. discriminate.
  - exists w''. exact Hrun.
Defined.

(** X1 (witness): the round trip of [report.bin] with a limit of 600 bytes,
    two shards whose payloads, 304 and 301 bytes, cover the 605 bytes of the
    source. *)
Lemma split_then_join_restores_witness :
  ∃ w1 w2,
    split 700 "report.bin" 600 sample_world = (Ok tt, w1)
    ∧ join 700 ["report.bin@1.2"; "report.bin@2.2"] w1 = (Ok tt, w2)
    ∧ content <$> files w2 !! "report.bin" = Some sample_data.
Proof.
  pose proof (split_then_join_restores 700 "report.bin" 600 sample_world
                (mk_file sample_data 420)) as Hthm.
  cbv zeta in Hthm.
  specialize (Hthm Crc32Facts.update_range ltac:(reflexivity) ltac:(reflexivity)
                ltac:(vm_compute; reflexivity) ltac:(reflexivity)
                ltac:(vm_compute; reflexivity) ltac:(vm_compute; reflexivity)
                ltac:(vm_compute; discriminate) ltac:(vm_compute; discriminate)
                ltac:(vm_compute; lia) ltac:(vm_compute; lia)).
  destruct Hthm as (w1 & w2 & Hs & Hj & Hc).
  exists w1, w2. split; [exact Hs|]. split; [|exact Hc].
  replace ["report.bin@1.2"; "report.bin@2.2"]
    with ((λ i, make_shard_name "report.bin" i
                  (shard_total (Z.of_nat (length (content (mk_file sample_data 420)))) 600))
          <$> seqZ 1 (shard_total (Z.of_nat (length (content (mk_file sample_data 420)))) 600))
    by (vm_compute; reflexivity).
  exact Hj.
Defined.

(** X2 (witness): a run that does not end, [edge.bin] of 65,535 bytes with
    a limit of one byte. *)
Lemma split_65535_shards_never_ends_witness :
  (split 100 "edge.bin" 1 edge_world).1 = OutOfFuel.
Proof.
  apply (split_65535_shards_never_ends 100 "edge.bin" 1 edge_world
           (mk_file (replicate (Z.to_nat 65535) x00) 420)).
  - reflexivity.
  - reflexivity.
  - cbn [content]. rewrite length_replicate, Z2Nat.id by lia. reflexivity.
  - vm_compute. lia.
Defined.

(** C1 (the code at the failing input): a source of 1000 bytes is split with
    a limit of 1000 bytes into a single shard whose payload holds the first
    704 bytes only; [join] then writes these 704 bytes to the destination
    and fails, since the size in the header is 1000. *)
Theorem split_then_join_loses_bytes :
  let source := mk_file (replicate 1000 x61) 420 in
  let w := mk_world {[ "notes.txt" := source ]} [] in
  let s := split 1100 "notes.txt" 1000 w in
  let j := join 1100 ["notes.txt@1.1"] s.2 in
  s.1 = Ok tt
  ∧ created (log s.2) = ["notes.txt@1.1"]
  ∧ j.1 = Err BadReconstruction
  ∧ content <$> files j.2 !! "notes.txt" = Some (replicate 704 x61).
Proof. cbv zeta. split; [|split; [|split]]; vm_compute; reflexivity. Qed.

(** X3 (witness): [report.bin] is after the split what it was before. *)
Lemma split_touches_only_shards_witness :
  files split_world !! "report.bin" = files sample_world !! "report.bin".
Proof.
  unfold split_world.
  refine (proj2 (split_touches_only_shards 700 "report.bin" 600 sample_world (Ok tt)
                   (split 700 "report.bin" 600 sample_world).2 _) _).
  - apply pair_eta. vm_compute. reflexivity.
  - reflexivity.
Defined.

(** X4 (witness): [report.bin] with a limit of zero. *)
Lemma split_error_changes_nothing_witness :
  ∃ e, split 700 "report.bin" 0 sample_world = (Err e, sample_world) ∧ e = DivideByZero.
Proof.
  assert (Hrun : split 700 "report.bin" 0 sample_world
                 = (Err DivideByZero, (split 700 "report.bin" 0 sample_world).2)).
  { apply pair_eta. vm_compute. reflexivity. }
  destruct (split_error_changes_nothing 700 "report.bin" 0 sample_world DivideByZero _
              ltac:(reflexivity) Hrun ltac:(cbn; discriminate)) as [Hw _].
  exists DivideByZero. rewrite Hw in Hrun. split; [exact Hrun|reflexivity].
Defined.

(** X5 (witness): the two shards of [report.bin]. *)
Lemma make_shard_name_inj_witness :
  (make_shard_name "report.bin" 1 2 = make_shard_name "report.bin" 2 2 → 1 = 2 ∧ 2 = 2)
  ∧ make_shard_name "report.bin" 1 2 ≠ "report.bin".
Proof. apply (make_shard_name_inj "report.bin" 1 2 2 2); lia. Defined.

(** X6 (witness): the second shard of [report.bin], read back. *)
Lemma split_shards_open_witness :
  ∃ w' fd h,
    split 700 "report.bin" 600 sample_world = (Ok tt, w')
    ∧ open_shard "report.bin@2.2" w' = (Ok (fd, h), w')
    ∧ shard_idx h = 2 ∧ shard_count h = 2 ∧ original_size h = 605
    ∧ name_of h = "report.bin".
Proof.
  pose proof (split_shards_open 700 "report.bin" 600 sample_world (mk_file sample_data 420))
    as Hthm.
  cbv zeta in Hthm.
  specialize (Hthm Crc32Facts.update_range ltac:(reflexivity) ltac:(reflexivity)
                ltac:(reflexivity) ltac:(vm_compute; reflexivity)
                ltac:(vm_compute; reflexivity) ltac:(vm_compute; lia) ltac:(vm_compute; lia)).
  destruct Hthm as (w' & Hrun & Hsh).
  destruct (Hsh 2) as (fd & h & g & Hopen & _ & _ & Hi & Hc & Hs & _ & _ & _ & Hn);
    [vm_compute; split; discriminate|].
  exists w', fd, h. split; [exact Hrun|].
  replace (make_shard_name "report.bin" 2
             (shard_total (Z.of_nat (length (content (mk_file sample_data 420)))) 600))
    with "report.bin@2.2" in Hopen by (vm_compute; reflexivity).
  split; [exact Hopen|]. split; [exact Hi|].
  split; [rewrite Hc; vm_compute; reflexivity|].
  split; [rewrite Hs; vm_compute; reflexivity|].
  rewrite Hn. vm_compute. reflexivity.
Defined.

(** X7 (witness): the payloads of the two shards of [report.bin]. *)
Lemma split_payloads_tile_witness :
  ∃ w',
    split 700 "report.bin" 600 sample_world = (Ok tt, w')
    ∧ from_option payload [] (files w' !! "report.bin@1.2")
      ++ from_option payload [] (files w' !! "report.bin@2.2")
      = sample_data.
Proof.
  pose proof (split_payloads_tile 700 "report.bin" 600 sample_world (mk_file sample_data 420))
    as Hthm.
  cbv zeta in Hthm.
  specialize (Hthm ltac:(reflexivity) ltac:(reflexivity) ltac:(reflexivity)
                ltac:(vm_compute; reflexivity) ltac:(vm_compute; reflexivity)
                ltac:(vm_compute; lia) ltac:(vm_compute; lia)).
  destruct Hthm as (w' & Hrun & Htile).
  exists w'. split; [exact Hrun|].
  replace (shard_total (Z.of_nat (length (content (mk_file sample_data 420)))) 600)
    with 2 in Htile by (vm_compute; reflexivity).
  change (seqZ 1 2) with [1; 2] in Htile. cbn [fmap list_fmap concat] in Htile.
  rewrite app_nil_r in Htile.
  replace (shard_path "report.bin" 1 2) with "report.bin@1.2" in Htile
    by (vm_compute; reflexivity).
  replace (shard_path "report.bin" 2 2) with "report.bin@2.2" in Htile
    by (vm_compute; reflexivity).
  rewrite Htile. cbn [content]. apply take_ge. vm_compute. lia.
Defined.

(** X8 (witness): one of the two shards of [report.bin] alone. *)
Lemma join_consistency_error_changes_nothing_witness :
  (join 700 ["report.bin@2.2"] split_world).2 = split_world.
Proof.
  apply (join_consistency_error_changes_nothing 700 ["report.bin@2.2"] split_world
           (WrongCount 1 2)).
  - apply pair_eta. vm_compute. reflexivity.
  - reflexivity.
Defined.

(** X9 (witness): the two shards of [in/report.bin], the first of them with
    a changed payload byte.  [report.bin] is there after the failure. *)
Lemma join_corruption_leaves_output_witness :
  let w := damage folder_split_world "in/report.bin@1.2" 296 x07 in
  let r := join 700 ["in/report.bin@1.2"; "in/report.bin@2.2"] w in
  files w !! "report.bin" = None
  ∧ r.1 = Err (Damaged "in/report.bin@1.2")
  ∧ is_Some (files r.2 !! "report.bin").
Proof.
  cbv zeta. split; [vm_compute; reflexivity|]. split; [vm_compute; reflexivity|].
  replace "report.bin"
    with (destination (damage folder_split_world "in/report.bin@1.2" 296 x07)
            ["in/report.bin@1.2"; "in/report.bin@2.2"]) by (vm_compute; reflexivity).
  refine (proj1 (join_corruption_leaves_output 700 ["in/report.bin@1.2"; "in/report.bin@2.2"]
                   (damage folder_split_world "in/report.bin@1.2" 296 x07)
                   (Damaged "in/report.bin@1.2") _ _ _)).
  - apply pair_eta. vm_compute. reflexivity.
  - reflexivity.
Defined.

(** X10 (witness): the two shards of [report.bin]. *)
Lemma join_ok_consistent_witness :
  NoDup ((λ p, (entry_of split_world p).1) <$> ["report.bin@1.2"; "report.bin@2.2"]).
Proof.
  destruct (join_ok_consistent 700 ["report.bin@1.2"; "report.bin@2.2"] split_world
              (join 700 ["report.bin@1.2"; "report.bin@2.2"] split_world).2)
    as (first & rest & master & _ & _ & _ & _ & Hnd).
  - apply pair_eta. vm_compute. reflexivity.
  - exact Hnd.
Defined.

(** X11 (witness): the two shards of [in/report.bin], the second one named
    first. *)
Lemma join_ok_sound_witness :
  ∃ g, files (join 700 ["in/report.bin@2.2"; "in/report.bin@1.2"] folder_split_world).2
         !! "report.bin" = Some g
       ∧ Z.of_nat (length (content g)) = 605.
Proof.
  assert (Hos : original_size <$> hdr_at folder_split_world "in/report.bin@2.2" = Some 605)
    by (vm_compute; reflexivity).
  assert (Hd : destination folder_split_world ["in/report.bin@2.2"; "in/report.bin@1.2"]
               = "report.bin") by (vm_compute; reflexivity).
  destruct (join_ok_sound 700 ["in/report.bin@2.2"; "in/report.bin@1.2"] folder_split_world
              (join 700 ["in/report.bin@2.2"; "in/report.bin@1.2"] folder_split_world).2)
    as (first & rest & master & m & g & Hnames & Hmaster & _ & _ & Hfiles & _ & Hsize & _).
  - apply pair_eta. vm_compute. reflexivity.
  - apply (bool_decide_unpack _). vm_compute. exact I.
  - exists g. rewrite Hfiles, Hd, lookup_insert_eq. split; [reflexivity|].
    rewrite Hsize. injection Hnames as <- _. rewrite Hmaster in Hos.
    now injection Hos.
Defined.

(** X12 (witness): the first shard of [report.bin] and a path that names no
    file. *)
Lemma join_missing_shard_witness :
  ∃ e, join 700 ["report.bin@1.2"; "report.bin@3.3"] split_world = (Err e, split_world).
Proof.
  destruct (join_missing_shard 700 ["report.bin@1.2"; "report.bin@3.3"] split_world
              "report.bin@3.3") as (e & Hrun & _).
  - apply (bool_decide_unpack _). vm_compute. exact I.
  - vm_compute. reflexivity.
  - exists e. exact Hrun.
Defined.

(** X13 (witness): [chainsaw report.bin]. *)
Lemma main_without_size_flag_witness :
  let r := App.main 700 ["chainsaw"; "report.bin"] sample_world in
  App.ended r = App.Undefined ∧ App.caught r = None ∧ App.final r = sample_world.
Proof.
  apply (AppFacts.main_without_size_flag 700 "chainsaw" "report.bin" []
           (App.mk_app ["report.bin"] ["report.bin"] "shard" false 0)
           sample_world (mk_file sample_data 420)).
  - vm_compute. reflexivity.
  - apply (bool_decide_unpack _). vm_compute. exact I.
  - reflexivity.
  - vm_compute. reflexivity.
  - vm_compute. lia.
Defined.

(** X14 (witness): [chainsaw -s 1 report.bin], where [report.bin] is there
    and no file is named [-s]. *)
Lemma main_first_parameter_witness :
  let r := App.main 700 ["chainsaw"; "-s"; "1"; "report.bin"] sample_world in
  is_Some (files sample_world !! "report.bin")
  ∧ App.ended r = App.Exited 1
  ∧ App.caught r = Some (App.Failed (CouldNotOpenReading "-s" Enoent)).
Proof.
  cbv zeta. split; [vm_compute; eauto|].
  destruct (AppFacts.main_first_parameter 700 "chainsaw" "-s" ["1"; "report.bin"]
              (App.mk_app ["-s"; "1"; "report.bin"] ["report.bin"] "shard" false 1048576)
              sample_world) as (Hended & _ & Hcaught).
  - vm_compute. reflexivity.
  - vm_compute. reflexivity.
  - split; [exact Hended|exact Hcaught].
Defined.

(** X15 (witness): [-s -1] gives the limit 2^64 - 2^20. *)
Lemma size_flag_value_witness :
  App.parse ["report.bin"; "-s"; "-1"]
  = App.Parsed (App.mk_app ["report.bin"; "-s"; "-1"] ["report.bin"] "shard" false
                  (2 ^ 64 - 2 ^ 20)).
Proof.
  apply (AppFacts.size_flag_value "report.bin" "-1" (-1)).
  - apply (bool_decide_unpack _). vm_compute. exact I.
  - vm_compute. reflexivity.
Defined.

(** X16 (witness): the first shard of [report.bin] with one byte more. *)
Lemma open_shard_refuses_resized_witness :
  ∃ w', open_shard "report.bin@1.2" w' = (Err (CouldNotOpenShard "report.bin@1.2" NotAShard), w').
Proof.
  pose proof (open_shard_refuses_resized "report.bin@1.2" split_world
                (mk_file (encode_hdr (shard_hdr_of "report.bin" 600 sample_data 1)
                          ++ shard_payload 600 sample_data 1) 420)
                (shard_hdr_of "report.bin" 600 sample_data 1)
                (mk_file (encode_hdr (shard_hdr_of "report.bin" 600 sample_data 1)
                          ++ shard_payload 600 sample_data 1 ++ [x00]) 420)) as Hthm.
  cbv zeta in Hthm.
  destruct Hthm as [Hrun _].
  - vm_compute. reflexivity.
  - vm_compute. reflexivity.
  - vm_compute. reflexivity.
  - vm_compute. lia.
  - eexists. exact Hrun.
Defined.
